(** * mooltipage: the document tree, the pipeline cache and the pipeline

    A shallow embedding of
    - the DOM mutation and cloning functions (detatchNode, appendChild,
      prependChild, appendSibling, prependSibling, replaceNode, swapNode,
      the clone* family),
    - the PipelineCache class,
    - StandardPipeline.linkResource, compileExpression and
      getOrParseFragment,
    together with the properties of the specification that concern them,
    and of
    - the functions that search and walk the tree (findChildNode,
      findChildNodes, findChildTag, findChildTags, getChildTags,
      findChildTagsByPath, findTopLevelChildTags, walkDom), clear,
      appendChildNodes and createDomFromChildren,
    - StandardPipeline.compileScript, compileExternalScript and reset,
    with properties read off the code.

    JavaScript objects have identity and are mutated in place, so the
    nodes live in a heap: a finite map from node identities to node
    records.  A function that mutates nodes takes a heap and returns the
    heap after the call. *)

From stdpp Require Import base option list gmap strings.
From Stdlib Require Import ZArith Lia.

Set Default Proof Using "Type".
Set Warnings "-register-all".

(** A call either returns a value or throws. *)
Inductive result (E A : Type) : Type :=
  | Return (a : A)
  | Raise (e : E).
Arguments Return {E A} a.
Arguments Raise {E A} e.

(** ** The document model *)

Module Dom.

(** Node identity (a JavaScript object reference). *)
Definition nid := nat.

(** Attributes of a tag: [Map<string, string | null>], kept as its list of
    entries in insertion order. *)
Definition Attrs := list (string * option string).

(** The node classes with the data each constructor receives, as the
    clone functions read it off a node and hand it to the constructor.
    The two flags of an import are passed on as they are. *)
Inductive NodeKind :=
  | KDocument
  | KTag (tagName : string) (attributes : Attrs)
  | KText (text : string)
  | KComment (text : string)
  | KCDATA
  | KProcessingInstruction (name data : string)
  | KMFragment (src : string) (attributes : Attrs)
  | KMComponent (src : string) (attributes : Attrs)
  | KMSlot (slot : string) (attributes : Attrs)
  | KMContent (slot : string) (attributes : Attrs)
  | KMVar (attributes : Attrs)
  | KMImport (src as_ : string) (fragment component : bool) (attributes : Attrs).

(** [DocumentNode.isDocumentNode]. *)
Definition isDocumentKind (k : NodeKind) : bool :=
  match k with KDocument => true | _ => false end.

(** [NodeWithChildren.isNodeWithChildren]: every class but the three leaf
    classes extends NodeWithChildren. *)
Definition isNodeWithChildrenKind (k : NodeKind) : bool :=
  match k with
  | KText _ | KComment _ | KProcessingInstruction _ _ => false
  | _ => true
  end.

(** The mutable fields of a node object.  [nd_children] is the
    [childNodes] array of a NodeWithChildren (empty, and never read, on a
    leaf class). *)
Record Node := mkNode {
    nd_kind : NodeKind;
    nd_parent : option nid;
    nd_prev : option nid;
    nd_next : option nid;
    nd_children : list nid
  }.

(** A node as its constructor leaves it. *)
Definition newNode (k : NodeKind) : Node := mkNode k None None None [].

#[export] Instance Node_inhabited : Inhabited Node := populate (newNode KDocument).

Abbreviation Heap := (gmap nid Node).

(** *** Field reads

    A reference in JavaScript always leads to an object.  An identity
    that the heap has no record for reads as a node without links and
    without children. *)

Definition nodeKind (h : Heap) (n : nid) : NodeKind := nd_kind (h !!! n).
Definition parentNode (h : Heap) (n : nid) : option nid := nd_parent (h !!! n).
Definition prevSibling (h : Heap) (n : nid) : option nid := nd_prev (h !!! n).
Definition nextSibling (h : Heap) (n : nid) : option nid := nd_next (h !!! n).
Definition childNodes (h : Heap) (n : nid) : list nid := nd_children (h !!! n).

Definition isDocumentNode (h : Heap) (n : nid) : bool := isDocumentKind (nodeKind h n).
Definition isNodeWithChildren (h : Heap) (n : nid) : bool :=
  isNodeWithChildrenKind (nodeKind h n).

(** *** Field writes *)

Definition with_parent (v : option nid) (nd : Node) : Node :=
  mkNode (nd_kind nd) v (nd_prev nd) (nd_next nd) (nd_children nd).
Definition with_prev (v : option nid) (nd : Node) : Node :=
  mkNode (nd_kind nd) (nd_parent nd) v (nd_next nd) (nd_children nd).
Definition with_next (v : option nid) (nd : Node) : Node :=
  mkNode (nd_kind nd) (nd_parent nd) (nd_prev nd) v (nd_children nd).
Definition with_children (v : list nid) (nd : Node) : Node :=
  mkNode (nd_kind nd) (nd_parent nd) (nd_prev nd) (nd_next nd) v.

(** [n.f = v]: the record of [n] is replaced in the heap by the record
    with the field changed (and the heap has a record for [n] from then
    on). *)
Definition update (f : Node → Node) (n : nid) (h : Heap) : Heap :=
  <[n := f (h !!! n)]> h.

Definition set_parentNode (n : nid) (v : option nid) := update (with_parent v) n.
Definition set_prevSibling (n : nid) (v : option nid) := update (with_prev v) n.
Definition set_nextSibling (n : nid) (v : option nid) := update (with_next v) n.
Definition set_childNodes (n : nid) (v : list nid) := update (with_children v) n.

(** *** detatchNode *)

Definition detatchNode (node : nid) (h : Heap) : Heap :=
  let h1 :=
    match parentNode h node with
    | Some p => set_childNodes p (filter (λ childNode, childNode ≠ node) (childNodes h p)) h
    | None => h
    end in
  let h2 :=
    match prevSibling h1 node with
    | Some p => set_nextSibling p (nextSibling h1 node) h1
    | None => h1
    end in
  let h3 :=
    match nextSibling h2 node with
    | Some nx => set_prevSibling nx (prevSibling h2 node) h2
    | None => h2
    end in
  let h4 := set_prevSibling node None h3 in
  let h5 := set_nextSibling node None h4 in
  set_parentNode node None h5.

(** [hasChild]. *)
Definition hasChild (h : Heap) (parent child : nid) : bool :=
  bool_decide (child ∈ childNodes h parent).

(** [getFirstNode] and [getLastNode]. *)
Definition getFirstNode (nodes : list nid) : option nid :=
  if decide (0 < length nodes) then nodes !! 0 else None.
Definition getLastNode (nodes : list nid) : option nid :=
  if decide (0 < length nodes) then nodes !! (length nodes - 1) else None.

(** Modelled from the spec: the getters [firstChild] and [lastChild] of
    NodeWithChildren are not under src/; they are the first and the last
    entry of the child list. *)
Definition firstChild (h : Heap) (p : nid) : option nid := getFirstNode (childNodes h p).
Definition lastChild (h : Heap) (p : nid) : option nid := getLastNode (childNodes h p).

(** *** appendChild and prependChild *)

Definition appendChild (parent child : nid) (h : Heap) : Heap :=
  let h1 := detatchNode child h in
  let h2 :=
    match lastChild h1 parent with
    | Some l =>
        let h' := set_nextSibling l (Some child) h1 in
        set_prevSibling child (lastChild h' parent) h'
    | None => h1
    end in
  let h3 := set_childNodes parent (childNodes h2 parent ++ [child]) h2 in
  set_parentNode child (Some parent) h3.

Definition prependChild (parent child : nid) (h : Heap) : Heap :=
  let h1 := detatchNode child h in
  let h2 :=
    match firstChild h1 parent with
    | Some f =>
        let h' := set_prevSibling f (Some child) h1 in
        set_nextSibling child (firstChild h' parent) h'
    | None => h1
    end in
  let h3 := set_childNodes parent (child :: childNodes h2 parent) h2 in
  set_parentNode child (Some parent) h3.

(** [appendChildNodes]: the loop visits the entries the array had when the
    loop started.  (detatchNode replaces a parent's array by a filtered
    copy and never shrinks the array in place, so the array that is being
    visited only changes when it is the [childNodes] array of [parent]
    itself at the moment of a push.) *)
Fixpoint appendChildNodes (parent : nid) (childNodes : list nid) (h : Heap) : Heap :=
  match childNodes with
  | [] => h
  | childNode :: rest => appendChildNodes parent rest (appendChild parent childNode h)
  end.

(** [clear]: the loop runs over [Array.from(parent.childNodes)], a copy. *)
Definition clear (parent : nid) (h : Heap) : Heap :=
  foldl (λ h' child, detatchNode child h') h (childNodes h parent).

(** *** Array primitives used by the sibling functions *)

(** [Array.prototype.indexOf]: the first index that holds [x], or -1. *)
Fixpoint indexOf (l : list nid) (x : nid) : Z :=
  match l with
  | [] => (-1)%Z
  | y :: l' =>
      if decide (y = x) then 0%Z
      else let i := indexOf l' x in
           if decide (i < 0)%Z then (-1)%Z else (i + 1)%Z
  end.

(** [arr.splice(start, 0, item)]: a negative [start] counts from the end
    (not below 0), a [start] past the end is the end. *)
Definition splice_insert (start : Z) (item : nid) (l : list nid) : list nid :=
  let len := Z.of_nat (length l) in
  let s := if decide (start < 0)%Z then Z.max (len + start) 0 else Z.min start len in
  take (Z.to_nat s) l ++ item :: drop (Z.to_nat s) l.

(** *** appendSibling and prependSibling *)

(** The two errors the DOM functions throw; the heap is the heap at the
    throw. *)
Inductive DomError :=
  | AppendAfterDocument (node : nid)
  | PrependBeforeDocument (node : nid).

Inductive outcome :=
  | Ok (h : Heap)
  | Throw (e : DomError) (h : Heap).

Definition heap_of (o : outcome) : Heap :=
  match o with Ok h => h | Throw _ h => h end.

Definition throws (o : outcome) : bool :=
  match o with Ok _ => false | Throw _ _ => true end.

Definition appendSibling (node after : nid) (h : Heap) : outcome :=
  if isDocumentNode h after then Throw (AppendAfterDocument node) h
  else
    let h1 := detatchNode node h in
    let parent := parentNode h1 after in
    let h2 :=
      match parent with
      | Some p =>
          let h' := set_parentNode node (Some p) h1 in
          let afterIndex := indexOf (childNodes h' p) after in
          set_childNodes p (splice_insert (afterIndex + 1) node (childNodes h' p)) h'
      | None => h1
      end in
    let h3 :=
      match nextSibling h2 after with
      | Some _ =>
          let h' := set_nextSibling node (nextSibling h2 after) h2 in
          (* [after.nextSibling] is read again; it is the same object *)
          match nextSibling h' after with
          | Some nx => set_prevSibling nx (Some node) h'
          | None => h'
          end
      | None => h2
      end in
    let h4 := set_nextSibling after (Some node) h3 in
    Ok (set_prevSibling node (Some after) h4).

Definition prependSibling (node before : nid) (h : Heap) : outcome :=
  if isDocumentNode h before then Throw (PrependBeforeDocument node) h
  else
    let h1 := detatchNode node h in
    let parent := parentNode h1 before in
    let h2 :=
      match parent with
      | Some p =>
          let h' := set_parentNode node (Some p) h1 in
          let beforeIndex := indexOf (childNodes h' p) before in
          set_childNodes p (splice_insert beforeIndex node (childNodes h' p)) h'
      | None => h1
      end in
    let h3 :=
      match prevSibling h2 before with
      | Some _ =>
          let h' := set_prevSibling node (prevSibling h2 before) h2 in
          (* [before.prevSibling] is read again; it is the same object *)
          match prevSibling h' before with
          | Some pv => set_nextSibling pv (Some node) h'
          | None => h'
          end
      | None => h2
      end in
    let h4 := set_prevSibling before (Some node) h3 in
    Ok (set_nextSibling node (Some before) h4).

(** *** replaceNode and swapNode *)

(** Modelled from the spec: the methods of the Node classes are not under
    src/.  [prevNode.appendSibling(newNode)] places [newNode] after the
    receiver, [parent.appendChildren(nodes)] appends the nodes in order,
    and [node.replaceSelf(replacement)] substitutes the replacement for
    the receiver: they forward to the functions of this module. *)
Definition Node_appendSibling (this node : nid) : Heap → outcome := appendSibling node this.
Definition Node_appendChildren (this : nid) (nodes : list nid) : Heap → Heap :=
  appendChildNodes this nodes.

(** The loop of [replaceNode]; a throw leaves the loop with the heap as
    it is. *)
Fixpoint replaceNode_loop (prevNode : nid) (replacements : list nid) (h : Heap) : outcome :=
  match replacements with
  | [] => Ok h
  | newNode :: rest =>
      match Node_appendSibling prevNode newNode h with
      | Ok h' => replaceNode_loop newNode rest h'
      | Throw e h' => Throw e h'
      end
  end.

Definition replaceNode (remove : nid) (replacements : list nid) (h : Heap) : outcome :=
  match replaceNode_loop remove replacements h with
  | Ok h' => Ok (detatchNode remove h')
  | Throw e h' => Throw e h'
  end.

Definition Node_replaceSelf (this : nid) (nodes : list nid) : Heap → outcome :=
  replaceNode this nodes.

Definition swapNode (remove replacement : nid) (h : Heap) : outcome :=
  let h1 := Node_appendChildren replacement (childNodes h remove) h in
  Node_replaceSelf remove [replacement] h1.

(** *** The tree invariant *)

(** The sibling links that a list of children asks of its entry at
    index [i]. *)
Definition prevOf (l : list nid) (i : nat) : option nid :=
  match i with
  | 0 => None
  | S j => l !! j
  end.

Definition nextOf (l : list nid) (i : nat) : option nid := l !! S i.

(** Each node is in the child list of its [parentNode] and of no other
    node, once; the sibling links of a child are its neighbours in that
    list; a node with no parent has no sibling links. *)
Record tree_invariant (h : Heap) : Prop := mkInvariant {
    child_has_parent : ∀ p c, c ∈ childNodes h p → parentNode h c = Some p;
    parent_has_child : ∀ p c, parentNode h c = Some p → c ∈ childNodes h p;
    child_once : ∀ p, NoDup (childNodes h p);
    siblings_in_order : ∀ p i c,
      childNodes h p !! i = Some c →
      prevSibling h c = prevOf (childNodes h p) i ∧
      nextSibling h c = nextOf (childNodes h p) i;
    loose_unlinked : ∀ n,
      parentNode h n = None → prevSibling h n = None ∧ nextSibling h n = None
  }.

(** The invariant at one node, as a check that runs. *)
Definition node_ok (h : Heap) (n : nid) : bool :=
  forallb (λ c, bool_decide (parentNode h c = Some n)) (childNodes h n)
  && match parentNode h n with
     | Some p => bool_decide (n ∈ childNodes h p)
     | None => bool_decide (prevSibling h n = None) && bool_decide (nextSibling h n = None)
     end
  && bool_decide (NoDup (childNodes h n))
  && forallb
       (λ i, match childNodes h n !! i with
             | Some c => bool_decide (prevSibling h c = prevOf (childNodes h n) i)
                         && bool_decide (nextSibling h c = nextOf (childNodes h n) i)
             | None => true
             end)
       (seq 0 (length (childNodes h n))).

(** The check at every node of the heap. *)
Definition heap_ok (h : Heap) : bool :=
  forallb (λ '(n, _), node_ok h n) (map_to_list h).

(** A node that is in no tree: it has no parent, no siblings, and (by
    the invariant) is in no child list. *)
Definition loose (h : Heap) (n : nid) : Prop :=
  parentNode h n = None ∧ prevSibling h n = None ∧ nextSibling h n = None.

(** No entry of the list is the entry before it. *)
Fixpoint no_repeat (prevNode : nid) (l : list nid) : Prop :=
  match l with
  | [] => True
  | x :: l' => x ≠ prevNode ∧ no_repeat x l'
  end.

(** *** Allocation and cloning *)

(** [new XNode(...)] needs a fresh identity: the store pairs the heap with
    the next unused identity. *)
Record Store := mkStore {
    st_heap : Heap;
    st_next : nid
  }.

Definition alloc (k : NodeKind) (st : Store) : nid * Store :=
  (st_next st, mkStore (<[st_next st := newNode k]> (st_heap st)) (S (st_next st))).

Definition on_heap (f : Heap → Heap) (st : Store) : Store :=
  mkStore (f (st_heap st)) (st_next st).

(** The optional callback of the clone functions; it may do anything to
    the store. *)
Definition Callback := option (nid → nid → Store → Store).

Definition processClonedNode (oldNode newNode : nid) (callback : Callback)
    (st : Store) : Store :=
  match callback with
  | Some cb => cb oldNode newNode st
  | None => st
  end.

(** [new Map(oldAttrs.entries())]: a new map with the same entries. *)
Definition cloneAttributes (attributes : Attrs) : Attrs := attributes.

Section CloneBody.
(** [node.clone(deep, callback)], the method the clone functions call
    back into; [None] when the recursion does not return. *)
Variable Node_clone : nid → bool → Callback → Store → option (nid * Store).

(** [childNodes.map(node => node.clone(true, callback))]. *)
Fixpoint cloneEach (childNodes : list nid) (callback : Callback) (st : Store)
    : option (list nid * Store) :=
  match childNodes with
  | [] => Some ([], st)
  | node :: rest =>
      match Node_clone node true callback st with
      | Some (newChild, st1) =>
          match cloneEach rest callback st1 with
          | Some (newChildren, st2) => Some (newChild :: newChildren, st2)
          | None => None
          end
      | None => None
      end
  end.

Definition cloneChildNodes (parent : nid) (childNodes : list nid)
    (callback : Callback) (st : Store) : option Store :=
  if decide (0 < length childNodes) then
    match cloneEach childNodes callback st with
    | Some (newChildren, st1) => Some (on_heap (appendChildNodes parent newChildren) st1)
    | None => None
    end
  else Some st.

Definition processClonedParentNode (oldNode newNode : nid) (deep : bool)
    (callback : Callback) (st : Store) : option Store :=
  let st1 := processClonedNode oldNode newNode callback st in
  if deep then cloneChildNodes newNode (childNodes (st_heap st1) oldNode) callback st1
  else Some st1.

(** [f(...); return newNode]. *)
Definition returning (newNode : nid) (r : option Store) : option (nid * Store) :=
  match r with
  | Some st => Some (newNode, st)
  | None => None
  end.

(** Each clone function reads the fields of its class from [node]; the
    last branch is the case its parameter type excludes. *)
Definition cloneTagNode (node : nid) (deep : bool) (callback : Callback)
    (st : Store) : option (nid * Store) :=
  match nodeKind (st_heap st) node with
  | KTag tagName attributes =>
      let newAttrs := cloneAttributes attributes in
      let '(newNode, st1) := alloc (KTag tagName newAttrs) st in
      returning newNode (processClonedParentNode node newNode deep callback st1)
  | _ => None
  end.

Definition cloneTextNode (node : nid) (callback : Callback) (st : Store)
    : option (nid * Store) :=
  match nodeKind (st_heap st) node with
  | KText text =>
      let '(newNode, st1) := alloc (KText text) st in
      Some (newNode, processClonedNode node newNode callback st1)
  | _ => None
  end.

Definition cloneCommentNode (node : nid) (callback : Callback) (st : Store)
    : option (nid * Store) :=
  match nodeKind (st_heap st) node with
  | KComment text =>
      let '(newNode, st1) := alloc (KComment text) st in
      Some (newNode, processClonedNode node newNode callback st1)
  | _ => None
  end.

Definition cloneCDATANode (node : nid) (deep : bool) (callback : Callback)
    (st : Store) : option (nid * Store) :=
  match nodeKind (st_heap st) node with
  | KCDATA =>
      let '(newNode, st1) := alloc KCDATA st in
      returning newNode (processClonedParentNode node newNode deep callback st1)
  | _ => None
  end.

Definition cloneProcessingInstructionNode (node : nid) (callback : Callback)
    (st : Store) : option (nid * Store) :=
  match nodeKind (st_heap st) node with
  | KProcessingInstruction name data =>
      let '(newNode, st1) := alloc (KProcessingInstruction name data) st in
      Some (newNode, processClonedNode node newNode callback st1)
  | _ => None
  end.

Definition cloneDocumentNode (node : nid) (deep : bool) (callback : Callback)
    (st : Store) : option (nid * Store) :=
  match nodeKind (st_heap st) node with
  | KDocument =>
      let '(newNode, st1) := alloc KDocument st in
      returning newNode (processClonedParentNode node newNode deep callback st1)
  | _ => None
  end.

Definition cloneMFragmentNode (node : nid) (deep : bool) (callback : Callback)
    (st : Store) : option (nid * Store) :=
  match nodeKind (st_heap st) node with
  | KMFragment src attributes =>
      let newAttrs := cloneAttributes attributes in
      let '(newNode, st1) := alloc (KMFragment src newAttrs) st in
      returning newNode (processClonedParentNode node newNode deep callback st1)
  | _ => None
  end.

Definition cloneMComponentNode (node : nid) (deep : bool) (callback : Callback)
    (st : Store) : option (nid * Store) :=
  match nodeKind (st_heap st) node with
  | KMComponent src attributes =>
      let newAttrs := cloneAttributes attributes in
      let '(newNode, st1) := alloc (KMComponent src newAttrs) st in
      returning newNode (processClonedParentNode node newNode deep callback st1)
  | _ => None
  end.

Definition cloneMSlotNode (node : nid) (deep : bool) (callback : Callback)
    (st : Store) : option (nid * Store) :=
  match nodeKind (st_heap st) node with
  | KMSlot slot attributes =>
      let newAttrs := cloneAttributes attributes in
      let '(newNode, st1) := alloc (KMSlot slot newAttrs) st in
      returning newNode (processClonedParentNode node newNode deep callback st1)
  | _ => None
  end.

Definition cloneMContentNode (node : nid) (deep : bool) (callback : Callback)
    (st : Store) : option (nid * Store) :=
  match nodeKind (st_heap st) node with
  | KMContent slot attributes =>
      let newAttrs := cloneAttributes attributes in
      let '(newNode, st1) := alloc (KMContent slot newAttrs) st in
      returning newNode (processClonedParentNode node newNode deep callback st1)
  | _ => None
  end.

Definition cloneMVarNode (node : nid) (deep : bool) (callback : Callback)
    (st : Store) : option (nid * Store) :=
  match nodeKind (st_heap st) node with
  | KMVar attributes =>
      let newAttrs := cloneAttributes attributes in
      let '(newNode, st1) := alloc (KMVar newAttrs) st in
      returning newNode (processClonedParentNode node newNode deep callback st1)
  | _ => None
  end.

Definition cloneMImportNode (node : nid) (deep : bool) (callback : Callback)
    (st : Store) : option (nid * Store) :=
  match nodeKind (st_heap st) node with
  | KMImport src as_ fragment component attributes =>
      let newAttrs := cloneAttributes attributes in
      let '(newNode, st1) := alloc (KMImport src as_ fragment component newAttrs) st in
      returning newNode (processClonedParentNode node newNode deep callback st1)
  | _ => None
  end.

(** Modelled from the spec: the [clone(deep, callback)] methods of the
    node classes are not under src/.  Each class forwards to the clone
    function of its class (the spec: "clone(deep, onNodePair) returns a
    structurally independent copy; when deep, children are cloned
    recursively"). *)
Definition Node_clone_body (node : nid) (deep : bool) (callback : Callback)
    (st : Store) : option (nid * Store) :=
  match nodeKind (st_heap st) node with
  | KDocument => cloneDocumentNode node deep callback st
  | KTag _ _ => cloneTagNode node deep callback st
  | KText _ => cloneTextNode node callback st
  | KComment _ => cloneCommentNode node callback st
  | KCDATA => cloneCDATANode node deep callback st
  | KProcessingInstruction _ _ => cloneProcessingInstructionNode node callback st
  | KMFragment _ _ => cloneMFragmentNode node deep callback st
  | KMComponent _ _ => cloneMComponentNode node deep callback st
  | KMSlot _ _ => cloneMSlotNode node deep callback st
  | KMContent _ _ => cloneMContentNode node deep callback st
  | KMVar _ => cloneMVarNode node deep callback st
  | KMImport _ _ _ _ _ => cloneMImportNode node deep callback st
  end.
End CloneBody.

(** The recursion of [clone] follows the heap, not a Rocq term, so it is
    bounded by [fuel]; [None] is a recursion deeper than [fuel]. *)
Fixpoint Node_clone (fuel : nat) (node : nid) (deep : bool) (callback : Callback)
    (st : Store) : option (nid * Store) :=
  match fuel with
  | 0 => None
  | S fuel' => Node_clone_body (Node_clone fuel') node deep callback st
  end.

(** *** Trees as values *)

(** The subtree under a node, read off the heap: the identity and the
    class data of each node and the subtrees of its children in order. *)
Inductive Tree :=
  | TNode (id : nid) (kind : NodeKind) (children : list Tree).

Definition root (t : Tree) : nid :=
  match t with TNode id _ _ => id end.

(** The identities of the nodes of a tree. *)
Fixpoint ids (t : Tree) : list nid :=
  match t with
  | TNode id _ ts => id :: (ts ≫= ids)
  end.

(** The number of nested [clone] calls that cloning the tree takes. *)
Fixpoint height (t : Tree) : nat :=
  match t with
  | TNode _ _ ts => S (foldr Nat.max 0 (height <$> ts))
  end.

(** What a tree holds, without the identities of its nodes. *)
Inductive Content :=
  | CNode (kind : NodeKind) (children : list Content).

Fixpoint content (t : Tree) : Content :=
  match t with
  | TNode _ k ts => CNode k (content <$> ts)
  end.

(** The heap holds the tree [t] at [root t]: each node of [t] has the
    class data and the child list that [t] says, and a node of a leaf
    class has no children. *)
Fixpoint shaped (h : Heap) (t : Tree) : Prop :=
  match t with
  | TNode id k ts =>
      nodeKind h id = k ∧
      childNodes h id = root <$> ts ∧
      (isNodeWithChildrenKind k = false → ts = []) ∧
      (fix all (ts : list Tree) : Prop :=
         match ts with
         | [] => True
         | t' :: ts' => shaped h t' ∧ all ts'
         end) ts
  end.

(** Every link of the node [n] leads to a node in [R]. *)
Definition links_in (h : Heap) (n : nid) (R : nid → Prop) : Prop :=
  (∀ x, parentNode h n = Some x → R x) ∧
  (∀ x, prevSibling h n = Some x → R x) ∧
  (∀ x, nextSibling h n = Some x → R x) ∧
  (∀ x, x ∈ childNodes h n → R x).

(** The identities from [st_next] on are unused: no node is stored under
    them and no link leads to them. *)
Definition scoped (st : Store) : Prop :=
  (∀ m, st_next st ≤ m → st_heap st !! m = None) ∧
  (∀ n, links_in (st_heap st) n (λ x, x < st_next st)).

(** [scoped], as a check that runs. *)
Definition below (k : nid) (o : option nid) : bool :=
  match o with
  | Some x => bool_decide (x < k)
  | None => true
  end.

Definition scoped_ok (st : Store) : bool :=
  forallb
    (λ '(n, nd),
       bool_decide (n < st_next st)
       && below (st_next st) (nd_parent nd)
       && below (st_next st) (nd_prev nd)
       && below (st_next st) (nd_next nd)
       && forallb (λ c, bool_decide (c < st_next st)) (nd_children nd))
    (map_to_list (st_heap st)).

(** The nodes in [R] are a part of the heap of their own: no link of
    theirs leads out of [R]. *)
Definition region (R : nid → Prop) (h : Heap) : Prop :=
  ∀ n, R n → links_in h n R.

(** The nodes from [k] on are such a part. *)
Definition closed_from (k : nid) (h : Heap) : Prop := region (λ x, k ≤ x) h.

(** *** Changes of the data of a node

    Modelled from the spec: the node classes are not under src/.  The
    clone functions read [node.text] of a text or comment node and the
    Map that [node.getAttributes()] returns, and the spec has text and
    attribute values "evaluated in place": a compile step assigns to
    [node.text] and calls [set] and [delete] on the Map of a node.  Each
    node has a Map of its own (the constructor of a clone is given the
    new Map that cloneAttributes makes of the entries), so the entries
    are kept in the record of the node. *)

(** [Map.prototype.set] on the entries in insertion order: the value of
    a key that the Map has is replaced where it is, a new key goes to
    the end. *)
Fixpoint Map_set (key : string) (value : option string) (entries : Attrs) : Attrs :=
  match entries with
  | [] => [(key, value)]
  | (k, v) :: rest =>
      if decide (k = key) then (key, value) :: rest else (k, v) :: Map_set key value rest
  end.

(** [Map.prototype.delete]. *)
Definition Map_delete (key : string) (entries : Attrs) : Attrs :=
  filter (λ entry, entry.1 ≠ key) entries.

Definition with_kind (k : NodeKind) (nd : Node) : Node :=
  mkNode k (nd_parent nd) (nd_prev nd) (nd_next nd) (nd_children nd).

(** [node.text = text], on a node of a class that has the field. *)
Definition setText (node : nid) (text : string) (h : Heap) : Heap :=
  match nodeKind h node with
  | KText _ => update (with_kind (KText text)) node h
  | KComment _ => update (with_kind (KComment text)) node h
  | _ => h
  end.

(** The class data with the entries of the Map changed, for the classes
    that have attributes. *)
Definition onAttributes (f : Attrs → Attrs) (k : NodeKind) : option NodeKind :=
  match k with
  | KTag tagName attributes => Some (KTag tagName (f attributes))
  | KMFragment src attributes => Some (KMFragment src (f attributes))
  | KMComponent src attributes => Some (KMComponent src (f attributes))
  | KMSlot slot attributes => Some (KMSlot slot (f attributes))
  | KMContent slot attributes => Some (KMContent slot (f attributes))
  | KMVar attributes => Some (KMVar (f attributes))
  | KMImport src as_ fragment component attributes =>
      Some (KMImport src as_ fragment component (f attributes))
  | KDocument | KText _ | KComment _ | KCDATA | KProcessingInstruction _ _ => None
  end.

Definition changeAttributes (f : Attrs → Attrs) (node : nid) (h : Heap) : Heap :=
  match onAttributes f (nodeKind h node) with
  | Some k => update (with_kind k) node h
  | None => h
  end.

(** [node.getAttributes().set(name, value)] and
    [node.getAttributes().delete(name)]. *)
Definition setAttribute (node : nid) (name : string) (value : option string) : Heap → Heap :=
  changeAttributes (Map_set name value) node.
Definition deleteAttribute (node : nid) (name : string) : Heap → Heap :=
  changeAttributes (Map_delete name) node.

(** A call of one of the functions that change the tree, or a change of
    the data of a node. *)
Inductive Mutation :=
  | DetatchNode (node : nid)
  | AppendChild (parent child : nid)
  | PrependChild (parent child : nid)
  | AppendSibling (node after : nid)
  | PrependSibling (node before : nid)
  | ReplaceNode (remove : nid) (replacements : list nid)
  | SwapNode (remove replacement : nid)
  | SetText (node : nid) (text : string)
  | SetAttribute (node : nid) (name : string) (value : option string)
  | DeleteAttribute (node : nid) (name : string).

(** The heap the call leaves, whether it returns or throws. *)
Definition mutate (h : Heap) (mu : Mutation) : Heap :=
  match mu with
  | DetatchNode node => detatchNode node h
  | AppendChild parent child => appendChild parent child h
  | PrependChild parent child => prependChild parent child h
  | AppendSibling node after => heap_of (appendSibling node after h)
  | PrependSibling node before => heap_of (prependSibling node before h)
  | ReplaceNode remove replacements => heap_of (replaceNode remove replacements h)
  | SwapNode remove replacement => heap_of (swapNode remove replacement h)
  | SetText node text => setText node text h
  | SetAttribute node name value => setAttribute node name value h
  | DeleteAttribute node name => deleteAttribute node name h
  end.

(** The nodes the call is given are in [R]. *)
Definition mutates_in (R : nid → Prop) (mu : Mutation) : Prop :=
  match mu with
  | DetatchNode node => R node
  | AppendChild parent child => R parent ∧ R child
  | PrependChild parent child => R parent ∧ R child
  | AppendSibling node after => R node ∧ R after
  | PrependSibling node before => R node ∧ R before
  | ReplaceNode remove replacements => R remove ∧ Forall R replacements
  | SwapNode remove replacement => R remove ∧ R replacement
  | SetText node _ => R node
  | SetAttribute node _ _ => R node
  | DeleteAttribute node _ => R node
  end.

(** What a deep clone of the tree [t], made in the store [st], is: a tree
    [t'] of new nodes in the store [st'] with the content of [t], the
    nodes that existed before being as they were. *)
Record cloned (st : Store) (t : Tree) (st' : Store) (t' : Tree) : Prop := mkCloned {
    cloned_content : content t' = content t;
    cloned_shaped : shaped (st_heap st') t';
    cloned_new : Forall (λ id, st_next st ≤ id < st_next st') (ids t');
    cloned_frame : ∀ m, m < st_next st → st_heap st' !! m = st_heap st !! m;
    cloned_scoped : scoped st';
    cloned_closed : closed_from (st_next st) (st_heap st');
    cloned_root : loose (st_heap st') (root t')
  }.

(** The same for the clones [ts'] of a list of trees [ts], made one after
    the other; their roots are different nodes. *)
Record cloned_each (st : Store) (ts : list Tree) (st' : Store) (ts' : list Tree)
      : Prop := mkClonedEach {
    each_content : content <$> ts' = content <$> ts;
    each_shaped : Forall (shaped (st_heap st')) ts';
    each_new : Forall (λ t', Forall (λ id, st_next st ≤ id < st_next st') (ids t')) ts';
    each_distinct : NoDup (root <$> ts');
    each_frame : ∀ m, m < st_next st → st_heap st' !! m = st_heap st !! m;
    each_scoped : scoped st';
    each_closed : closed_from (st_next st) (st_heap st');
    each_roots : Forall (λ t', loose (st_heap st') (root t')) ts';
    each_next : st_next st ≤ st_next st'
  }.

(** *** createDomFromChildren *)

(** [createDomFromChildren]. *)
Definition createDomFromChildren (parent : nid) (st : Store) : nid * Store :=
  let '(dom, st1) := alloc KDocument st in
  (dom, on_heap (Node_appendChildren dom (childNodes (st_heap st1) parent)) st1).

End Dom.

(** ** Searching and walking the tree *)

Module Search.
Import Dom.

Section Search.
(** The search functions read the tree and change nothing: the heap is
    the same throughout a call.  A matcher is a test on a node; it is
    taken to change nothing either. *)
Variable h : Heap.

(** [TagNode.isTagNode], from the node classes, which are not under
    src/: a test on the class of a node. *)
Variable isTagNodeKind : NodeKind → bool.

Definition isTagNode (node : nid) : bool := isTagNodeKind (nodeKind h node).

Section SearchBody.
(** The recursive calls; [None] when the recursion does not return. *)
Variable findChildNode : nid → (nid → bool) → bool → option (option nid).
Variable findChildNodes : nid → (nid → bool) → bool → list nid → option (list nid).
Variable findTopLevelChildTags : nid → (nid → bool) → list nid → option (list nid).
Variable findChildTagsByPathAt :
  nid → list (nid → bool) → nat → list nid → option (list nid).

(** The loop of [findChildNode] over [parent.childNodes]. *)
Fixpoint findChildNode_loop (childNodes : list nid) (matcher : nid → bool) (deep : bool)
    : option (option nid) :=
  match childNodes with
  | [] => Some None
  | childNode :: rest =>
      if matcher childNode then Some (Some childNode)
      else if deep && isNodeWithChildren h childNode then
        match findChildNode childNode matcher true with
        | Some (Some childMatch) => Some (Some childMatch)
        | Some None => findChildNode_loop rest matcher deep
        | None => None
        end
      else findChildNode_loop rest matcher deep
  end.

(** The loop of [findChildNodes]; [matches] is the array that every call
    pushes to. *)
Fixpoint findChildNodes_loop (childNodes : list nid) (matcher : nid → bool) (deep : bool)
    (matches : list nid) : option (list nid) :=
  match childNodes with
  | [] => Some matches
  | childNode :: rest =>
      let matches1 := if matcher childNode then matches ++ [childNode] else matches in
      if deep && isNodeWithChildren h childNode then
        match findChildNodes childNode matcher true matches1 with
        | Some matches2 => findChildNodes_loop rest matcher deep matches2
        | None => None
        end
      else findChildNodes_loop rest matcher deep matches1
  end.

(** The loop of [findTopLevelChildTags]. *)
Fixpoint findTopLevelChildTags_loop (childNodes : list nid) (matcher : nid → bool)
    (matches : list nid) : option (list nid) :=
  match childNodes with
  | [] => Some matches
  | childNode :: rest =>
      if isTagNode childNode && matcher childNode then
        findTopLevelChildTags_loop rest matcher (matches ++ [childNode])
      else if isNodeWithChildren h childNode then
        match findTopLevelChildTags childNode matcher matches with
        | Some matches1 => findTopLevelChildTags_loop rest matcher matches1
        | None => None
        end
      else findTopLevelChildTags_loop rest matcher matches
  end.

(** The loop of [findChildTagsByPathAt]. *)
Fixpoint findChildTagsByPathAt_loop (childNodes : list nid) (matchers : list (nid → bool))
    (offset : nat) (matcher : nid → bool) (matches : list nid) : option (list nid) :=
  match childNodes with
  | [] => Some matches
  | childNode :: rest =>
      if isTagNode childNode && matcher childNode then
        if decide (offset = length matchers - 1) then
          findChildTagsByPathAt_loop rest matchers offset matcher (matches ++ [childNode])
        else
          match findChildTagsByPathAt childNode matchers (offset + 1) matches with
          | Some matches1 => findChildTagsByPathAt_loop rest matchers offset matcher matches1
          | None => None
          end
      else findChildTagsByPathAt_loop rest matchers offset matcher matches
  end.

Definition findChildTagsByPathAt_body (root : nid) (matchers : list (nid → bool))
    (offset : nat) (matches : list nid) : option (list nid) :=
  if decide (offset < length matchers) then
    match matchers !! offset with
    | Some matcher =>
        findChildTagsByPathAt_loop (childNodes h root) matchers offset matcher matches
    | None => Some matches
    end
  else Some matches.
End SearchBody.

(** The recursion of the search functions follows the heap, so it is
    bounded by [fuel]; [None] is a recursion deeper than [fuel]. *)
Fixpoint findChildNode (fuel : nat) (parent : nid) (matcher : nid → bool) (deep : bool)
    : option (option nid) :=
  match fuel with
  | 0 => None
  | S fuel' => findChildNode_loop (findChildNode fuel') (childNodes h parent) matcher deep
  end.

Fixpoint findChildNodes (fuel : nat) (parent : nid) (matcher : nid → bool) (deep : bool)
    (matches : list nid) : option (list nid) :=
  match fuel with
  | 0 => None
  | S fuel' =>
      findChildNodes_loop (findChildNodes fuel') (childNodes h parent) matcher deep matches
  end.

(** [findChildTag] and [findChildTags]: the matcher is asked about tag
    nodes only.  (findChildTags starts from a new array.) *)
Definition findChildTag (fuel : nat) (parent : nid) (matcher : nid → bool) (deep : bool)
    : option (option nid) :=
  let newMatcher := λ node, isTagNode node && matcher node in
  findChildNode fuel parent newMatcher deep.

Definition findChildTags (fuel : nat) (parent : nid) (matcher : nid → bool) (deep : bool)
    : option (list nid) :=
  let newMatcher := λ node, isTagNode node && matcher node in
  findChildNodes fuel parent newMatcher deep [].

(** [getChildTags]. *)
Definition getChildTags (parent : nid) : list nid :=
  filter (λ node, Is_true (isTagNode node)) (childNodes h parent).

(** [walkDom]: the callback is called with the node before the children
    of the node are walked.  The callback works on a state of its own
    and leaves the tree as it is. *)
Section WalkDom.
Context {A : Type}.

Section WalkBody.
Variable walkDom : nid → (nid → A → A) → A → option A.

Fixpoint walkDom_loop (childNodes : list nid) (callback : nid → A → A) (a : A) : option A :=
  match childNodes with
  | [] => Some a
  | childNode :: rest =>
      match walkDom childNode callback a with
      | Some a1 => walkDom_loop rest callback a1
      | None => None
      end
  end.
End WalkBody.

Fixpoint walkDom (fuel : nat) (node : nid) (callback : nid → A → A) (a : A) : option A :=
  match fuel with
  | 0 => None
  | S fuel' =>
      let a1 := callback node a in
      if isNodeWithChildren h node then
        walkDom_loop (walkDom fuel') (childNodes h node) callback a1
      else Some a1
  end.
End WalkDom.

(** [findChildTagsByPathAt] and [findChildTagsByPath]. *)
Fixpoint findChildTagsByPathAt (fuel : nat) (root : nid) (matchers : list (nid → bool))
    (offset : nat) (matches : list nid) : option (list nid) :=
  match fuel with
  | 0 => None
  | S fuel' =>
      findChildTagsByPathAt_body (findChildTagsByPathAt fuel') root matchers offset matches
  end.

Definition findChildTagsByPath (fuel : nat) (root : nid) (matchers : list (nid → bool))
    : option (list nid) :=
  findChildTagsByPathAt fuel root matchers 0 [].

(** [findTopLevelChildTags]. *)
Fixpoint findTopLevelChildTags (fuel : nat) (parent : nid) (matcher : nid → bool)
    (matches : list nid) : option (list nid) :=
  match fuel with
  | 0 => None
  | S fuel' =>
      findTopLevelChildTags_loop (findTopLevelChildTags fuel') (childNodes h parent)
        matcher matches
  end.

(** *** What the searches are compared with *)

(** The tag nodes among the children of the nodes of a list that a
    matcher accepts, in order. *)
Definition matchingChildTags (matcher : nid → bool) (nodes : list nid) : list nid :=
  nodes ≫= λ node,
    filter (λ child, Is_true (isTagNode child && matcher child)) (childNodes h node).

(** The matching tags of a tree that are below no other matching tag of
    the tree, in document order. *)
Fixpoint topLevelTags (matcher : nid → bool) (t : Tree) : list nid :=
  match t with
  | TNode id _ ts =>
      if isTagNode id && matcher id then [id] else ts ≫= topLevelTags matcher
  end.
End Search.

(** The trees under the root of a tree, and their nodes in document
    order: the nodes of the tree below its root. *)
Definition subtrees (t : Tree) : list Tree :=
  match t with TNode _ _ ts => ts end.

Definition descendants (t : Tree) : list nid := subtrees t ≫= ids.

End Search.

(** ** PipelineCache *)

Module PipelineCache.
Section PipelineCache.
(** The cached objects come from modules that are not under src/; the
    cache reads the [resId] field of a page, a fragment and a
    component and nothing else. *)
Context {Page Fragment Component EvalContent : Type}.
Variable Page_resId : Page → string.
Variable Fragment_resId : Fragment → string.
Variable Component_resId : Component → string.

Record t := mk {
    pageCache : gmap string Page;
    fragmentCache : gmap string Fragment;
    componentCache : gmap string Component;
    scriptTextCache : gmap string EvalContent
  }.

(** The four errors of the getters, with the key that was asked for. *)
Inductive CacheMiss :=
  | PageNotFound (resId : string)
  | FragmentNotFound (resId : string)
  | ComponentNotFound (resId : string)
  | ScriptTextNotFound (signature : string).

(** The constructor. *)
Definition new : t := mk ∅ ∅ ∅ ∅.

(** The methods.  A table holds values of its declared type, which has
    no [undefined] in it, so the test [value == undefined] of a getter
    succeeds exactly when the map has no entry for the key. *)
Definition hasPage (resId : string) (c : t) : bool :=
  bool_decide (is_Some (pageCache c !! resId)).

Definition getPage (resId : string) (c : t) : result CacheMiss Page :=
  match pageCache c !! resId with
  | Some page => Return page
  | None => Raise (PageNotFound resId)
  end.

Definition storePage (page : Page) (c : t) : t :=
  mk (<[Page_resId page := page]> (pageCache c)) (fragmentCache c)
     (componentCache c) (scriptTextCache c).

Definition hasFragment (resId : string) (c : t) : bool :=
  bool_decide (is_Some (fragmentCache c !! resId)).

Definition getFragment (resId : string) (c : t) : result CacheMiss Fragment :=
  match fragmentCache c !! resId with
  | Some fragment => Return fragment
  | None => Raise (FragmentNotFound resId)
  end.

Definition storeFragment (fragment : Fragment) (c : t) : t :=
  mk (pageCache c) (<[Fragment_resId fragment := fragment]> (fragmentCache c))
     (componentCache c) (scriptTextCache c).

Definition hasComponent (resId : string) (c : t) : bool :=
  bool_decide (is_Some (componentCache c !! resId)).

Definition getComponent (resId : string) (c : t) : result CacheMiss Component :=
  match componentCache c !! resId with
  | Some component => Return component
  | None => Raise (ComponentNotFound resId)
  end.

Definition storeComponent (component : Component) (c : t) : t :=
  mk (pageCache c) (fragmentCache c)
     (<[Component_resId component := component]> (componentCache c))
     (scriptTextCache c).

Definition hasScriptText (signature : string) (c : t) : bool :=
  bool_decide (is_Some (scriptTextCache c !! signature)).

Definition getScriptText (signature : string) (c : t) : result CacheMiss EvalContent :=
  match scriptTextCache c !! signature with
  | Some templateFunc => Return templateFunc
  | None => Raise (ScriptTextNotFound signature)
  end.

Definition storeScriptText (signature : string) (templateFunc : EvalContent) (c : t) : t :=
  mk (pageCache c) (fragmentCache c) (componentCache c)
     (<[signature := templateFunc]> (scriptTextCache c)).

Definition clear (c : t) : t := mk ∅ ∅ ∅ ∅.

(** A history of calls that change the cache, oldest first, and the
    cache it leaves when it starts from a new cache. *)
Inductive Call :=
  | StorePage (page : Page)
  | StoreFragment (fragment : Fragment)
  | StoreComponent (component : Component)
  | StoreScriptText (signature : string) (templateFunc : EvalContent)
  | Clear.

Definition call (c : t) (op : Call) : t :=
  match op with
  | StorePage page => storePage page c
  | StoreFragment fragment => storeFragment fragment c
  | StoreComponent component => storeComponent component c
  | StoreScriptText signature templateFunc => storeScriptText signature templateFunc c
  | Clear => clear c
  end.

Definition after (calls : list Call) : t := foldl call new calls.

(** The value most recently stored under a key by a history with no
    later [clear], read off the history alone: the history is scanned
    from its latest call backwards. *)
Fixpoint latest {V : Type} (stored : Call → option (string * V)) (key : string)
    (newestFirst : list Call) : option V :=
  match newestFirst with
  | [] => None
  | Clear :: _ => None
  | op :: older =>
      match stored op with
      | Some (k, v) => if decide (k = key) then Some v else latest stored key older
      | None => latest stored key older
      end
  end.

Definition storedPage (op : Call) : option (string * Page) :=
  match op with StorePage page => Some (Page_resId page, page) | _ => None end.
Definition storedFragment (op : Call) : option (string * Fragment) :=
  match op with StoreFragment f => Some (Fragment_resId f, f) | _ => None end.
Definition storedComponent (op : Call) : option (string * Component) :=
  match op with StoreComponent c => Some (Component_resId c, c) | _ => None end.
Definition storedScriptText (op : Call) : option (string * EvalContent) :=
  match op with StoreScriptText k f => Some (k, f) | _ => None end.

(** What a getter answers for an optional value. *)
Definition answer {V : Type} (miss : CacheMiss) (o : option V) : result CacheMiss V :=
  match o with
  | Some v => Return v
  | None => Raise miss
  end.

(** The lookup contract for one key of one table: the pair of methods
    [has]/[get] answers for the value [stored] that the history says is
    the current one, if there is one. *)
Definition follows {V : Type} (has : bool) (get : result CacheMiss V)
    (miss : CacheMiss) (stored : option V) : Prop :=
  match stored with
  | Some v => has = true ∧ get = Return v
  | None => has = false ∧ get = Raise miss
  end.
End PipelineCache.
End PipelineCache.

(** ** StandardPipeline *)

Module Pipeline.
Import Dom.

(** Modelled from the spec: the enumeration ResourceType is not under
    src/; the spec names the resource kinds markup, style and script. *)
Inductive ResourceType := HTML | CSS | JAVASCRIPT.

(** A fragment object.  StandardPipeline reads its [path] and its [dom]
    (the identity of a DocumentNode); PipelineCache reads its [resId].
    The objects that StandardPipeline builds itself are [{ path, dom }]:
    they have no [resId], and reading it gives [undefined], which is
    [None] here.  What the fragments of the parser have is up to the
    parser. *)
Record Fragment := mkFragment {
  resId : option string;
  path : string;
  dom : nid
  }.

Section Pipeline.
(** The collaborators of the pipeline that are not part of it: the
    state of the pipeline interface (the backend), the compiled units
    of the evaluator and the values they return. *)
Context {Backend EvalContent EvalContext JsValue EvalError InterfaceError : Type}.

(** The PipelineInterface object handed to the constructor.
    [reLinkCreatedResource] is an optional method. *)
Record PipelineInterface := mkInterface {
    getResource : ResourceType → string → Backend → result InterfaceError string * Backend;
    createResource : ResourceType → string → string → Backend → string * Backend;
    reLinkCreatedResource :
      option (ResourceType → string → string → string → Backend → string * Backend)
  }.

Variable pipelineInterface : PipelineInterface.

(** [crypto.createHash('md5')] with a base64 digest, from Node.js. *)
Variable md5_base64 : string → string.
(** [String.prototype.trim]. *)
Variable trim : string → string.
(** evalEngine: [isExpressionString], [parseExpression], and the
    [invoke] method of a compiled unit. *)
Variable isExpressionString : string → bool.
Variable parseExpression : string → EvalContent.
Variable invoke : EvalContent → EvalContext → result EvalError JsValue.
(** A string as a JavaScript value. *)
Variable ofString : string → JsValue.
(** [resourceParser.parseFragment]: it builds the nodes of the fragment
    in the heap. *)
Variable parseFragment : string → string → Store → Fragment * Store.

(** Modelled from the spec: the table of expressions and the table of
    created resources, which StandardPipeline calls, are not in the
    PipelineCache under src/.  The spec: "separate mappings, each keyed
    by a stable resource identity or literal-text signature: ...
    compiled expressions, ... and a content-hash to
    created-resource-path table"; [has*] never raises, [get*] raises a
    cache miss if absent, [store*] is an overwrite.

    The table of fragments is the one of PipelineCache under src/.  A
    key of a JavaScript Map can be [undefined] ([None] here), and the
    key of a fragment is, whenever the stored object has no [resId]. *)
Record Cache := mkCache {
    fragmentCache : gmap (option string) Fragment;
    expressionCache : gmap string EvalContent;
    createdResourceCache : gmap string string
  }.

Inductive PipelineError :=
  | CacheMissError (table key : string)
  | EvaluationError (e : EvalError)
  | ResourceError (e : InterfaceError).

(** [hasFragment], [getFragment] and [storeFragment] of PipelineCache
    (under src/): a fragment is stored under its own [resId]; the keys
    that [hasFragment] and [getFragment] are asked for are strings. *)
Definition hasFragment (resId : string) (c : Cache) : bool :=
  bool_decide (is_Some (fragmentCache c !! Some resId)).
Definition getFragment (resId : string) (c : Cache) : result PipelineError Fragment :=
  match fragmentCache c !! Some resId with
  | Some fragment => Return fragment
  | None => Raise (CacheMissError "fragment" resId)
  end.
Definition storeFragment (fragment : Fragment) (c : Cache) : Cache :=
  mkCache (<[resId fragment := fragment]> (fragmentCache c)) (expressionCache c)
          (createdResourceCache c).

(** Modelled from the spec: the methods of the two tables that are not
    under src/, written as the methods under src/ are. *)
Definition hasExpression (expression : string) (c : Cache) : bool :=
  bool_decide (is_Some (expressionCache c !! expression)).
Definition getExpression (expression : string) (c : Cache)
    : result PipelineError EvalContent :=
  match expressionCache c !! expression with
  | Some f => Return f
  | None => Raise (CacheMissError "expression" expression)
  end.
Definition storeExpression (expression : string) (f : EvalContent) (c : Cache) : Cache :=
  mkCache (fragmentCache c) (<[expression := f]> (expressionCache c))
          (createdResourceCache c).

Definition hasCreatedResource (hash : string) (c : Cache) : bool :=
  bool_decide (is_Some (createdResourceCache c !! hash)).
Definition getCreatedResource (hash : string) (c : Cache) : result PipelineError string :=
  match createdResourceCache c !! hash with
  | Some resPath => Return resPath
  | None => Raise (CacheMissError "created resource" hash)
  end.
Definition storeCreatedResource (hash resPath : string) (c : Cache) : Cache :=
  mkCache (fragmentCache c) (expressionCache c)
          (<[hash := resPath]> (createdResourceCache c)).

Definition newCache : Cache := mkCache ∅ ∅ ∅.

(** The state a call of the pipeline can change: the cache, the node
    store and the backend.  The last two fields record, oldest first,
    the calls of [createResource] and of [invoke] that were made; the
    pipeline never reads them. *)
Record State := mkState {
    cache : Cache;
    store : Store;
    backend : Backend;
    created : list (ResourceType * string * string);
    invoked : list (EvalContent * EvalContext)
  }.

Definition with_cache (c : Cache) (s : State) : State :=
  mkState c (store s) (backend s) (created s) (invoked s).
Definition with_store (st : Store) (s : State) : State :=
  mkState (cache s) st (backend s) (created s) (invoked s).
Definition with_backend (b : Backend) (s : State) : State :=
  mkState (cache s) (store s) b (created s) (invoked s).

(** The constructor: a new cache. *)
Definition newState (st : Store) (b : Backend) : State :=
  mkState newCache st b [] [].

(** [fastHashContent]. *)
Definition fastHashContent (content : string) : string := md5_base64 content.

(** [linkResource]. *)
Definition linkResource (type : ResourceType) (contents sourceResPath : string)
    (s : State) : result PipelineError string * State :=
  let contentsHash := fastHashContent contents in
  if hasCreatedResource contentsHash (cache s) then
    match getCreatedResource contentsHash (cache s) with
    | Return originalResPath =>
        match reLinkCreatedResource pipelineInterface with
        | Some reLink =>
            let '(resPath, b) :=
              reLink type contents sourceResPath originalResPath (backend s) in
            (Return resPath, with_backend b s)
        | None => (Return originalResPath, s)
        end
    | Raise e => (Raise e, s)
    end
  else
    let '(resPath, b) :=
      createResource pipelineInterface type contents sourceResPath (backend s) in
    let s1 :=
      mkState (cache s) (store s) b
              (created s ++ [(type, contents, sourceResPath)]) (invoked s) in
    let s2 := with_cache (storeCreatedResource contentsHash resPath (cache s1)) s1 in
    (Return resPath, s2).

(** The path the backend assigns when it is asked to create a resource
    in a state. *)
Definition assigned (type : ResourceType) (contents sourceResPath : string)
    (s : State) : string :=
  (createResource pipelineInterface type contents sourceResPath (backend s)).1.

(** [getOrParseExpression]. *)
Definition getOrParseExpression (expression : string) (s : State)
    : result PipelineError EvalContent * State :=
  if hasExpression expression (cache s) then
    (getExpression expression (cache s), s)
  else
    let expressionFunc := parseExpression expression in
    (Return expressionFunc,
     with_cache (storeExpression expression expressionFunc (cache s)) s).

(** [compileExpression]. *)
Definition compileExpression (value : string) (evalContext : EvalContext)
    (s : State) : result PipelineError JsValue * State :=
  if isExpressionString value then
    let expression := trim value in
    match getOrParseExpression expression s with
    | (Return expressionFunc, s1) =>
        let s2 :=
          mkState (cache s1) (store s1) (backend s1) (created s1)
                  (invoked s1 ++ [(expressionFunc, evalContext)]) in
        match invoke expressionFunc evalContext with
        | Return v => (Return v, s2)
        | Raise e => (Raise (EvaluationError e), s2)
        end
    | (Raise e, s1) => (Raise e, s1)
    end
  else (Return (ofString value), s).

(** The unit [getOrParseExpression] hands out for a text in a state: the
    cached unit if the cache has one, else the newly parsed one. *)
Definition unitFor (expression : string) (s : State) : EvalContent :=
  default (parseExpression expression) (expressionCache (cache s) !! expression).

(** The result of invoking a unit, as the pipeline hands it on. *)
Definition invocation (f : EvalContent) (evalContext : EvalContext)
    : result PipelineError JsValue :=
  match invoke f evalContext with
  | Return v => Return v
  | Raise e => Raise (EvaluationError e)
  end.

(** Every unit in the table of expressions is the unit that
    [parseExpression] makes of its key. *)
Definition parsedEntries (s : State) : Prop :=
  ∀ expression f,
    expressionCache (cache s) !! expression = Some f → f = parseExpression expression.

(** Modelled from the spec: [DocumentNode.clone] is not under src/; with
    no argument it is the deep clone without a callback (the spec: the
    cache "always returns a deep clone"). *)
Definition DocumentNode_clone (fuel : nat) (node : nid) (st : Store)
    : option (nid * Store) :=
  Node_clone fuel node true None st.

(** [getOrParseFragment]; [None] when the clone does not return within
    [fuel] nested calls. *)
Definition getOrParseFragment (fuel : nat) (resPath : string) (s : State)
    : option (result PipelineError Fragment * State) :=
  let r : result PipelineError Fragment * State :=
    if hasFragment resPath (cache s) then
      (getFragment resPath (cache s), s)
    else
      match getResource pipelineInterface HTML resPath (backend s) with
      | (Return html, b) =>
          let '(parsedFragment, st) := parseFragment resPath html (store s) in
          let s1 := with_store st (with_backend b s) in
          (Return parsedFragment, with_cache (storeFragment parsedFragment (cache s1)) s1)
      | (Raise e, b) => (Raise (ResourceError e), with_backend b s)
      end in
  match r with
  | (Return fragment, s1) =>
      match DocumentNode_clone fuel (dom fragment) (store s1) with
      | Some (newDom, st) =>
          Some (Return (mkFragment None (path fragment) newDom), with_store st s1)
      | None => None
      end
  | (Raise e, s1) => Some (Raise e, s1)
  end.

(** The store has the tree [t]: the heap holds it and its nodes are nodes
    that were allocated. *)
Definition holds (st : Store) (t : Tree) : Prop :=
  shaped (st_heap st) t ∧ Forall (λ id, id < st_next st) (ids t).

(** The store after a sequence of calls that change the tree (none of
    them makes a node). *)
Definition mutate_store (st : Store) (mus : list Mutation) : Store :=
  mkStore (foldl mutate (st_heap st) mus) (st_next st).

(** [getRawFragment]. *)
Definition getRawFragment := getOrParseFragment.
End Pipeline.
End Pipeline.

(** ** StandardPipeline: scripts and reset *)

Module Scripts.
Import Dom Pipeline.

Section Scripts.
Context {Backend EvalContent EvalContext JsValue EvalError InterfaceError : Type}.

Variable pipelineInterface : PipelineInterface (Backend := Backend)
                                               (InterfaceError := InterfaceError).
(** [String.prototype.trim]. *)
Variable trim : string → string.
(** evalEngine: [parseScript], and the [invoke] method of a compiled
    unit. *)
Variable parseScript : string → EvalContent.
Variable invoke : EvalContent → EvalContext → result EvalError JsValue.

(** Modelled from the spec: the tables of compiled scripts and of
    external script text of the revision of PipelineCache that
    StandardPipeline calls are not under src/.  The spec: "separate
    mappings, each keyed by a stable resource identity or literal-text
    signature: ... compiled scripts, loaded external script text";
    [has*] never raises, [get*] raises a cache miss if absent, [store*]
    is an overwrite, and [clear()] empties all mappings. *)
Record ScriptTables := mkScriptTables {
    scriptCache : gmap string EvalContent;
    externalScriptCache : gmap string string
  }.

Definition hasScript (script : string) (c : ScriptTables) : bool :=
  bool_decide (is_Some (scriptCache c !! script)).
Definition getScript (script : string) (c : ScriptTables)
    : result (PipelineError (EvalError := EvalError) (InterfaceError := InterfaceError))
             EvalContent :=
  match scriptCache c !! script with
  | Some f => Return f
  | None => Raise (CacheMissError "script" script)
  end.
Definition storeScript (script : string) (f : EvalContent) (c : ScriptTables)
    : ScriptTables :=
  mkScriptTables (<[script := f]> (scriptCache c)) (externalScriptCache c).

Definition hasExternalScript (resPath : string) (c : ScriptTables) : bool :=
  bool_decide (is_Some (externalScriptCache c !! resPath)).
Definition getExternalScript (resPath : string) (c : ScriptTables)
    : result (PipelineError (EvalError := EvalError) (InterfaceError := InterfaceError))
             string :=
  match externalScriptCache c !! resPath with
  | Some script => Return script
  | None => Raise (CacheMissError "external script" resPath)
  end.
Definition storeExternalScript (resPath script : string) (c : ScriptTables)
    : ScriptTables :=
  mkScriptTables (scriptCache c) (<[resPath := script]> (externalScriptCache c)).

Definition clearScripts (c : ScriptTables) : ScriptTables := mkScriptTables ∅ ∅.

(** The whole state of a pipeline: the state of the functions above, the
    two tables of scripts, and a record, oldest first, of the resources
    that the script functions asked the backend for; the pipeline never
    reads the record. *)
Record Full := mkFull {
    core : State (Backend := Backend) (EvalContent := EvalContent)
                 (EvalContext := EvalContext);
    scripts : ScriptTables;
    fetched : list (ResourceType * string)
  }.

(** The functions above, on the whole state. *)
Definition on_core {R : Type} (f : State → R * State) (s : Full) : R * Full :=
  let '(r, c) := f (core s) in (r, mkFull c (scripts s) (fetched s)).

(** [getOrParseScript]. *)
Definition getOrParseScript (script : string) (s : Full)
    : result PipelineError EvalContent * Full :=
  if hasScript script (scripts s) then
    (getScript script (scripts s), s)
  else
    let scriptFunc := parseScript script in
    (Return scriptFunc,
     mkFull (core s) (storeScript script scriptFunc (scripts s)) (fetched s)).

(** [compileScript]. *)
Definition compileScript (script : string) (evalContext : EvalContext) (s : Full)
    : result PipelineError JsValue * Full :=
  let scriptText := trim script in
  match getOrParseScript scriptText s with
  | (Return scriptFunc, s1) =>
      let c := core s1 in
      let c1 :=
        mkState (cache c) (store c) (backend c) (created c)
                (invoked c ++ [(scriptFunc, evalContext)]) in
      let s2 := mkFull c1 (scripts s1) (fetched s1) in
      match invoke scriptFunc evalContext with
      | Return v => (Return v, s2)
      | Raise e => (Raise (EvaluationError e), s2)
      end
  | (Raise e, s1) => (Raise e, s1)
  end.

(** [getOrParseExternalScript]. *)
Definition getOrParseExternalScript (resPath : string) (s : Full)
    : result PipelineError string * Full :=
  if hasExternalScript resPath (scripts s) then
    (getExternalScript resPath (scripts s), s)
  else
    let s1 := mkFull (core s) (scripts s) (fetched s ++ [(JAVASCRIPT, resPath)]) in
    match getResource pipelineInterface JAVASCRIPT resPath (backend (core s1)) with
    | (Return scriptResource, b) =>
        let script := trim scriptResource in
        (Return script,
         mkFull (with_backend b (core s1))
                (storeExternalScript resPath script (scripts s1)) (fetched s1))
    | (Raise e, b) =>
        (Raise (ResourceError e), mkFull (with_backend b (core s1)) (scripts s1) (fetched s1))
    end.

(** [compileExternalScript]. *)
Definition compileExternalScript (resPath : string) (evalContext : EvalContext) (s : Full)
    : result PipelineError JsValue * Full :=
  match getOrParseExternalScript resPath s with
  | (Return script, s1) => compileScript script evalContext s1
  | (Raise e, s1) => (Raise e, s1)
  end.

(** [compileCss]. *)
Definition compileCss (css : string) : string := css.

(** [reset]: [this.cache.clear()].  [clear] of PipelineCache (under
    src/) clears each table of the cache, the fragment table among
    them; the tables modelled from the spec are emptied with it. *)
Definition reset (s : Full) : Full :=
  mkFull (with_cache newCache (core s)) (clearScripts (scripts s)) (fetched s).

(** A call has failed with a cache miss: a getter of the cache was
    asked for an entry that the cache does not have. *)
Definition isCacheMiss {R : Type}
    (r : result (PipelineError (EvalError := EvalError) (InterfaceError := InterfaceError)) R)
    : Prop :=
  ∃ table key, r = Raise (CacheMissError table key).

(** The unit [getOrParseScript] hands out for a text in a state: the
    cached unit if the table has one, else the newly parsed one. *)
Definition scriptFor (script : string) (s : Full) : EvalContent :=
  default (parseScript script) (scriptCache (scripts s) !! script).
End Scripts.
End Scripts.

(** ** Concrete trees *)

Module Examples.
Import Dom.

(** A lone text node. *)
Definition lone_text : Heap := {[ 1 := newNode (KText "hello") ]}.

(** Two text nodes that are in no tree. *)
Definition two_texts : Heap :=
  <[ 1 := newNode (KText "a") ]> (<[ 2 := newNode (KText "b") ]> ∅).

(** The tree of
<<
    <div>a b</div><span>c</span>
>>
    under a document node, the two words of the div being two text
    nodes:
<<
    0 Document
    +- 1 div
    |  +- 3 "a"
    |  +- 4 "b"
    +- 2 span
       +- 5 "c"
>> *)
Definition page : Heap :=
  list_to_map
    [ (0, mkNode KDocument None None None [1; 2]);
      (1, mkNode (KTag "div" [("class", Some "x")]) (Some 0) None (Some 2) [3; 4]);
      (2, mkNode (KTag "span" []) (Some 0) (Some 1) None [5]);
      (3, mkNode (KText "a") (Some 1) None (Some 4) []);
      (4, mkNode (KText "b") (Some 1) (Some 3) None []);
      (5, mkNode (KText "c") (Some 2) None None []) ].

Definition page_store : Store := mkStore page 6.

Definition page_tree : Tree :=
  TNode 0 KDocument
    [ TNode 1 (KTag "div" [("class", Some "x")])
        [ TNode 3 (KText "a") []; TNode 4 (KText "b") [] ];
      TNode 2 (KTag "span" []) [ TNode 5 (KText "c") [] ] ].

(** A parser that makes of any text a document with one text node.  Its
    fragments are [{ path, dom }]: they have no [resId]. *)
Definition parse_as_text (resPath html : string) (st : Store) : Pipeline.Fragment * Store :=
  let '(document, st1) := alloc KDocument st in
  let '(text, st2) := alloc (KText html) st1 in
  (Pipeline.mkFragment None resPath document, on_heap (appendChild document text) st2).

(** The same parser, with fragments that have the path as their
    [resId]. *)
Definition parse_with_resId (resPath html : string) (st : Store)
    : Pipeline.Fragment * Store :=
  let '(document, st1) := alloc KDocument st in
  let '(text, st2) := alloc (KText html) st1 in
  (Pipeline.mkFragment (Some resPath) resPath document,
   on_heap (appendChild document text) st2).

(** A backend that keeps its resources in a map from path to text and
    names a created resource after its source; it has no
    reLinkCreatedResource. *)
Definition memory : Pipeline.PipelineInterface (Backend := gmap string string)
                                               (InterfaceError := string) :=
  Pipeline.mkInterface
    (λ _ resPath b,
       (match b !! resPath with Some text => Return text | None => Raise resPath end, b))
    (λ _ contents sourceResPath b,
       let resPath := "created/" +:+ sourceResPath in (resPath, <[resPath := contents]> b))
    None.

(** An evaluator whose expressions are the names that start with a
    dollar sign, a compiled unit being the name and a context a map from
    names to values. *)
Definition dollar (value : string) : bool := String.prefix "$" value.

Definition lookup_name (name : string) (scope : gmap string string) : result string string :=
  match scope !! name with
  | Some v => Return v
  | None => Raise name
  end.

(** The state of a pipeline that has just been constructed over an empty
    backend and an empty heap. *)
Definition fresh_pipeline : Pipeline.State (Backend := gmap string string)
                                           (EvalContent := string)
                                           (EvalContext := gmap string string) :=
  Pipeline.newState (mkStore ∅ 0) ∅.


(** A pipeline whose cache has the example page as the fragment
    "page.html". *)
Definition page_pipeline : Pipeline.State (Backend := gmap string string)
                                          (EvalContent := string)
                                          (EvalContext := gmap string string) :=
  Pipeline.mkState
    (Pipeline.storeFragment (Pipeline.mkFragment (Some "page.html") "page.html" 0)
       Pipeline.newCache)
    page_store ∅ [] [].

(** The store after the example page was cloned once, and the tree of
    the clone:
<<
    6 Document
    +- 7 div
    |  +- 8 "a"
    |  +- 9 "b"
    +- 10 span
       +- 11 "c"
>> *)
Definition page_cloned : Store :=
  match Node_clone 3 0 true None page_store with
  | Some (_, st) => st
  | None => page_store
  end.

(** A backend whose state is the list of the calls of createResource it
    has served, oldest first; it has no resources to read and no
    reLinkCreatedResource. *)
Definition recorder
    : Pipeline.PipelineInterface (Backend := list (Pipeline.ResourceType * string * string))
                                 (InterfaceError := string) :=
  Pipeline.mkInterface
    (λ _ resPath b, (Raise resPath, b))
    (λ type contents sourceResPath b,
       ("created/" +:+ sourceResPath, b ++ [(type, contents, sourceResPath)]))
    None.

(** A pipeline that has just been constructed over that backend, which
    has served no call. *)
Definition fresh_recorder
    : Pipeline.State (Backend := list (Pipeline.ResourceType * string * string))
                     (EvalContent := string)
                     (EvalContext := gmap string string) :=
  Pipeline.newState (mkStore ∅ 0) [].

(** The class test that takes the plain tags for the tag nodes. *)
Definition plain_tag (k : NodeKind) : bool :=
  match k with KTag _ _ => true | _ => false end.

(** The nodes with the tag name [name]. *)
Definition named (h : Heap) (name : string) (node : nid) : bool :=
  match nodeKind h node with
  | KTag tagName _ => bool_decide (tagName = name)
  | _ => false
  end.

(** The tree of
<<
    <ul><li>x</li><li><ul><li></li></ul></li></ul>
>>
    under a document node:
<<
    0 Document
    +- 1 ul
       +- 2 li
       |  +- 4 "x"
       +- 3 li
          +- 5 ul
             +- 6 li
>> *)
Definition menu : Heap :=
  list_to_map
    [ (0, mkNode KDocument None None None [1]);
      (1, mkNode (KTag "ul" []) (Some 0) None None [2; 3]);
      (2, mkNode (KTag "li" []) (Some 1) None (Some 3) [4]);
      (3, mkNode (KTag "li" []) (Some 1) (Some 2) None [5]);
      (4, mkNode (KText "x") (Some 2) None None []);
      (5, mkNode (KTag "ul" []) (Some 3) None None [6]);
      (6, mkNode (KTag "li" []) (Some 5) None None []) ].

Definition menu_tree : Tree :=
  TNode 0 KDocument
    [ TNode 1 (KTag "ul" [])
        [ TNode 2 (KTag "li" []) [ TNode 4 (KText "x") [] ];
          TNode 3 (KTag "li" [])
            [ TNode 5 (KTag "ul" []) [ TNode 6 (KTag "li" []) [] ] ] ] ].

(** A trim that removes the spaces a text starts with. *)
Fixpoint trim_start (s : string) : string :=
  match s with
  | String a s' => if Ascii.eqb a Ascii.Space then trim_start s' else s
  | EmptyString => s
  end.

(** The backend [memory] with a reLinkCreatedResource that names the
    resource after the original path and the new source. *)
Definition relinking : Pipeline.PipelineInterface (Backend := gmap string string)
                                                  (InterfaceError := string) :=
  Pipeline.mkInterface (Pipeline.getResource memory) (Pipeline.createResource memory)
    (Some (λ _ _ sourceResPath originalResPath b,
             (originalResPath +:+ "#" +:+ sourceResPath, b))).

(** A pipeline that has just been constructed over a backend that has
    the script "x.js". *)
Definition script_pipeline : Scripts.Full (Backend := gmap string string)
                                          (EvalContent := string)
                                          (EvalContext := gmap string string) :=
  Scripts.mkFull (Pipeline.newState (mkStore ∅ 0) {[ "x.js" := "  $x" ]})
    (Scripts.mkScriptTables ∅ ∅) [].

End Examples.

(** * Properties *)

(** ** Reading a field after a write *)

Section HeapFacts.
Import Dom.
Implicit Types (h : Heap) (n m p : nid).

Lemma update_lookup f n m h :
  update f n h !!! m = if decide (n = m) then f (h !!! n) else h !!! m.
Proof. unfold update. apply lookup_total_insert. Qed.

Lemma update_same_fields f n h :
  is_Some (h !! n) → f (h !!! n) = h !!! n → update f n h = h.
Proof.
  intros [x Hx] Hf. unfold update. rewrite Hf. apply insert_id.
  by rewrite (lookup_total_correct _ _ _ Hx).
Qed.

Lemma update_allocated f n m h : is_Some (h !! m) → is_Some (update f n h !! m).
Proof.
  intros Hm. unfold update. destruct (decide (n = m)) as [->|Hne].
  - rewrite lookup_insert_eq. eauto.
  - by rewrite lookup_insert_ne.
Qed.

Lemma update_allocated_self f n h : is_Some (update f n h !! n).
Proof. unfold update. rewrite lookup_insert_eq. eauto. Qed.

Lemma update_other f n m h : n ≠ m → update f n h !! m = h !! m.
Proof. intros. unfold update. by rewrite lookup_insert_ne. Qed.
End HeapFacts.

(** [fields] rewrites every read of a field across the writes below it. *)
Ltac fields :=
  unfold Dom.parentNode, Dom.prevSibling, Dom.nextSibling, Dom.childNodes,
    Dom.nodeKind, Dom.isDocumentNode, Dom.isNodeWithChildren,
    Dom.set_parentNode, Dom.set_prevSibling, Dom.set_nextSibling,
    Dom.set_childNodes in *;
  repeat (rewrite update_lookup in * );
  repeat (case_decide; simplify_eq/=); try done.

Section FieldFacts.
Import Dom.
Implicit Types (h : Heap) (n m p : nid).

Lemma parentNode_set_parentNode n v m h :
  parentNode (set_parentNode n v h) m = if decide (n = m) then v else parentNode h m.
Proof. fields. Qed.
Lemma parentNode_set_prevSibling n v m h :
  parentNode (set_prevSibling n v h) m = parentNode h m.
Proof. fields. Qed.
Lemma parentNode_set_nextSibling n v m h :
  parentNode (set_nextSibling n v h) m = parentNode h m.
Proof. fields. Qed.
Lemma parentNode_set_childNodes n v m h :
  parentNode (set_childNodes n v h) m = parentNode h m.
Proof. fields. Qed.

Lemma prevSibling_set_prevSibling n v m h :
  prevSibling (set_prevSibling n v h) m = if decide (n = m) then v else prevSibling h m.
Proof. fields. Qed.
Lemma prevSibling_set_parentNode n v m h :
  prevSibling (set_parentNode n v h) m = prevSibling h m.
Proof. fields. Qed.
Lemma prevSibling_set_nextSibling n v m h :
  prevSibling (set_nextSibling n v h) m = prevSibling h m.
Proof. fields. Qed.
Lemma prevSibling_set_childNodes n v m h :
  prevSibling (set_childNodes n v h) m = prevSibling h m.
Proof. fields. Qed.

Lemma nextSibling_set_nextSibling n v m h :
  nextSibling (set_nextSibling n v h) m = if decide (n = m) then v else nextSibling h m.
Proof. fields. Qed.
Lemma nextSibling_set_parentNode n v m h :
  nextSibling (set_parentNode n v h) m = nextSibling h m.
Proof. fields. Qed.
Lemma nextSibling_set_prevSibling n v m h :
  nextSibling (set_prevSibling n v h) m = nextSibling h m.
Proof. fields. Qed.
Lemma nextSibling_set_childNodes n v m h :
  nextSibling (set_childNodes n v h) m = nextSibling h m.
Proof. fields. Qed.

Lemma childNodes_set_childNodes n v m h :
  childNodes (set_childNodes n v h) m = if decide (n = m) then v else childNodes h m.
Proof. fields. Qed.
Lemma childNodes_set_parentNode n v m h :
  childNodes (set_parentNode n v h) m = childNodes h m.
Proof. fields. Qed.
Lemma childNodes_set_prevSibling n v m h :
  childNodes (set_prevSibling n v h) m = childNodes h m.
Proof. fields. Qed.
Lemma childNodes_set_nextSibling n v m h :
  childNodes (set_nextSibling n v h) m = childNodes h m.
Proof. fields. Qed.

Lemma nodeKind_update f n m h :
  (∀ nd, nd_kind (f nd) = nd_kind nd) → nodeKind (update f n h) m = nodeKind h m.
Proof. intros Hf. unfold nodeKind. rewrite update_lookup. case_decide; by simplify_eq. Qed.
End FieldFacts.

Create Rewrite HintDb fields.
#[global] Hint Rewrite
  parentNode_set_parentNode parentNode_set_prevSibling
  parentNode_set_nextSibling parentNode_set_childNodes
  prevSibling_set_prevSibling prevSibling_set_parentNode
  prevSibling_set_nextSibling prevSibling_set_childNodes
  nextSibling_set_nextSibling nextSibling_set_parentNode
  nextSibling_set_prevSibling nextSibling_set_childNodes
  childNodes_set_childNodes childNodes_set_parentNode
  childNodes_set_prevSibling childNodes_set_nextSibling
  : fields.

(** ** What detatchNode does to each field *)

Section DetatchFacts.
Import Dom.
Implicit Types (h : Heap) (n m p node : nid).

Lemma detatchNode_parentNode node m h :
  parentNode (detatchNode node h) m = if decide (m = node) then None else parentNode h m.
Proof.
  unfold detatchNode.
  destruct (parentNode h node) as [p|] eqn:Hp; cbn zeta;
    repeat match goal with
           | |- context [match ?x with Some _ => _ | None => _ end] => destruct x eqn:?
           end;
    autorewrite with fields; repeat case_decide; simplify_eq; done.
Qed.

Lemma detatchNode_childNodes node p h :
  childNodes (detatchNode node h) p =
    if decide (parentNode h node = Some p)
    then filter (λ c, c ≠ node) (childNodes h p)
    else childNodes h p.
Proof.
  unfold detatchNode.
  destruct (parentNode h node) as [q|] eqn:Hp; cbn zeta;
    repeat match goal with
           | |- context [match ?x with Some _ => _ | None => _ end] => destruct x eqn:?
           end;
    autorewrite with fields; repeat case_decide; simplify_eq; done.
Qed.

Lemma detatchNode_prevSibling node m h :
  prevSibling (detatchNode node h) m =
    if decide (m = node) then None
    else if decide (nextSibling h node = Some m) then prevSibling h node
    else prevSibling h m.
Proof.
  unfold detatchNode.
  destruct (parentNode h node) as [q|] eqn:Hp; cbn zeta;
    repeat match goal with
           | |- context [match ?x with Some _ => _ | None => _ end] => destruct x eqn:?
           end;
    autorewrite with fields in *; repeat case_decide; simplify_eq; try done.
Qed.

Lemma detatchNode_nextSibling node m h :
  nextSibling (detatchNode node h) m =
    if decide (m = node) then None
    else if decide (prevSibling h node = Some m) then nextSibling h node
    else nextSibling h m.
Proof.
  unfold detatchNode.
  destruct (parentNode h node) as [q|] eqn:Hp; cbn zeta;
    repeat match goal with
           | |- context [match ?x with Some _ => _ | None => _ end] => destruct x eqn:?
           end;
    autorewrite with fields in *; repeat case_decide; simplify_eq; try done.
Qed.
End DetatchFacts.

(** ** detatchNode is idempotent *)

Section DetatchIdempotent.
Import Dom Examples.
Implicit Types (h : Heap) (node : nid).

Lemma detatchNode_allocated node h : is_Some (detatchNode node h !! node).
Proof. unfold detatchNode. cbn zeta. apply update_allocated_self. Qed.

Lemma detatchNode_unlinked node h :
  is_Some (h !! node) →
  parentNode h node = None → prevSibling h node = None → nextSibling h node = None →
  detatchNode node h = h.
Proof.
  intros Halloc Hp Hv Hx. unfold detatchNode. rewrite Hp. cbn zeta.
  rewrite Hv, Hx.
  assert (Hprev : set_prevSibling node None h = h).
  { apply update_same_fields; [done|].
    unfold prevSibling in Hv. destruct (h !!! node); simpl in *; by subst. }
  rewrite Hprev.
  assert (Hnext : set_nextSibling node None h = h).
  { apply update_same_fields; [done|].
    unfold nextSibling in Hx. destruct (h !!! node); simpl in *; by subst. }
  rewrite Hnext.
  apply update_same_fields; [done|].
  unfold parentNode in Hp. destruct (h !!! node); simpl in *; by subst.
Qed.

(** C5.  Detaching a node twice in succession leaves the heap that
    detaching it once leaves, and detaching a node of the heap that has
    no parent, no previous and no next sibling leaves the heap as it
    is. *)
Theorem detatchNode_idempotent node h :
  detatchNode node (detatchNode node h) = detatchNode node h ∧
  (is_Some (h !! node) →
   parentNode h node = None → prevSibling h node = None → nextSibling h node = None →
   detatchNode node h = h).
Proof.
  split; [|apply detatchNode_unlinked].
  apply detatchNode_unlinked.
  - apply detatchNode_allocated.
  - rewrite detatchNode_parentNode. by case_decide.
  - rewrite detatchNode_prevSibling. by case_decide.
  - rewrite detatchNode_nextSibling. by case_decide.
Qed.

Lemma detatchNode_idempotent_witness : detatchNode 1 lone_text = lone_text.
Proof.
  apply (proj2 (detatchNode_idempotent 1 lone_text)).
  - exists (newNode (KText "hello")). reflexivity.
  - reflexivity.
  - reflexivity.
  - reflexivity.
Defined.
End DetatchIdempotent.

(** ** When the sibling functions throw *)

Section SiblingThrows.
Import Dom.

(** C6.  appendSibling and prependSibling throw exactly when the
    existing node (the anchor) is a DocumentNode, whatever the inserted
    node and the heap are; the heap at the throw is the heap of the
    call. *)
Theorem sibling_throws_iff_document (node anchor : nid) (h : Heap) :
  throws (appendSibling node anchor h) = isDocumentNode h anchor ∧
  throws (prependSibling node anchor h) = isDocumentNode h anchor ∧
  (if isDocumentNode h anchor
   then appendSibling node anchor h = Throw (AppendAfterDocument node) h ∧
        prependSibling node anchor h = Throw (PrependBeforeDocument node) h
   else appendSibling node anchor h = Ok (heap_of (appendSibling node anchor h)) ∧
        prependSibling node anchor h = Ok (heap_of (prependSibling node anchor h))).
Proof.
  unfold appendSibling, prependSibling.
  destruct (isDocumentNode h anchor); cbn [throws heap_of]; repeat split; reflexivity.
Qed.
End SiblingThrows.

(** ** What appendChild and prependChild do to each field *)

Section ChildInsertFacts.
Import Dom.
Implicit Types (h : Heap) (n m p c parent child : nid) (l : list nid).

Lemma getLastNode_last l : getLastNode l = last l.
Proof.
  unfold getLastNode. rewrite last_lookup. destruct l as [|x l]; [done|].
  simpl length. case_decide; [|lia]. f_equal. lia.
Qed.

Lemma getFirstNode_head l : getFirstNode l = head l.
Proof.
  unfold getFirstNode. destruct l as [|x l]; [done|].
  simpl length. case_decide; [done|lia].
Qed.

Lemma appendChild_parentNode parent child m h :
  parentNode (appendChild parent child h) m =
    if decide (m = child) then Some parent else parentNode h m.
Proof.
  unfold appendChild. cbn zeta.
  destruct (lastChild (detatchNode child h) parent) eqn:?;
    autorewrite with fields; rewrite detatchNode_parentNode;
    repeat case_decide; simplify_eq; done.
Qed.

Lemma appendChild_childNodes parent child p h :
  childNodes (appendChild parent child h) p =
    if decide (p = parent) then childNodes (detatchNode child h) p ++ [child]
    else childNodes (detatchNode child h) p.
Proof.
  unfold appendChild. cbn zeta.
  destruct (lastChild (detatchNode child h) parent) eqn:?;
    autorewrite with fields; repeat case_decide; simplify_eq; done.
Qed.

Lemma appendChild_nextSibling parent child m h :
  nextSibling (appendChild parent child h) m =
    if decide (last (childNodes (detatchNode child h) parent) = Some m) then Some child
    else nextSibling (detatchNode child h) m.
Proof.
  unfold appendChild, lastChild. cbn zeta. rewrite getLastNode_last.
  destruct (last (childNodes (detatchNode child h) parent)) eqn:?;
    autorewrite with fields; repeat case_decide; simplify_eq; done.
Qed.

Lemma appendChild_prevSibling parent child m h :
  prevSibling (appendChild parent child h) m =
    if decide (m = child) then last (childNodes (detatchNode child h) parent)
    else prevSibling (detatchNode child h) m.
Proof.
  unfold appendChild, lastChild. cbn zeta. rewrite getLastNode_last.
  destruct (last (childNodes (detatchNode child h) parent)) eqn:Hl;
    autorewrite with fields; rewrite ?getLastNode_last, ?Hl;
    repeat case_decide; simplify_eq; try done.
  rewrite detatchNode_prevSibling. by case_decide.
Qed.

Lemma prependChild_parentNode parent child m h :
  parentNode (prependChild parent child h) m =
    if decide (m = child) then Some parent else parentNode h m.
Proof.
  unfold prependChild. cbn zeta.
  destruct (firstChild (detatchNode child h) parent) eqn:?;
    autorewrite with fields; rewrite detatchNode_parentNode;
    repeat case_decide; simplify_eq; done.
Qed.

Lemma prependChild_childNodes parent child p h :
  childNodes (prependChild parent child h) p =
    if decide (p = parent) then child :: childNodes (detatchNode child h) p
    else childNodes (detatchNode child h) p.
Proof.
  unfold prependChild. cbn zeta.
  destruct (firstChild (detatchNode child h) parent) eqn:?;
    autorewrite with fields; repeat case_decide; simplify_eq; done.
Qed.

Lemma prependChild_prevSibling parent child m h :
  prevSibling (prependChild parent child h) m =
    if decide (head (childNodes (detatchNode child h) parent) = Some m) then Some child
    else prevSibling (detatchNode child h) m.
Proof.
  unfold prependChild, firstChild. cbn zeta. rewrite getFirstNode_head.
  destruct (head (childNodes (detatchNode child h) parent)) eqn:?;
    autorewrite with fields; repeat case_decide; simplify_eq; done.
Qed.

Lemma prependChild_nextSibling parent child m h :
  nextSibling (prependChild parent child h) m =
    if decide (m = child) then head (childNodes (detatchNode child h) parent)
    else nextSibling (detatchNode child h) m.
Proof.
  unfold prependChild, firstChild. cbn zeta. rewrite getFirstNode_head.
  destruct (head (childNodes (detatchNode child h) parent)) eqn:Hl;
    autorewrite with fields; rewrite ?getFirstNode_head, ?Hl;
    repeat case_decide; simplify_eq; try done.
  rewrite detatchNode_nextSibling. by case_decide.
Qed.
End ChildInsertFacts.

(** ** appendChild *)

Section AppendChild.
Import Dom Examples.

(** C4.  After [appendChild(A, B)] the parent of [B] is [A], [B] is the
    last entry of the child list of [A], and a former parent of [B]
    other than [A] no longer has [B] in its child list.  (The
    parameter type of [A] is NodeWithChildren; nothing in the
    statement depends on the class of [A].) *)
Theorem appendChild_reparents (A B : nid) (h : Heap) :
  parentNode (appendChild A B h) B = Some A ∧
  last (childNodes (appendChild A B h) A) = Some B ∧
  (∀ P, parentNode h B = Some P → P ≠ A → B ∉ childNodes (appendChild A B h) P).
Proof.
  split; [|split].
  - rewrite appendChild_parentNode. by case_decide.
  - rewrite appendChild_childNodes. case_decide; [|done]. apply last_snoc.
  - intros P HP Hne. rewrite appendChild_childNodes. case_decide; [done|].
    rewrite detatchNode_childNodes. case_decide; [|done].
    rewrite list_elem_of_filter. tauto.
Qed.

Lemma appendChild_reparents_witness :
  parentNode page 5 = Some 2 ∧ 5 ∉ childNodes (appendChild 1 5 page) 2.
Proof.
  split; [reflexivity|].
  apply (proj2 (proj2 (appendChild_reparents 1 5 page)) 2); [reflexivity|lia].
Defined.
End AppendChild.

(** ** The lookup contract of PipelineCache *)

Section CacheContract.
Import PipelineCache.
Context {Page Fragment Component EvalContent : Type}.
Variable Page_resId : Page → string.
Variable Fragment_resId : Fragment → string.
Variable Component_resId : Component → string.

Abbreviation CacheT := (@PipelineCache.t Page Fragment Component EvalContent).
Abbreviation CallT := (@PipelineCache.Call Page Fragment Component EvalContent).
Abbreviation run := (after Page_resId Fragment_resId Component_resId).

Implicit Types (calls : list CallT) (key : string).

Lemma after_snoc calls (op : CallT) :
  run (calls ++ [op]) = call Page_resId Fragment_resId Component_resId (run calls) op.
Proof. unfold after. apply foldl_snoc. Qed.

Lemma pageCache_after calls key :
  pageCache (run calls) !! key = latest (storedPage Page_resId) key (rev calls).
Proof.
  induction calls as [|op calls IH] using rev_ind; [done|].
  rewrite after_snoc, rev_unit. destruct op; simpl; try done.
  case_decide as Hk.
  - subst key. apply lookup_insert_eq.
  - by rewrite lookup_insert_ne.
Qed.

Lemma fragmentCache_after calls key :
  fragmentCache (run calls) !! key = latest (storedFragment Fragment_resId) key (rev calls).
Proof.
  induction calls as [|op calls IH] using rev_ind; [done|].
  rewrite after_snoc, rev_unit. destruct op; simpl; try done.
  case_decide as Hk.
  - subst key. apply lookup_insert_eq.
  - by rewrite lookup_insert_ne.
Qed.

Lemma componentCache_after calls key :
  componentCache (run calls) !! key
  = latest (storedComponent Component_resId) key (rev calls).
Proof.
  induction calls as [|op calls IH] using rev_ind; [done|].
  rewrite after_snoc, rev_unit. destruct op; simpl; try done.
  case_decide as Hk.
  - subst key. apply lookup_insert_eq.
  - by rewrite lookup_insert_ne.
Qed.

Lemma scriptTextCache_after calls key :
  scriptTextCache (run calls) !! key = latest storedScriptText key (rev calls).
Proof.
  induction calls as [|op calls IH] using rev_ind; [done|].
  rewrite after_snoc, rev_unit. destruct op; simpl; try done.
  case_decide as Hk.
  - subst key. apply lookup_insert_eq.
  - by rewrite lookup_insert_ne.
Qed.

(** C7.  In the cache left by any history of store and clear calls, and
    for every key of each of the four tables: when the history stored a
    value under the key after the last clear, [has*] is true and [get*]
    returns the value stored last; otherwise [has*] is false and [get*]
    throws its cache-miss error.  So [get*] throws exactly when the key
    is absent, which is exactly when [has*] is false.  ([has*] is a
    total function to [bool]: it has no throwing path.) *)
Theorem lookup_contract calls key :
  let c := run calls in
  let newestFirst := rev calls in
  follows (hasPage key c) (getPage key c) (PageNotFound key)
          (latest (storedPage Page_resId) key newestFirst) ∧
  follows (hasFragment key c) (getFragment key c) (FragmentNotFound key)
          (latest (storedFragment Fragment_resId) key newestFirst) ∧
  follows (hasComponent key c) (getComponent key c) (ComponentNotFound key)
          (latest (storedComponent Component_resId) key newestFirst) ∧
  follows (hasScriptText key c) (getScriptText key c) (ScriptTextNotFound key)
          (latest storedScriptText key newestFirst).
Proof.
  intros c newestFirst. subst c newestFirst.
  unfold hasPage, getPage, hasFragment, getFragment, hasComponent, getComponent,
    hasScriptText, getScriptText.
  rewrite pageCache_after, fragmentCache_after, componentCache_after,
    scriptTextCache_after.
  repeat split.
  all: match goal with |- follows _ _ _ ?o => destruct o eqn:? end; simpl; split;
    try done.
  all: try (apply bool_decide_eq_true; eauto).
  all: apply bool_decide_eq_false; by intros [? ?].
Qed.
End CacheContract.

(** ** linkResource *)

Section LinkResource.
Import Pipeline.
Context {Backend EvalContent EvalContext EvalError InterfaceError : Type}.
Variable pipelineInterface : @PipelineInterface Backend InterfaceError.
Variable md5_base64 : string → string.

Abbreviation StateT := (@State Backend EvalContent EvalContext).
Abbreviation ErrorT := (@PipelineError EvalError InterfaceError).

Implicit Types (s : StateT) (type : ResourceType) (contents sourceResPath : string).

Lemma link_miss type contents sourceResPath s :
  createdResourceCache (cache s) !! md5_base64 contents = None →
  (linkResource (EvalError := EvalError) pipelineInterface md5_base64
      type contents sourceResPath s).1 = Return (assigned pipelineInterface type contents sourceResPath s) ∧
  created (linkResource (EvalError := EvalError) pipelineInterface md5_base64
      type contents sourceResPath s).2
    = created s ++ [(type, contents, sourceResPath)] ∧
  createdResourceCache (cache (linkResource (EvalError := EvalError) pipelineInterface md5_base64
      type contents sourceResPath s).2)
    = <[md5_base64 contents := assigned pipelineInterface type contents sourceResPath s]>
        (createdResourceCache (cache s)).
Proof.
  intros Hmiss. unfold linkResource, fastHashContent, hasCreatedResource, assigned.
  rewrite Hmiss. rewrite bool_decide_eq_false_2 by (by intros [? ?]).
  destruct (createResource _ _ _ _ _) as [resPath b]. done.
Qed.

Lemma link_hit type contents sourceResPath s resPath :
  reLinkCreatedResource pipelineInterface = None →
  createdResourceCache (cache s) !! md5_base64 contents = Some resPath →
  linkResource (EvalError := EvalError) pipelineInterface md5_base64
      type contents sourceResPath s = (Return resPath, s).
Proof.
  intros Hno Hhit.
  unfold linkResource, fastHashContent, hasCreatedResource, getCreatedResource.
  rewrite Hhit, Hno. by rewrite bool_decide_eq_true_2 by eauto.
Qed.

(** After a call the table has the returned path under the hash of the
    contents. *)
Lemma link_records type contents sourceResPath s :
  reLinkCreatedResource pipelineInterface = None →
  ∃ resPath,
    (linkResource (EvalError := EvalError) pipelineInterface md5_base64
       type contents sourceResPath s).1 = Return resPath ∧
    createdResourceCache
      (cache (linkResource (EvalError := EvalError) pipelineInterface md5_base64
                type contents sourceResPath s).2) !! md5_base64 contents
    = Some resPath.
Proof.
  intros Hno.
  destruct (createdResourceCache (cache s) !! md5_base64 contents) as [p|] eqn:Hc.
  - exists p. by rewrite (link_hit _ _ _ _ p Hno Hc).
  - destruct (link_miss type contents sourceResPath s Hc) as (Hr & _ & Ht).
    eexists. split; [exact Hr|]. rewrite Ht. apply lookup_insert_eq.
Qed.

(** The state a call leaves when the contents have not been linked. *)
Lemma link_miss_state type contents sourceResPath s :
  createdResourceCache (cache s) !! md5_base64 contents = None →
  backend (linkResource (EvalError := EvalError) pipelineInterface md5_base64
             type contents sourceResPath s).2
    = (createResource pipelineInterface type contents sourceResPath (backend s)).2 ∧
  store (linkResource (EvalError := EvalError) pipelineInterface md5_base64
           type contents sourceResPath s).2 = store s ∧
  invoked (linkResource (EvalError := EvalError) pipelineInterface md5_base64
             type contents sourceResPath s).2 = invoked s.
Proof.
  intros Hmiss. unfold linkResource, fastHashContent, hasCreatedResource.
  rewrite Hmiss. rewrite bool_decide_eq_false_2 by (by intros [? ?]).
  destruct (createResource _ _ _ _ _) as [resPath b]. done.
Qed.

(** C8.  With a backend that has no reLinkCreatedResource: a second call
    with the contents of a first call returns the path the first call
    returned and does not call createResource: it leaves the state of
    the pipeline, the state of the backend included, as the first call
    left it.  When the contents have not been linked before, the first
    call calls createResource once and returns the path the backend
    assigned: the backend is in the state that one call of
    createResource with the arguments of the first call leaves it in,
    after the first call and after the second, so that the two calls
    together call it exactly once.  A call with contents of a different
    hash, not linked before either, calls createResource once more, on
    the state the first call left the backend in, and returns the path
    the backend assigned to it (a different path when the backend
    assigns a different one).  The record of the calls of createResource
    says the same. *)
Theorem linkResource_dedup type contents sourceResPath
    type' contents' sourceResPath' s :
  reLinkCreatedResource pipelineInterface = None →
  let first := linkResource (EvalError := EvalError) pipelineInterface md5_base64
      type contents sourceResPath s in
  let again := linkResource (EvalError := EvalError) pipelineInterface md5_base64
      type contents sourceResPath first.2 in
  let other := linkResource (EvalError := EvalError) pipelineInterface md5_base64
      type' contents' sourceResPath' first.2 in
  let once := createResource pipelineInterface type contents sourceResPath (backend s) in
  (again.1 = first.1 ∧ again.2 = first.2 ∧ created again.2 = created first.2) ∧
  (createdResourceCache (cache s) !! md5_base64 contents = None →
   first.1 = Return once.1 ∧
   first.1 = Return (assigned pipelineInterface type contents sourceResPath s) ∧
   backend first.2 = once.2 ∧
   backend again.2 = once.2 ∧
   created first.2 = created s ++ [(type, contents, sourceResPath)] ∧
   created again.2 = created s ++ [(type, contents, sourceResPath)]) ∧
  (createdResourceCache (cache s) !! md5_base64 contents = None →
   createdResourceCache (cache s) !! md5_base64 contents' = None →
   md5_base64 contents' ≠ md5_base64 contents →
   other.1 = Return (createResource pipelineInterface type' contents' sourceResPath' once.2).1 ∧
   other.1 = Return (assigned pipelineInterface type' contents' sourceResPath' first.2) ∧
   backend other.2
     = (createResource pipelineInterface type' contents' sourceResPath' once.2).2 ∧
   created other.2
     = created s ++ [(type, contents, sourceResPath); (type', contents', sourceResPath')]).
Proof.
  intros Hno first again other once.
  destruct (link_records type contents sourceResPath s Hno) as (resPath & Hfirst & Htable).
  fold first in Hfirst, Htable.
  assert (Hagain : again = (Return resPath, first.2)).
  { subst again. by apply link_hit. }
  split; [|split].
  - rewrite Hagain. cbn [fst snd]. by rewrite Hfirst.
  - intros Hmiss.
    destruct (link_miss type contents sourceResPath s Hmiss) as (Hr & Hc & _).
    destruct (link_miss_state type contents sourceResPath s Hmiss) as (Hb & _).
    fold first in Hr, Hc, Hb. fold once in Hb. rewrite Hagain. cbn [snd].
    by rewrite Hr, Hb, Hc.
  - intros Hmiss Hmiss' Hne.
    destruct (link_miss type contents sourceResPath s Hmiss) as (_ & Hc & Ht).
    destruct (link_miss_state type contents sourceResPath s Hmiss) as (Hb & _).
    fold first in Hc, Ht, Hb. fold once in Hb.
    assert (Hmiss2 : createdResourceCache (cache first.2) !! md5_base64 contents' = None).
    { rewrite Ht. by rewrite lookup_insert_ne. }
    destruct (link_miss type' contents' sourceResPath' first.2 Hmiss2) as (Hr' & Hc' & _).
    destruct (link_miss_state type' contents' sourceResPath' first.2 Hmiss2) as (Hb' & _).
    fold other in Hr', Hc', Hb'. rewrite Hb in Hb'.
    rewrite Hr', Hc', Hc, Hb'. unfold assigned. rewrite Hb. by rewrite <- app_assoc.
Qed.

(** C10.  The table of created resources is keyed by the hash of the
    contents alone.  With a backend that has no reLinkCreatedResource,
    a call whose contents have the hash of the contents of an earlier
    call returns the path of the earlier call and does not call
    createResource (the state is the state the earlier call left),
    whatever its resource type and source path are; the earlier call
    left the table with that path under that hash. *)
Theorem linkResource_keyed_by_hash type contents sourceResPath
    type' contents' sourceResPath' s :
  reLinkCreatedResource pipelineInterface = None →
  md5_base64 contents' = md5_base64 contents →
  let first := linkResource (EvalError := EvalError) pipelineInterface md5_base64
      type contents sourceResPath s in
  let second := linkResource (EvalError := EvalError) pipelineInterface md5_base64
      type' contents' sourceResPath' first.2 in
  (∃ resPath, first.1 = Return resPath ∧
     createdResourceCache (cache first.2) !! md5_base64 contents = Some resPath) ∧
  second.1 = first.1 ∧
  second.2 = first.2 ∧
  created second.2 = created first.2.
Proof.
  intros Hno Hhash first second.
  destruct (link_records type contents sourceResPath s Hno) as (resPath & Hr & Ht).
  fold first in Hr, Ht.
  split; [eauto|].
  subst second. rewrite (link_hit type' contents' sourceResPath' first.2 resPath Hno).
  - by rewrite Hr.
  - by rewrite Hhash.
Qed.
End LinkResource.

Section LinkResourceWitnesses.
Import Pipeline Examples.

Lemma linkResource_dedup_witness :
  let first := linkResource recorder id CSS "a{}" "x.html" fresh_recorder in
  let again := linkResource (EvalError := unit) recorder id CSS "a{}" "x.html" first.2 in
  let other := linkResource (EvalError := unit) recorder id CSS "b{}" "y.html" first.2 in
  (first.1 = Return "created/x.html" ∧ again.1 = first.1 ∧
   backend first.2 = [(CSS, "a{}", "x.html")] ∧
   backend again.2 = [(CSS, "a{}", "x.html")]) ∧
  (other.1 = Return "created/y.html" ∧
   backend other.2 = [(CSS, "a{}", "x.html"); (CSS, "b{}", "y.html")]).
Proof.
  pose proof (linkResource_dedup (EvalError := unit) recorder id
                CSS "a{}" "x.html" CSS "b{}" "y.html" fresh_recorder
                eq_refl) as (Hsame & Hfirst & Hother).
  destruct (Hfirst eq_refl) as (Hr & _ & Hb & Hb' & _).
  assert (Hne : id "b{}" ≠ id "a{}") by (intros [=]).
  destruct (Hother eq_refl eq_refl Hne) as (Hr' & _ & Hb'' & _).
  split.
  - split; [exact Hr|]. split; [apply Hsame|]. split; [exact Hb|exact Hb'].
  - split; [exact Hr'|exact Hb''].
Defined.

Lemma linkResource_keyed_by_hash_witness :
  let first := linkResource memory id CSS "a{}" "x.html" fresh_pipeline in
  let second := linkResource (EvalError := unit) memory id JAVASCRIPT "a{}" "y.html" first.2 in
  second.1 = first.1 ∧ second.2 = first.2.
Proof.
  destruct (linkResource_keyed_by_hash (EvalError := unit) memory id
              CSS "a{}" "x.html" JAVASCRIPT "a{}" "y.html" fresh_pipeline eq_refl eq_refl)
    as (_ & Hpath & Hstate & _).
  split; [exact Hpath|exact Hstate].
Defined.
End LinkResourceWitnesses.

(** ** compileExpression *)

Section CompileExpression.
Import Pipeline.
Context {Backend EvalContent EvalContext JsValue EvalError InterfaceError : Type}.
Variable trim : string → string.
Variable isExpressionString : string → bool.
Variable parseExpression : string → EvalContent.
Variable invoke : EvalContent → EvalContext → result EvalError JsValue.
Variable ofString : string → JsValue.

Abbreviation StateE := (@State Backend EvalContent EvalContext).
Abbreviation compile :=
  (@compileExpression Backend EvalContent EvalContext JsValue EvalError InterfaceError
     trim isExpressionString parseExpression invoke ofString).

Implicit Types (s : StateE) (value : string) (evalContext : EvalContext).

Lemma compile_expression value evalContext s :
  isExpressionString value = true →
  (compile value evalContext s).1
    = invocation (InterfaceError := InterfaceError) invoke
        (unitFor parseExpression (trim value) s) evalContext ∧
  invoked (compile value evalContext s).2
    = invoked s ++ [(unitFor parseExpression (trim value) s, evalContext)] ∧
  expressionCache (cache (compile value evalContext s).2)
    = <[trim value := unitFor parseExpression (trim value) s]>
        (expressionCache (cache s)).
Proof.
  intros Hexpr. unfold compileExpression, getOrParseExpression, unitFor, invocation,
    hasExpression, getExpression.
  rewrite Hexpr.
  destruct (expressionCache (cache s) !! trim value) as [f|] eqn:Hc.
  - rewrite bool_decide_eq_true_2 by eauto.
    cbn [default from_option id].
    destruct (invoke f evalContext) eqn:Hi; cbn [fst snd invoked cache];
      (split; [done|split; [done|]]); symmetry; by apply insert_id.
  - rewrite bool_decide_eq_false_2 by (by intros [? ?]).
    cbn [default from_option]. destruct (invoke _ evalContext); done.
Qed.

(** C9.  A string that isExpressionString does not classify as an
    expression is returned as it is, and nothing else happens: the
    state, with its record of invocations, is unchanged.  A string
    that is classified as an expression is trimmed, and the result of
    the call is the result of invoking, once and with the given
    context, the compiled unit of the trimmed text: the unit the cache
    holds for that text, or else the unit parseExpression makes of it,
    which is what the cache holds whenever its every entry was made by
    parseExpression from its key. *)
Theorem compileExpression_spec value evalContext s :
  (isExpressionString value = false →
   compile value evalContext s = (Return (ofString value), s)) ∧
  (isExpressionString value = true →
   (compile value evalContext s).1
     = invocation (InterfaceError := InterfaceError) invoke
         (unitFor parseExpression (trim value) s) evalContext ∧
   invoked (compile value evalContext s).2
     = invoked s ++ [(unitFor parseExpression (trim value) s, evalContext)] ∧
   (parsedEntries parseExpression s →
    unitFor parseExpression (trim value) s = parseExpression (trim value) ∧
    parsedEntries parseExpression (compile value evalContext s).2)).
Proof.
  split.
  - intros Hplain. unfold compileExpression. by rewrite Hplain.
  - intros Hexpr.
    destruct (compile_expression value evalContext s Hexpr) as (Hr & Hi & Hc).
    split; [done|]. split; [done|].
    intros Hparsed.
    assert (Hunit : unitFor parseExpression (trim value) s = parseExpression (trim value)).
    { unfold unitFor.
      destruct (expressionCache (cache s) !! trim value) as [f|] eqn:Hf; [|done].
      cbn [default from_option id]. by apply Hparsed. }
    split; [done|].
    intros e f. rewrite Hc, Hunit. rewrite lookup_insert.
    case_decide; [|by apply Hparsed]. intros [= <-]. by subst e.
Qed.
End CompileExpression.

Section CompileExpressionWitness.
Import Pipeline Examples.

Lemma compileExpression_spec_witness :
  let scope : gmap string string := {[ "$x" := "5" ]} in
  compileExpression (InterfaceError := string) id dollar id lookup_name id
    "plain text" scope fresh_pipeline = (Return "plain text", fresh_pipeline) ∧
  (compileExpression (InterfaceError := string) id dollar id lookup_name id
     "$x" scope fresh_pipeline).1 = Return "5".
Proof.
  intros scope. split.
  - apply (proj1 (compileExpression_spec (InterfaceError := string)
                    id dollar id lookup_name id "plain text" scope fresh_pipeline)).
    reflexivity.
  - destruct (proj2 (compileExpression_spec (InterfaceError := string)
                       id dollar id lookup_name id "$x" scope fresh_pipeline) eq_refl)
      as (Hr & _ & Hp).
    assert (Hparsed : parsedEntries id fresh_pipeline).
    { intros e f Hf. cbn in Hf. rewrite lookup_empty in Hf. discriminate Hf. }
    destruct (Hp Hparsed) as [Hunit _].
    rewrite Hr, Hunit. reflexivity.
Defined.
End CompileExpressionWitness.

(** ** Arrays: filter, indexOf and splice *)

Section ArrayFacts.
Import Dom.
Implicit Types (l : list nid) (x n a : nid) (i k s : nat).

Lemma filter_ne_absent l n : n ∉ l → filter (λ c, c ≠ n) l = l.
Proof.
  induction l as [|y l IH]; [done|]. intros Hn.
  apply not_elem_of_cons in Hn as [Hne Hn].
  rewrite filter_cons_True by congruence. by rewrite IH.
Qed.

Lemma filter_ne_delete l k n :
  NoDup l → l !! k = Some n → filter (λ c, c ≠ n) l = delete k l.
Proof.
  intros Hnd Hk.
  assert (Hlen : length (take k l) = k).
  { apply length_take_le. apply lookup_lt_Some in Hk. lia. }
  rewrite <- (take_drop_middle l k n Hk) in Hnd |- *.
  apply NoDup_app in Hnd as (_ & Hl & Hr).
  apply NoDup_cons in Hr as [Hr _].
  rewrite <- Hlen at 3. rewrite delete_middle.
  rewrite filter_app, filter_cons_False by naive_solver.
  rewrite (filter_ne_absent (drop (S k) l)) by done.
  rewrite (filter_ne_absent (take k l)); [done|].
  intros Hin. apply (Hl n Hin). by left.
Qed.

(** Reading the array after the entry at [k] is filtered out. *)
Lemma lookup_filter_ne l k n i :
  NoDup l → l !! k = Some n →
  filter (λ c, c ≠ n) l !! i = if decide (i < k) then l !! i else l !! S i.
Proof.
  intros Hnd Hk. rewrite (filter_ne_delete l k n Hnd Hk).
  case_decide.
  - by apply list_lookup_delete_lt.
  - apply list_lookup_delete_ge. lia.
Qed.

Lemma indexOf_absent l a : a ∉ l → indexOf l a = (-1)%Z.
Proof.
  induction l as [|y l IH]; [done|]. intros Hn.
  apply not_elem_of_cons in Hn as [Hne Hn]. simpl.
  rewrite decide_False by congruence. rewrite IH by done. by rewrite decide_True by lia.
Qed.

Lemma indexOf_nonneg l a : (-1 ≤ indexOf l a)%Z.
Proof.
  induction l as [|y l IH]; simpl; [lia|].
  repeat case_decide; lia.
Qed.

Lemma indexOf_lookup l k a :
  NoDup l → l !! k = Some a → indexOf l a = Z.of_nat k.
Proof.
  revert k. induction l as [|y l IH]; intros k Hnd Hk; [done|].
  apply NoDup_cons in Hnd as [Hy Hnd]. simpl. destruct k as [|k]; simpl in Hk.
  - simplify_eq. by rewrite decide_True.
  - rewrite decide_False.
    + rewrite (IH k Hnd Hk). rewrite decide_False by lia. lia.
    + intros ->. apply Hy. by eapply list_elem_of_lookup_2.
Qed.

Lemma splice_insert_nat s x l :
  s ≤ length l → splice_insert (Z.of_nat s) x l = take s l ++ x :: drop s l.
Proof.
  intros Hs. unfold splice_insert. rewrite decide_False by lia.
  rewrite Z.min_l by lia. by rewrite Nat2Z.id.
Qed.

Lemma splice_insert_perm start x l : splice_insert start x l ≡ₚ x :: l.
Proof.
  unfold splice_insert. rewrite <- Permutation_middle. by rewrite take_drop.
Qed.

Lemma elem_of_splice_insert start x l y :
  y ∈ splice_insert start x l ↔ y = x ∨ y ∈ l.
Proof. rewrite splice_insert_perm. apply elem_of_cons. Qed.

Lemma NoDup_splice_insert start x l :
  NoDup (splice_insert start x l) ↔ (¬ x ∈ l) ∧ NoDup l.
Proof. rewrite splice_insert_perm. apply NoDup_cons. Qed.

(** Reading the array after an entry is spliced in at [s]. *)
Lemma lookup_splice_insert s x l i :
  s ≤ length l →
  splice_insert (Z.of_nat s) x l !! i =
    if decide (i < s) then l !! i
    else if decide (i = s) then Some x
    else l !! (i - 1).
Proof.
  intros Hs. rewrite splice_insert_nat by done.
  assert (Hlen : length (take s l) = s) by (by apply length_take_le).
  repeat case_decide.
  - rewrite lookup_app_l by lia. by apply lookup_take_lt.
  - subst i. rewrite <- Hlen at 1. by rewrite list_lookup_middle.
  - rewrite lookup_app_r by lia. rewrite Hlen.
    destruct (i - s) as [|j] eqn:Hj; [lia|]. simpl.
    rewrite lookup_drop. f_equal. lia.
Qed.

Lemma last_lookup_Some l x i : NoDup l → l !! i = Some x → last l = Some x → S i = length l.
Proof.
  intros Hnd Hi Hl. rewrite last_lookup in Hl.
  pose proof (lookup_lt_Some _ _ _ Hi).
  pose proof (NoDup_lookup _ _ _ _ Hnd Hi Hl). lia.
Qed.
End ArrayFacts.

(** ** The tree invariant *)

Section InvariantFacts.
Import Dom.
Implicit Types (h : Heap) (n m p c node : nid) (l : list nid).

(** The invariant only looks at the four link fields. *)
Lemma tree_invariant_ext h h' :
  (∀ m, parentNode h' m = parentNode h m) →
  (∀ m, childNodes h' m = childNodes h m) →
  (∀ m, prevSibling h' m = prevSibling h m) →
  (∀ m, nextSibling h' m = nextSibling h m) →
  tree_invariant h → tree_invariant h'.
Proof.
  intros Hp Hc Hv Hx [I1 I2 I3 I4 I5]. split.
  - intros p c. rewrite Hc, Hp. apply I1.
  - intros p c. rewrite Hc, Hp. apply I2.
  - intros p. rewrite Hc. apply I3.
  - intros p i c. rewrite Hc, Hv, Hx. apply I4.
  - intros n. rewrite Hp, Hv, Hx. apply I5.
Qed.

Lemma child_position h p c :
  tree_invariant h → parentNode h c = Some p →
  ∃ k, childNodes h p !! k = Some c ∧
       prevSibling h c = prevOf (childNodes h p) k ∧
       nextSibling h c = nextOf (childNodes h p) k.
Proof.
  intros Hinv Hp.
  destruct (list_elem_of_lookup_1 _ _ (parent_has_child h Hinv p c Hp)) as [k Hk].
  exists k. split; [done|]. by apply (siblings_in_order h Hinv).
Qed.

Lemma lookup_child_parent h p i c :
  tree_invariant h → childNodes h p !! i = Some c → parentNode h c = Some p.
Proof.
  intros Hinv Hi. apply (child_has_parent h Hinv). by eapply list_elem_of_lookup_2.
Qed.

Lemma nextSibling_parent h n m :
  tree_invariant h → nextSibling h n = Some m →
  ∃ p, parentNode h n = Some p ∧ parentNode h m = Some p.
Proof.
  intros Hinv Hx. destruct (parentNode h n) as [p|] eqn:Hp.
  - exists p. split; [done|].
    destruct (child_position h p n Hinv Hp) as (k & Hk & _ & Hnx).
    rewrite Hx in Hnx. symmetry in Hnx. by eapply lookup_child_parent.
  - destruct (loose_unlinked h Hinv n Hp) as [_ Hnone]. congruence.
Qed.

Lemma prevSibling_parent h n m :
  tree_invariant h → prevSibling h n = Some m →
  ∃ p, parentNode h n = Some p ∧ parentNode h m = Some p.
Proof.
  intros Hinv Hv. destruct (parentNode h n) as [p|] eqn:Hp.
  - exists p. split; [done|].
    destruct (child_position h p n Hinv Hp) as (k & Hk & Hpv & _).
    rewrite Hv in Hpv. destruct k as [|k]; [done|]. simpl in Hpv. symmetry in Hpv.
    by eapply lookup_child_parent.
  - destruct (loose_unlinked h Hinv n Hp) as [Hnone _]. congruence.
Qed.

Lemma loose_of_parentless h n :
  tree_invariant h → parentNode h n = None → loose h n.
Proof. intros Hinv Hp. split; [done|]. by apply (loose_unlinked h Hinv). Qed.

Lemma loose_not_child h n p : tree_invariant h → loose h n → n ∉ childNodes h p.
Proof.
  intros Hinv (Hp & _ & _) Hin. apply (child_has_parent h Hinv) in Hin. congruence.
Qed.

(** The check that runs is sound. *)
Lemma node_ok_default h n : h !! n = None → h !!! n = newNode KDocument.
Proof. intros Hn. unfold lookup_total, map_lookup_total. by rewrite Hn. Qed.

Lemma heap_ok_node h n : heap_ok h = true → node_ok h n = true ∨ h !! n = None.
Proof.
  intros Hok. destruct (h !! n) as [nd|] eqn:Hn; [left|by right].
  unfold heap_ok in Hok. rewrite forallb_forall in Hok.
  apply (Hok (n, nd)). apply list_elem_of_In. by apply elem_of_map_to_list.
Qed.

Lemma heap_ok_sound h : heap_ok h = true → tree_invariant h.
Proof.
  intros Hok.
  assert (Hnode : ∀ n, node_ok h n = true).
  { intros n. destruct (heap_ok_node h n Hok) as [?|Hn]; [done|].
    unfold node_ok, parentNode, childNodes, prevSibling, nextSibling.
    rewrite (node_ok_default h n Hn). reflexivity. }
  split.
  - intros p c Hin. specialize (Hnode p). unfold node_ok in Hnode.
    rewrite !andb_true_iff in Hnode. destruct Hnode as [[[H1 _] _] _].
    rewrite forallb_forall in H1. apply list_elem_of_In, H1 in Hin.
    by apply bool_decide_eq_true in Hin.
  - intros p c Hp. specialize (Hnode c). unfold node_ok in Hnode.
    rewrite !andb_true_iff in Hnode. destruct Hnode as [[[_ H2] _] _].
    rewrite Hp in H2. by apply bool_decide_eq_true in H2.
  - intros p. specialize (Hnode p). unfold node_ok in Hnode.
    rewrite !andb_true_iff in Hnode. destruct Hnode as [[_ H3] _].
    by apply bool_decide_eq_true in H3.
  - intros p i c Hi. specialize (Hnode p). unfold node_ok in Hnode.
    rewrite !andb_true_iff in Hnode. destruct Hnode as [_ H4].
    rewrite forallb_forall in H4. specialize (H4 i).
    rewrite Hi in H4. rewrite andb_true_iff, !bool_decide_eq_true in H4.
    apply H4. apply in_seq. apply lookup_lt_Some in Hi. lia.
  - intros n Hp. specialize (Hnode n). unfold node_ok in Hnode.
    rewrite !andb_true_iff in Hnode. destruct Hnode as [[[_ H2] _] _].
    rewrite Hp in H2. by rewrite andb_true_iff, !bool_decide_eq_true in H2.
Qed.
End InvariantFacts.

Section DetatchInvariant.
Import Dom.
Implicit Types (h : Heap) (n m p c node : nid) (l : list nid).

Lemma detatchNode_loose node h : loose (detatchNode node h) node.
Proof.
  repeat split.
  - rewrite detatchNode_parentNode. by case_decide.
  - rewrite detatchNode_prevSibling. by case_decide.
  - rewrite detatchNode_nextSibling. by case_decide.
Qed.

Lemma detatchNode_invariant node h :
  tree_invariant h → tree_invariant (detatchNode node h).
Proof.
  intros Hinv. destruct (parentNode h node) as [P|] eqn:HP.
  2: { destruct (loose_unlinked h Hinv node HP) as [Hv Hx].
       apply (tree_invariant_ext h); [..|done]; intros m.
       - rewrite detatchNode_parentNode. case_decide; congruence.
       - rewrite detatchNode_childNodes. case_decide; congruence.
       - rewrite detatchNode_prevSibling. repeat case_decide; congruence.
       - rewrite detatchNode_nextSibling. repeat case_decide; congruence. }
  destruct (child_position h P node Hinv HP) as (k & Hk & Hpv & Hnx).
  pose proof (child_once h Hinv P) as Hnd.
  assert (Hl' : ∀ i, childNodes (detatchNode node h) P !! i
                     = if decide (i < k) then childNodes h P !! i
                       else childNodes h P !! S i).
  { intros i. rewrite detatchNode_childNodes, decide_True by done.
    by apply lookup_filter_ne. }
  assert (Hsame : ∀ p, p ≠ P → childNodes (detatchNode node h) p = childNodes h p).
  { intros p Hne. rewrite detatchNode_childNodes. rewrite decide_False; congruence. }
  assert (Hsub : ∀ p c, c ∈ childNodes (detatchNode node h) p →
                        c ∈ childNodes h p ∧ c ≠ node).
  { intros p c. rewrite detatchNode_childNodes. case_decide as Hq.
    - rewrite list_elem_of_filter. tauto.
    - intros Hin. split; [done|]. intros ->.
      apply (child_has_parent h Hinv) in Hin. congruence. }
  (* a node that is no child of [P] is no neighbour of [node] *)
  assert (Hfar : ∀ m, parentNode h m ≠ Some P →
                      nextSibling h node ≠ Some m ∧ prevSibling h node ≠ Some m).
  { intros m Hm. split; intros Hlink.
    - destruct (nextSibling_parent h node m Hinv Hlink) as (q & ? & ?). congruence.
    - destruct (prevSibling_parent h node m Hinv Hlink) as (q & ? & ?). congruence. }
  split.
  - intros p c Hin. apply Hsub in Hin as [Hin Hc].
    rewrite detatchNode_parentNode, decide_False by done.
    by apply (child_has_parent h Hinv).
  - intros p c. rewrite detatchNode_parentNode. case_decide as Hc; [done|].
    intros Hp. apply (parent_has_child h Hinv) in Hp as Hin.
    rewrite detatchNode_childNodes. case_decide; [|done].
    apply list_elem_of_filter. done.
  - intros p. rewrite detatchNode_childNodes. case_decide; [|apply (child_once h Hinv)].
    apply NoDup_filter, (child_once h Hinv).
  - intros p i c Hi.
    assert (Hc : c ∈ childNodes h p ∧ c ≠ node).
    { apply Hsub. by eapply list_elem_of_lookup_2. }
    destruct Hc as [Hin Hc].
    rewrite detatchNode_prevSibling, detatchNode_nextSibling.
    rewrite !(decide_False (P := c = node)) by done.
    destruct (decide (p = P)) as [->|Hne].
    + rewrite Hl' in Hi. rewrite Hpv, Hnx.
      set (l := childNodes h P) in *.
      set (j := if decide (i < k) then i else S i).
      assert (Hj : l !! j = Some c) by (unfold j; by case_decide).
      assert (Huniq : ∀ q, l !! q = Some c → q = j).
      { intros q Hq. by apply (NoDup_lookup l q j c). }
      assert (Hjk : j ≠ k).
      { intros ->. rewrite Hk in Hj. congruence. }
      destruct (siblings_in_order h Hinv P j c Hj) as [Hcp Hcn].
      fold l in Hcp, Hcn. rewrite Hcp, Hcn.
      unfold nextOf, prevOf. split.
      * destruct (decide (l !! S k = Some c)) as [Hq|Hq].
        -- apply Huniq in Hq. assert (i = k) by (unfold j in *; case_decide; lia).
           subst i. destruct k as [|k']; [done|]. rewrite Hl'. by rewrite decide_True by lia.
        -- assert (i ≠ k).
           { intros ->. apply Hq. unfold j in Hj. by rewrite decide_False in Hj by lia. }
           unfold j. case_decide.
           ++ destruct i as [|i']; [done|]. rewrite Hl'. by rewrite decide_True by lia.
           ++ destruct i as [|i']; [lia|]. rewrite Hl'. by rewrite decide_False by lia.
      * destruct k as [|k'].
        -- rewrite decide_False by done. unfold j.
           rewrite decide_False by lia. rewrite Hl'. by rewrite decide_False by lia.
        -- destruct (decide (l !! k' = Some c)) as [Hq|Hq].
           ++ apply Huniq in Hq. assert (i = k') by (unfold j in *; case_decide; lia).
              subst i. rewrite Hl'. by rewrite decide_False by lia.
           ++ assert (i ≠ k').
              { intros ->. apply Hq. unfold j in Hj. by rewrite decide_True in Hj by lia. }
              unfold j. rewrite Hl'. repeat case_decide; try lia; done.
    + rewrite Hsame in Hi |- * by done.
      assert (Hcp : parentNode h c ≠ Some P).
      { rewrite (child_has_parent h Hinv p c Hin). congruence. }
      destruct (Hfar c Hcp) as [Hn1 Hn2].
      rewrite !decide_False by done. by apply (siblings_in_order h Hinv).
  - intros n. rewrite detatchNode_parentNode, detatchNode_prevSibling,
      detatchNode_nextSibling.
    case_decide as Hn; [done|]. intros Hp.
    assert (Hcp : parentNode h n ≠ Some P) by congruence.
    destruct (Hfar n Hcp) as [Hn1 Hn2].
    rewrite !decide_False by done. by apply (loose_unlinked h Hinv).
Qed.
End DetatchInvariant.

Section ChildInsertInvariant.
Import Dom.
Implicit Types (h : Heap) (n m p c node : nid) (l : list nid).

(** A loose node becomes the last child of [P]. *)
Lemma append_invariant h1 h' P c :
  tree_invariant h1 → loose h1 c →
  (∀ m, parentNode h' m = if decide (m = c) then Some P else parentNode h1 m) →
  (∀ p, childNodes h' p = if decide (p = P) then childNodes h1 p ++ [c]
                          else childNodes h1 p) →
  (∀ m, nextSibling h' m = if decide (last (childNodes h1 P) = Some m) then Some c
                           else nextSibling h1 m) →
  (∀ m, prevSibling h' m = if decide (m = c) then last (childNodes h1 P)
                           else prevSibling h1 m) →
  tree_invariant h'.
Proof.
  intros Hinv Hloose Hp Hc Hx Hv.
  set (l := childNodes h1 P) in *.
  assert (Hnot : ∀ p, c ∉ childNodes h1 p) by (intros p; by apply loose_not_child).
  destruct Hloose as (Hcp & Hcv & Hcx).
  pose proof (child_once h1 Hinv P) as Hnd. fold l in Hnd.
  assert (Hlast : ∀ m, last l = Some m → parentNode h1 m = Some P ∧ m ≠ c).
  { intros m Hm. rewrite last_lookup in Hm.
    split; [by eapply lookup_child_parent|].
    intros ->. apply (Hnot P). by eapply list_elem_of_lookup_2. }
  split.
  - intros p x. rewrite Hc, Hp. case_decide as Hq.
    + subst p. rewrite elem_of_app, list_elem_of_singleton. intros [Hin| ->].
      * rewrite decide_False; [by apply (child_has_parent h1 Hinv)|].
        intros ->. by apply (Hnot P).
      * by rewrite decide_True.
    + intros Hin. rewrite decide_False; [by apply (child_has_parent h1 Hinv)|].
      intros ->. by apply (Hnot p).
  - intros p x. rewrite Hc, Hp. case_decide as Hq.
    + intros [= <-]. rewrite decide_True by done. subst x.
      apply elem_of_app. right. by apply list_elem_of_singleton.
    + intros Hpx. apply (parent_has_child h1 Hinv) in Hpx.
      case_decide; [|done]. apply elem_of_app. by left.
  - intros p. rewrite Hc. case_decide; [|apply (child_once h1 Hinv)].
    subst p. apply NoDup_app. split; [done|]. split; [|apply NoDup_singleton].
    intros x Hin ->%list_elem_of_singleton. by apply (Hnot P).
  - intros p i x. rewrite Hc, Hv, Hx. case_decide as Hq.
    + subst p. fold l. intros Hi.
      destruct (decide (i < length l)) as [Hlt|Hge].
      * rewrite lookup_app_l in Hi by done.
        assert (Hxc : x ≠ c).
        { intros ->. apply (Hnot P). by eapply list_elem_of_lookup_2. }
        destruct (siblings_in_order h1 Hinv P i x Hi) as [Hxv Hxx].
        fold l in Hxv, Hxx. rewrite decide_False by done. split.
        -- rewrite Hxv. destruct i as [|i']; [done|]. simpl.
           by rewrite lookup_app_l by lia.
        -- unfold nextOf. case_decide as Hl.
           ++ rewrite (last_lookup_Some l x i Hnd Hi Hl).
              by rewrite list_lookup_middle.
           ++ rewrite Hxx. unfold nextOf.
              destruct (decide (S i < length l)); [by rewrite lookup_app_l|].
              exfalso. apply Hl. rewrite last_lookup.
              replace (pred (length l)) with i by lia. done.
      * rewrite lookup_app_r in Hi by lia.
        destruct (i - length l) as [|d] eqn:Hd; [|done]. simpl in Hi.
        injection Hi as <-. assert (i = length l) by lia. subst i.
        rewrite decide_True by done. split.
        -- rewrite last_lookup. destruct l as [|y l']; [done|].
           change (length (y :: l')) with (S (length l')). cbn [prevOf Init.Nat.pred].
           rewrite lookup_app_l by (simpl; lia). done.
        -- rewrite decide_False.
           ++ rewrite Hcx. unfold nextOf. symmetry. apply lookup_ge_None.
              rewrite length_app. simpl. lia.
           ++ intros Hl. by destruct (Hlast c Hl).
    + intros Hi.
      assert (Hxp : parentNode h1 x = Some p) by (by eapply lookup_child_parent).
      rewrite decide_False.
      2: { intros ->. congruence. }
      rewrite decide_False.
      2: { intros Hl. destruct (Hlast x Hl). congruence. }
      by apply (siblings_in_order h1 Hinv).
  - intros n. rewrite Hp, Hv, Hx. case_decide as Hn; [done|]. intros Hnp.
    rewrite decide_False.
    2: { intros Hl. destruct (Hlast n Hl). congruence. }
    by apply (loose_unlinked h1 Hinv).
Qed.

(** A loose node becomes the first child of [P]. *)
Lemma prepend_invariant h1 h' P c :
  tree_invariant h1 → loose h1 c →
  (∀ m, parentNode h' m = if decide (m = c) then Some P else parentNode h1 m) →
  (∀ p, childNodes h' p = if decide (p = P) then c :: childNodes h1 p
                          else childNodes h1 p) →
  (∀ m, prevSibling h' m = if decide (head (childNodes h1 P) = Some m) then Some c
                           else prevSibling h1 m) →
  (∀ m, nextSibling h' m = if decide (m = c) then head (childNodes h1 P)
                           else nextSibling h1 m) →
  tree_invariant h'.
Proof.
  intros Hinv Hloose Hp Hc Hv Hx.
  set (l := childNodes h1 P) in *.
  assert (Hnot : ∀ p, c ∉ childNodes h1 p) by (intros p; by apply loose_not_child).
  destruct Hloose as (Hcp & Hcv & Hcx).
  pose proof (child_once h1 Hinv P) as Hnd. fold l in Hnd.
  assert (Hhead : ∀ m, head l = Some m → parentNode h1 m = Some P ∧ m ≠ c).
  { intros m Hm. rewrite head_lookup in Hm.
    split; [by eapply lookup_child_parent|].
    intros ->. apply (Hnot P). by eapply list_elem_of_lookup_2. }
  split.
  - intros p x. rewrite Hc, Hp. case_decide as Hq.
    + subst p. rewrite elem_of_cons. intros [->|Hin].
      * by rewrite decide_True.
      * rewrite decide_False; [by apply (child_has_parent h1 Hinv)|].
        intros ->. by apply (Hnot P).
    + intros Hin. rewrite decide_False; [by apply (child_has_parent h1 Hinv)|].
      intros ->. by apply (Hnot p).
  - intros p x. rewrite Hc, Hp. case_decide as Hq.
    + intros [= <-]. rewrite decide_True by done. subst x.
      apply elem_of_cons. by left.
    + intros Hpx. apply (parent_has_child h1 Hinv) in Hpx.
      case_decide; [|done]. apply elem_of_cons. by right.
  - intros p. rewrite Hc. case_decide; [|apply (child_once h1 Hinv)].
    subst p. apply NoDup_cons. split; [apply Hnot|done].
  - intros p i x. rewrite Hc, Hv, Hx. case_decide as Hq.
    + subst p. fold l. intros Hi. destruct i as [|i]; simpl in Hi.
      * injection Hi as Hxc. subst x.
        rewrite (decide_True (P := c = c)) by done. rewrite decide_False.
        2: { intros Hl. by destruct (Hhead c Hl). }
        split; [done|]. unfold nextOf. simpl. by rewrite head_lookup.
      * assert (Hxc : x ≠ c).
        { intros ->. apply (Hnot P). by eapply list_elem_of_lookup_2. }
        destruct (siblings_in_order h1 Hinv P i x Hi) as [Hxv Hxx].
        fold l in Hxv, Hxx. rewrite (decide_False (P := x = c)) by done.
        split; [|done]. simpl. case_decide as Hl.
        -- rewrite head_lookup in Hl.
           by rewrite (NoDup_lookup l i 0 x Hnd Hi Hl).
        -- rewrite Hxv. destruct i as [|i']; [|done].
           exfalso. apply Hl. by rewrite head_lookup.
    + intros Hi.
      assert (Hxp : parentNode h1 x = Some p) by (by eapply lookup_child_parent).
      rewrite decide_False.
      2: { intros Hl. destruct (Hhead x Hl). congruence. }
      rewrite decide_False.
      2: { intros ->. congruence. }
      by apply (siblings_in_order h1 Hinv).
  - intros n. rewrite Hp, Hv, Hx. case_decide as Hn; [done|]. intros Hnp.
    rewrite decide_False.
    2: { intros Hl. destruct (Hhead n Hl). congruence. }
    by apply (loose_unlinked h1 Hinv).
Qed.

Lemma appendChild_invariant parent child h :
  tree_invariant h → tree_invariant (appendChild parent child h).
Proof.
  intros Hinv.
  apply (append_invariant (detatchNode child h) _ parent child).
  - by apply detatchNode_invariant.
  - apply detatchNode_loose.
  - intros m. rewrite appendChild_parentNode, detatchNode_parentNode.
    by case_decide.
  - intros m. apply appendChild_childNodes.
  - intros m. apply appendChild_nextSibling.
  - intros m. apply appendChild_prevSibling.
Qed.

Lemma prependChild_invariant parent child h :
  tree_invariant h → tree_invariant (prependChild parent child h).
Proof.
  intros Hinv.
  apply (prepend_invariant (detatchNode child h) _ parent child).
  - by apply detatchNode_invariant.
  - apply detatchNode_loose.
  - intros m. rewrite prependChild_parentNode, detatchNode_parentNode.
    by case_decide.
  - intros m. apply prependChild_childNodes.
  - intros m. apply prependChild_prevSibling.
  - intros m. apply prependChild_nextSibling.
Qed.
End ChildInsertInvariant.

(** ** What appendSibling and prependSibling do to each field *)

Section SiblingInsertFacts.
Import Dom.
Implicit Types (h : Heap) (n m p c node after before : nid) (l : list nid).

(** Splits on every optional field the goal still inspects. *)
Ltac split_options :=
  repeat match goal with
         | |- context [match ?x with Some _ => _ | None => _ end] => destruct x eqn:?
         end.

Ltac sibling_fields node h :=
  pose proof (detatchNode_loose node h) as (? & ? & ?);
  cbn zeta; cbn [heap_of];
  split_options; autorewrite with fields in *;
  repeat (case_decide; simplify_eq; autorewrite with fields in * );
  try done; try congruence.

Lemma appendSibling_parentNode node after m h :
  isDocumentNode h after = false →
  parentNode (heap_of (appendSibling node after h)) m =
    if decide (m = node) then parentNode (detatchNode node h) after
    else parentNode (detatchNode node h) m.
Proof.
  intros Hdoc. unfold appendSibling. rewrite Hdoc. sibling_fields node h.
Qed.

Lemma appendSibling_childNodes node after p h :
  isDocumentNode h after = false →
  childNodes (heap_of (appendSibling node after h)) p =
    if decide (parentNode (detatchNode node h) after = Some p)
    then splice_insert (indexOf (childNodes (detatchNode node h) p) after + 1) node
           (childNodes (detatchNode node h) p)
    else childNodes (detatchNode node h) p.
Proof.
  intros Hdoc. unfold appendSibling. rewrite Hdoc. sibling_fields node h.
Qed.

Lemma appendSibling_nextSibling node after m h :
  isDocumentNode h after = false →
  nextSibling (heap_of (appendSibling node after h)) m =
    if decide (m = after) then Some node
    else if decide (m = node) then nextSibling (detatchNode node h) after
    else nextSibling (detatchNode node h) m.
Proof.
  intros Hdoc. unfold appendSibling. rewrite Hdoc. sibling_fields node h.
Qed.

Lemma appendSibling_prevSibling node after m h :
  isDocumentNode h after = false →
  prevSibling (heap_of (appendSibling node after h)) m =
    if decide (m = node) then Some after
    else if decide (nextSibling (detatchNode node h) after = Some m) then Some node
    else prevSibling (detatchNode node h) m.
Proof.
  intros Hdoc. unfold appendSibling. rewrite Hdoc. sibling_fields node h.
Qed.

Lemma prependSibling_parentNode node before m h :
  isDocumentNode h before = false →
  parentNode (heap_of (prependSibling node before h)) m =
    if decide (m = node) then parentNode (detatchNode node h) before
    else parentNode (detatchNode node h) m.
Proof.
  intros Hdoc. unfold prependSibling. rewrite Hdoc. sibling_fields node h.
Qed.

Lemma prependSibling_childNodes node before p h :
  isDocumentNode h before = false →
  childNodes (heap_of (prependSibling node before h)) p =
    if decide (parentNode (detatchNode node h) before = Some p)
    then splice_insert (indexOf (childNodes (detatchNode node h) p) before) node
           (childNodes (detatchNode node h) p)
    else childNodes (detatchNode node h) p.
Proof.
  intros Hdoc. unfold prependSibling. rewrite Hdoc. sibling_fields node h.
Qed.

Lemma prependSibling_prevSibling node before m h :
  isDocumentNode h before = false →
  prevSibling (heap_of (prependSibling node before h)) m =
    if decide (m = before) then Some node
    else if decide (m = node) then prevSibling (detatchNode node h) before
    else prevSibling (detatchNode node h) m.
Proof.
  intros Hdoc. unfold prependSibling. rewrite Hdoc. sibling_fields node h.
Qed.

Lemma prependSibling_nextSibling node before m h :
  isDocumentNode h before = false →
  nextSibling (heap_of (prependSibling node before h)) m =
    if decide (m = node) then Some before
    else if decide (prevSibling (detatchNode node h) before = Some m) then Some node
    else nextSibling (detatchNode node h) m.
Proof.
  intros Hdoc. unfold prependSibling. rewrite Hdoc. sibling_fields node h.
Qed.
End SiblingInsertFacts.

Section SiblingInsertInvariant.
Import Dom.
Implicit Types (h : Heap) (n m p c a b node : nid) (l : list nid).

(** A loose node becomes the sibling after [a], a child of [P]. *)
Lemma insert_after_invariant h1 h' P c a :
  tree_invariant h1 → loose h1 c → a ≠ c → parentNode h1 a = Some P →
  (∀ m, parentNode h' m = if decide (m = c) then Some P else parentNode h1 m) →
  (∀ p, childNodes h' p =
        if decide (p = P)
        then splice_insert (indexOf (childNodes h1 p) a + 1) c (childNodes h1 p)
        else childNodes h1 p) →
  (∀ m, nextSibling h' m = if decide (m = a) then Some c
                           else if decide (m = c) then nextSibling h1 a
                           else nextSibling h1 m) →
  (∀ m, prevSibling h' m = if decide (m = c) then Some a
                           else if decide (nextSibling h1 a = Some m) then Some c
                           else prevSibling h1 m) →
  tree_invariant h'.
Proof.
  intros Hinv Hloose Hac Hap Hp Hc Hx Hv.
  assert (Hnot : ∀ p, c ∉ childNodes h1 p) by (intros p; by apply loose_not_child).
  destruct Hloose as (Hcp & Hcv & Hcx).
  destruct (child_position h1 P a Hinv Hap) as (k & Hk & Hav & Hax).
  set (l := childNodes h1 P) in *.
  pose proof (child_once h1 Hinv P) as Hnd. fold l in Hnd.
  pose proof (lookup_lt_Some _ _ _ Hk) as Hklen.
  assert (Hl' : ∀ i, childNodes h' P !! i =
                     if decide (i < S k) then l !! i
                     else if decide (i = S k) then Some c else l !! (i - 1)).
  { intros i. rewrite Hc, decide_True by done. fold l.
    rewrite (indexOf_lookup l k a Hnd Hk).
    replace (Z.of_nat k + 1)%Z with (Z.of_nat (S k)) by lia.
    apply lookup_splice_insert. lia. }
  assert (Hnext : ∀ m, nextSibling h1 a = Some m → parentNode h1 m = Some P ∧ m ≠ c).
  { intros m Hm. destruct (nextSibling_parent h1 a m Hinv Hm) as (q & Hq1 & Hq2).
    split; congruence. }
  split.
  - intros p x. rewrite Hc, Hp. case_decide as Hq.
    + subst p. rewrite elem_of_splice_insert. intros [->|Hin].
      * by rewrite decide_True.
      * rewrite decide_False; [by apply (child_has_parent h1 Hinv)|].
        intros ->. by apply (Hnot P).
    + intros Hin. rewrite decide_False; [by apply (child_has_parent h1 Hinv)|].
      intros ->. by apply (Hnot p).
  - intros p x. rewrite Hc, Hp. case_decide as Hq.
    + intros [= <-]. rewrite decide_True by done.
      apply elem_of_splice_insert. by left.
    + intros Hpx. apply (parent_has_child h1 Hinv) in Hpx.
      case_decide; [|done]. apply elem_of_splice_insert. by right.
  - intros p. rewrite Hc. case_decide; [|apply (child_once h1 Hinv)].
    apply NoDup_splice_insert. split; [apply Hnot|apply (child_once h1 Hinv)].
  - intros p i x. destruct (decide (p = P)) as [->|Hne].
    + rewrite Hl'. intros Hi. unfold nextOf, prevOf. rewrite Hv, Hx.
      destruct (decide (i < S k)) as [Hlt|Hge].
      * (* at or before the anchor *)
        assert (Hxc : x ≠ c).
        { intros ->. apply (Hnot P). by eapply list_elem_of_lookup_2. }
        destruct (siblings_in_order h1 Hinv P i x Hi) as [Hxv Hxx].
        fold l in Hxv, Hxx. rewrite !(decide_False (P := x = c)) by done.
        rewrite Hax. unfold nextOf. split.
        -- rewrite decide_False.
           2: { intros Hq. pose proof (NoDup_lookup l _ _ x Hnd Hq Hi). lia. }
           rewrite Hxv. destruct i as [|i']; [done|]. simpl.
           rewrite Hl'. by rewrite decide_True by lia.
        -- rewrite Hl'. destruct (decide (x = a)) as [->|Hxa].
           ++ pose proof (NoDup_lookup l _ _ a Hnd Hk Hi). subst i.
              rewrite decide_False by lia. by rewrite decide_True.
           ++ assert (i ≠ k) by (intros ->; congruence).
              by rewrite decide_True by lia.
      * destruct (decide (i = S k)) as [->|Hik].
        -- (* the inserted node *)
           injection Hi as <-.
           rewrite !(decide_True (P := c = c)) by done.
           rewrite (decide_False (P := c = a)) by done.
           rewrite Hl', decide_True by lia. split; [done|].
           rewrite Hl', decide_False by lia. rewrite decide_False by lia.
           rewrite Hax. unfold nextOf. f_equal; lia.
        -- (* after the inserted node *)
           assert (Hxc : x ≠ c).
           { intros ->. apply (Hnot P). by eapply list_elem_of_lookup_2. }
           assert (Hxa : x ≠ a).
           { intros ->. pose proof (NoDup_lookup l _ _ a Hnd Hk Hi). lia. }
           destruct (siblings_in_order h1 Hinv P (i - 1) x Hi) as [Hxv Hxx].
           fold l in Hxv, Hxx.
           rewrite !(decide_False (P := x = c)) by done.
           rewrite (decide_False (P := x = a)) by done.
           rewrite Hax. unfold nextOf. destruct i as [|i']; [lia|]. simpl.
           rewrite !Hl'. simpl in *. replace (i' - 0) with i' in * by lia.
           split.
           ++ rewrite (decide_False (P := i' < S k)) by lia.
              destruct (decide (l !! S k = Some x)) as [Hq|Hq].
              ** pose proof (NoDup_lookup l _ _ x Hnd Hq Hi). subst i'.
                 by rewrite decide_True.
              ** assert (i' ≠ S k) by (intros ->; done).
                 rewrite decide_False by done. rewrite Hxv.
                 destruct i' as [|i'']; [lia|]. simpl. f_equal; lia.
           ++ rewrite decide_False by lia. rewrite decide_False by lia.
              rewrite Hxx. unfold nextOf. f_equal; lia.
    + rewrite Hc, decide_False by done. intros Hi. rewrite Hv, Hx.
      assert (Hxp : parentNode h1 x = Some p) by (by eapply lookup_child_parent).
      rewrite !(decide_False (P := x = c)) by (intros ->; congruence).
      rewrite (decide_False (P := x = a)) by (intros ->; congruence).
      rewrite decide_False.
      2: { intros Hq. destruct (Hnext x Hq). congruence. }
      by apply (siblings_in_order h1 Hinv).
  - intros n. rewrite Hp, Hv, Hx. case_decide as Hn; [done|]. intros Hnp.
    rewrite (decide_False (P := n = a)) by (intros ->; congruence).
    rewrite decide_False.
    2: { intros Hq. destruct (Hnext n Hq). congruence. }
    by apply (loose_unlinked h1 Hinv).
Qed.
End SiblingInsertInvariant.

Section SiblingInsertInvariant2.
Import Dom.
Implicit Types (h : Heap) (n m p c a b node : nid) (l : list nid).

(** A loose node becomes the sibling before [b], a child of [P]. *)
Lemma insert_before_invariant h1 h' P c b :
  tree_invariant h1 → loose h1 c → b ≠ c → parentNode h1 b = Some P →
  (∀ m, parentNode h' m = if decide (m = c) then Some P else parentNode h1 m) →
  (∀ p, childNodes h' p =
        if decide (p = P)
        then splice_insert (indexOf (childNodes h1 p) b) c (childNodes h1 p)
        else childNodes h1 p) →
  (∀ m, prevSibling h' m = if decide (m = b) then Some c
                           else if decide (m = c) then prevSibling h1 b
                           else prevSibling h1 m) →
  (∀ m, nextSibling h' m = if decide (m = c) then Some b
                           else if decide (prevSibling h1 b = Some m) then Some c
                           else nextSibling h1 m) →
  tree_invariant h'.
Proof.
  intros Hinv Hloose Hbc Hbp Hp Hc Hv Hx.
  assert (Hnot : ∀ p, c ∉ childNodes h1 p) by (intros p; by apply loose_not_child).
  destruct Hloose as (Hcp & Hcv & Hcx).
  destruct (child_position h1 P b Hinv Hbp) as (k & Hk & Hbv & Hbx).
  set (l := childNodes h1 P) in *.
  pose proof (child_once h1 Hinv P) as Hnd. fold l in Hnd.
  pose proof (lookup_lt_Some _ _ _ Hk) as Hklen.
  assert (Hl' : ∀ i, childNodes h' P !! i =
                     if decide (i < k) then l !! i
                     else if decide (i = k) then Some c else l !! (i - 1)).
  { intros i. rewrite Hc, decide_True by done. fold l.
    rewrite (indexOf_lookup l k b Hnd Hk).
    apply lookup_splice_insert. lia. }
  assert (Hprev : ∀ m, prevSibling h1 b = Some m → parentNode h1 m = Some P ∧ m ≠ c).
  { intros m Hm. destruct (prevSibling_parent h1 b m Hinv Hm) as (q & Hq1 & Hq2).
    split; congruence. }
  split.
  - intros p x. rewrite Hc, Hp. case_decide as Hq.
    + subst p. rewrite elem_of_splice_insert. intros [->|Hin].
      * by rewrite decide_True.
      * rewrite decide_False; [by apply (child_has_parent h1 Hinv)|].
        intros ->. by apply (Hnot P).
    + intros Hin. rewrite decide_False; [by apply (child_has_parent h1 Hinv)|].
      intros ->. by apply (Hnot p).
  - intros p x. rewrite Hc, Hp. case_decide as Hq.
    + intros [= <-]. rewrite decide_True by done.
      apply elem_of_splice_insert. by left.
    + intros Hpx. apply (parent_has_child h1 Hinv) in Hpx.
      case_decide; [|done]. apply elem_of_splice_insert. by right.
  - intros p. rewrite Hc. case_decide; [|apply (child_once h1 Hinv)].
    apply NoDup_splice_insert. split; [apply Hnot|apply (child_once h1 Hinv)].
  - intros p i x. destruct (decide (p = P)) as [->|Hne].
    + rewrite Hl'. intros Hi. unfold nextOf, prevOf. rewrite Hv, Hx.
      destruct (decide (i < k)) as [Hlt|Hge].
      * (* before the anchor *)
        assert (Hxc : x ≠ c).
        { intros ->. apply (Hnot P). by eapply list_elem_of_lookup_2. }
        assert (Hxb : x ≠ b).
        { intros ->. pose proof (NoDup_lookup l _ _ b Hnd Hk Hi). lia. }
        destruct (siblings_in_order h1 Hinv P i x Hi) as [Hxv Hxx].
        fold l in Hxv, Hxx.
        rewrite !(decide_False (P := x = c)) by done.
        rewrite (decide_False (P := x = b)) by done.
        rewrite Hbv. split.
        -- rewrite Hxv. destruct i as [|i']; [done|]. simpl.
           rewrite Hl'. by rewrite decide_True by lia.
        -- rewrite Hl'. destruct k as [|k']; [lia|]. simpl.
           destruct (decide (l !! k' = Some x)) as [Hq|Hq].
           ++ pose proof (NoDup_lookup l _ _ x Hnd Hq Hi). subst i.
              rewrite decide_False by lia. by rewrite decide_True.
           ++ assert (i ≠ k') by (intros ->; done).
              by rewrite decide_True by lia.
      * destruct (decide (i = k)) as [->|Hik].
        -- (* the inserted node *)
           injection Hi as <-.
           rewrite !(decide_True (P := c = c)) by done.
           rewrite (decide_False (P := c = b)) by done.
           rewrite Hbv. split.
           ++ destruct k as [|k']; [done|]. simpl.
              rewrite Hl'. by rewrite decide_True by lia.
           ++ rewrite Hl', decide_False by lia. rewrite decide_False by lia.
              rewrite <- Hk. f_equal; lia.
        -- (* at or after the anchor *)
           assert (Hxc : x ≠ c).
           { intros ->. apply (Hnot P). by eapply list_elem_of_lookup_2. }
           destruct (siblings_in_order h1 Hinv P (i - 1) x Hi) as [Hxv Hxx].
           fold l in Hxv, Hxx.
           rewrite !(decide_False (P := x = c)) by done.
           rewrite Hbv. destruct i as [|i']; [lia|]. simpl.
           rewrite !Hl'. simpl in *. replace (i' - 0) with i' in * by lia.
           split.
           ++ rewrite (decide_False (P := i' < k)) by lia.
              destruct (decide (x = b)) as [->|Hxb].
              ** pose proof (NoDup_lookup l _ _ b Hnd Hk Hi). subst i'.
                 by rewrite decide_True.
              ** assert (i' ≠ k) by (intros ->; congruence).
                 rewrite decide_False by done. rewrite Hxv.
                 destruct i' as [|i'']; [lia|]. simpl. f_equal; lia.
           ++ rewrite decide_False.
              2: { intros Hq. destruct k as [|k']; [done|]. simpl in Hq.
                   pose proof (NoDup_lookup l _ _ x Hnd Hq Hi). lia. }
              rewrite decide_False by lia. rewrite decide_False by lia.
              rewrite Hxx. unfold nextOf. f_equal; lia.
    + rewrite Hc, decide_False by done. intros Hi. rewrite Hv, Hx.
      assert (Hxp : parentNode h1 x = Some p) by (by eapply lookup_child_parent).
      rewrite !(decide_False (P := x = c)) by (intros ->; congruence).
      rewrite (decide_False (P := x = b)) by (intros ->; congruence).
      rewrite decide_False.
      2: { intros Hq. destruct (Hprev x Hq). congruence. }
      by apply (siblings_in_order h1 Hinv).
  - intros n. rewrite Hp, Hv, Hx. case_decide as Hn; [done|]. intros Hnp.
    rewrite (decide_False (P := n = b)) by (intros ->; congruence).
    rewrite decide_False.
    2: { intros Hq. destruct (Hprev n Hq). congruence. }
    by apply (loose_unlinked h1 Hinv).
Qed.

Lemma appendSibling_invariant node after h :
  tree_invariant h → node ≠ after → is_Some (parentNode h after) →
  tree_invariant (heap_of (appendSibling node after h)).
Proof.
  intros Hinv Hne [P HP].
  destruct (isDocumentNode h after) eqn:Hdoc.
  { unfold appendSibling. by rewrite Hdoc. }
  assert (HP1 : parentNode (detatchNode node h) after = Some P).
  { rewrite detatchNode_parentNode. by rewrite decide_False by done. }
  apply (insert_after_invariant (detatchNode node h) _ P node after).
  - by apply detatchNode_invariant.
  - apply detatchNode_loose.
  - done.
  - done.
  - intros m. rewrite appendSibling_parentNode by done. by rewrite HP1.
  - intros p. rewrite appendSibling_childNodes by done. rewrite HP1.
    repeat case_decide; simplify_eq; done.
  - intros m. by apply appendSibling_nextSibling.
  - intros m. by apply appendSibling_prevSibling.
Qed.

Lemma prependSibling_invariant node before h :
  tree_invariant h → node ≠ before → is_Some (parentNode h before) →
  tree_invariant (heap_of (prependSibling node before h)).
Proof.
  intros Hinv Hne [P HP].
  destruct (isDocumentNode h before) eqn:Hdoc.
  { unfold prependSibling. by rewrite Hdoc. }
  assert (HP1 : parentNode (detatchNode node h) before = Some P).
  { rewrite detatchNode_parentNode. by rewrite decide_False by done. }
  apply (insert_before_invariant (detatchNode node h) _ P node before).
  - by apply detatchNode_invariant.
  - apply detatchNode_loose.
  - done.
  - done.
  - intros m. rewrite prependSibling_parentNode by done. by rewrite HP1.
  - intros p. rewrite prependSibling_childNodes by done. rewrite HP1.
    repeat case_decide; simplify_eq; done.
  - intros m. by apply prependSibling_prevSibling.
  - intros m. by apply prependSibling_nextSibling.
Qed.

(** The inserted node has the parent of the anchor. *)
Lemma appendSibling_parent_kept node after h :
  node ≠ after → is_Some (parentNode h after) →
  is_Some (parentNode (heap_of (appendSibling node after h)) node) ∨
  throws (appendSibling node after h) = true.
Proof.
  intros Hne [P HP]. destruct (isDocumentNode h after) eqn:Hdoc.
  { right. unfold appendSibling. by rewrite Hdoc. }
  left. rewrite appendSibling_parentNode by done. rewrite decide_True by done.
  rewrite detatchNode_parentNode. rewrite decide_False by done. eauto.
Qed.

Lemma replaceNode_loop_invariant replacements prevNode h :
  tree_invariant h → is_Some (parentNode h prevNode) → no_repeat prevNode replacements →
  tree_invariant (heap_of (replaceNode_loop prevNode replacements h)).
Proof.
  revert prevNode h. induction replacements as [|newNode rest IH];
    intros prevNode h Hinv Hparent Hrep; [done|].
  destruct Hrep as [Hne Hrep]. cbn [replaceNode_loop]. unfold Node_appendSibling.
  pose proof (appendSibling_invariant newNode prevNode h Hinv Hne Hparent) as Hinv'.
  destruct (appendSibling_parent_kept newNode prevNode h Hne Hparent) as [Hkept|Hthrow].
  - destruct (appendSibling newNode prevNode h) as [h'|e h'] eqn:Happ; [|done].
    by apply IH.
  - destruct (appendSibling newNode prevNode h) as [h'|e h'] eqn:Happ; done.
Qed.

Lemma replaceNode_invariant remove replacements h :
  tree_invariant h → is_Some (parentNode h remove) → no_repeat remove replacements →
  tree_invariant (heap_of (replaceNode remove replacements h)).
Proof.
  intros Hinv Hparent Hrep. unfold replaceNode.
  pose proof (replaceNode_loop_invariant replacements remove h Hinv Hparent Hrep) as Hl.
  destruct (replaceNode_loop remove replacements h) as [h'|e h']; [|done].
  by apply detatchNode_invariant.
Qed.
End SiblingInsertInvariant2.

(** ** The mutation primitives and the tree invariant *)

Section MutationsInvariant.
Import Dom Examples.

(** C3, as the code has it.  In a heap that satisfies the tree invariant,
    detatchNode, appendChild and prependChild leave a heap that satisfies
    it, for all their arguments; appendSibling and prependSibling do when
    the anchor has a parent and is not the inserted node; replaceNode
    does when the replaced node has a parent and no replacement is the
    node that precedes it in the sequence formed by the replaced node
    and the replacements.  (A call that throws leaves the heap it has
    reached, which satisfies the invariant too.) *)
Theorem mutations_keep_tree_invariant (h : Heap) :
  tree_invariant h →
  (∀ node, tree_invariant (detatchNode node h)) ∧
  (∀ parent child, tree_invariant (appendChild parent child h)) ∧
  (∀ parent child, tree_invariant (prependChild parent child h)) ∧
  (∀ node after,
     node ≠ after → is_Some (parentNode h after) →
     tree_invariant (heap_of (appendSibling node after h))) ∧
  (∀ node before,
     node ≠ before → is_Some (parentNode h before) →
     tree_invariant (heap_of (prependSibling node before h))) ∧
  (∀ remove replacements,
     is_Some (parentNode h remove) → no_repeat remove replacements →
     tree_invariant (heap_of (replaceNode remove replacements h))).
Proof.
  intros Hinv. refine (conj _ (conj _ (conj _ (conj _ (conj _ _))))).
  - intros node. by apply detatchNode_invariant.
  - intros parent child. by apply appendChild_invariant.
  - intros parent child. by apply prependChild_invariant.
  - intros node after. by apply appendSibling_invariant.
  - intros node before. by apply prependSibling_invariant.
  - intros remove replacements. by apply replaceNode_invariant.
Qed.

Lemma mutations_keep_tree_invariant_witness :
  tree_invariant (heap_of (appendSibling 5 3 page)) ∧
  tree_invariant (heap_of (prependSibling 1 2 page)) ∧
  tree_invariant (heap_of (replaceNode 1 [5; 3] page)).
Proof.
  assert (Hpage : tree_invariant page) by (apply heap_ok_sound; vm_compute; reflexivity).
  destruct (mutations_keep_tree_invariant page Hpage) as (_ & _ & _ & Ha & Hp & Hr).
  split; [|split].
  - apply Ha; [lia|]. exists 1. reflexivity.
  - apply Hp; [lia|]. exists 0. reflexivity.
  - apply Hr.
    + exists 0. reflexivity.
    + simpl. repeat split; lia.
Defined.

(** Two text nodes that are in no tree satisfy the invariant; after
    [appendSibling] of one after the other they are linked as siblings
    and still have no parent. *)
Lemma appendSibling_after_loose_node_breaks_invariant :
  tree_invariant two_texts ∧
  isDocumentNode two_texts 1 = false ∧
  throws (appendSibling 2 1 two_texts) = false ∧
  ¬ tree_invariant (heap_of (appendSibling 2 1 two_texts)).
Proof.
  split; [apply heap_ok_sound; vm_compute; reflexivity|].
  split; [reflexivity|]. split; [reflexivity|].
  intros Hinv. destruct (loose_unlinked _ Hinv 1) as [_ Hnext].
  - reflexivity.
  - vm_compute in Hnext. discriminate Hnext.
Qed.
End MutationsInvariant.

(** ** swapNode *)

Section SwapNode.
Import Dom Examples.
Implicit Types (h : Heap) (n m p c node remove replacement : nid) (l : list nid).

Lemma filter_all (P : nid → Prop) `{!∀ x, Decision (P x)} l :
  (∀ x, x ∈ l → P x) → filter P l = l.
Proof.
  induction l as [|y l IH]; [done|]. intros Hall.
  rewrite filter_cons_True by (apply Hall; apply elem_of_cons; by left).
  rewrite IH; [done|]. intros x Hx. apply Hall. apply elem_of_cons. by right.
Qed.

Lemma filter_none (P : nid → Prop) `{!∀ x, Decision (P x)} l :
  (∀ x, x ∈ l → ¬ P x) → filter P l = [].
Proof.
  induction l as [|y l IH]; [done|]. intros Hall.
  rewrite filter_cons_False by (apply Hall; apply elem_of_cons; by left).
  apply IH. intros x Hx. apply Hall. apply elem_of_cons. by right.
Qed.

Lemma detatchNode_nodeKind node m h : nodeKind (detatchNode node h) m = nodeKind h m.
Proof.
  unfold detatchNode. cbn zeta.
  repeat match goal with
         | |- context [match ?x with Some _ => _ | None => _ end] => destruct x eqn:?
         end;
    unfold set_parentNode, set_prevSibling, set_nextSibling, set_childNodes;
    rewrite ?nodeKind_update; done.
Qed.

Lemma appendChild_nodeKind parent child m h :
  nodeKind (appendChild parent child h) m = nodeKind h m.
Proof.
  unfold appendChild. cbn zeta.
  destruct (lastChild (detatchNode child h) parent);
    unfold set_parentNode, set_prevSibling, set_nextSibling, set_childNodes;
    rewrite ?nodeKind_update, ?detatchNode_nodeKind; done.
Qed.

Lemma appendChildNodes_nodeKind parent l m h :
  nodeKind (appendChildNodes parent l h) m = nodeKind h m.
Proof.
  revert h. induction l as [|c l IH]; intros h; [done|]. simpl.
  by rewrite IH, appendChild_nodeKind.
Qed.

Lemma appendChildNodes_invariant parent l h :
  tree_invariant h → tree_invariant (appendChildNodes parent l h).
Proof.
  revert h. induction l as [|c l IH]; intros h Hinv; [done|]. simpl.
  apply IH. by apply appendChild_invariant.
Qed.

(** Moving the children [l] of [remove] to the end of [replacement]. *)
Lemma appendChildNodes_moves l h remove replacement :
  NoDup l → (∀ c, c ∈ l → parentNode h c = Some remove) → remove ≠ replacement →
  (∀ m, parentNode (appendChildNodes replacement l h) m =
        if decide (m ∈ l) then Some replacement else parentNode h m) ∧
  (∀ p, childNodes (appendChildNodes replacement l h) p =
        if decide (p = replacement) then childNodes h p ++ l
        else if decide (p = remove) then filter (λ c, c ∉ l) (childNodes h p)
        else childNodes h p).
Proof.
  revert h. induction l as [|c l IH]; intros h Hnd Hparent Hne.
  { split.
    - intros m. rewrite decide_False; [done|]. apply not_elem_of_nil.
    - intros p. repeat case_decide; [by rewrite app_nil_r| |done].
      symmetry. apply filter_all. intros x _. apply not_elem_of_nil. }
  apply NoDup_cons in Hnd as [Hc Hnd].
  assert (Hcp : parentNode h c = Some remove).
  { apply Hparent. apply elem_of_cons. by left. }
  destruct (IH (appendChild replacement c h) Hnd) as [IHp IHc]; [|done|].
  { intros c' Hc'. rewrite appendChild_parentNode. rewrite decide_False.
    - apply Hparent. apply elem_of_cons. by right.
    - intros ->. done. }
  simpl. split.
  - intros m. rewrite IHp, appendChild_parentNode.
    destruct (decide (m = c)) as [->|Hmc].
    + rewrite (decide_False (P := c ∈ l)) by done.
      rewrite decide_True; [done|]. apply elem_of_cons. by left.
    + destruct (decide (m ∈ l)) as [Hin|Hout].
      * rewrite decide_True; [done|]. apply elem_of_cons. by right.
      * rewrite decide_False; [done|]. rewrite elem_of_cons. tauto.
  - intros p. rewrite IHc, !appendChild_childNodes, !detatchNode_childNodes, Hcp.
    destruct (decide (p = replacement)) as [->|Hpr].
    + rewrite (decide_False (P := Some remove = Some replacement)) by congruence.
      by rewrite <- app_assoc.
    + destruct (decide (p = remove)) as [->|Hpm].
      * rewrite (decide_True (P := Some remove = Some remove)) by done.
        rewrite list_filter_filter. apply list_filter_iff.
        intros x. rewrite elem_of_cons. tauto.
      * rewrite (decide_False (P := Some remove = Some p)) by congruence. done.
Qed.
End SwapNode.

Section SwapNode2.
Import Dom Examples.
Implicit Types (h : Heap) (n m p c node remove replacement : nid) (l : list nid).

Lemma appendSibling_returns node after h :
  isDocumentNode h after = false →
  appendSibling node after h = Ok (heap_of (appendSibling node after h)).
Proof. intros Hdoc. unfold appendSibling. by rewrite Hdoc. Qed.

Lemma splice_after_middle l1 l2 a x :
  NoDup (l1 ++ a :: l2) →
  splice_insert (indexOf (l1 ++ a :: l2) a + 1) x (l1 ++ a :: l2) = l1 ++ a :: x :: l2.
Proof.
  intros Hnd.
  rewrite (indexOf_lookup _ (length l1) a Hnd) by apply list_lookup_middle, eq_refl.
  replace (Z.of_nat (length l1) + 1)%Z with (Z.of_nat (S (length l1))) by lia.
  rewrite splice_insert_nat by (rewrite length_app; simpl; lia).
  replace (l1 ++ a :: l2) with ((l1 ++ [a]) ++ l2) by (by rewrite <- app_assoc).
  rewrite take_app_length', drop_app_length' by (rewrite length_app; simpl; lia).
  by rewrite <- app_assoc.
Qed.

(** C2, as the code has it.  In a heap that satisfies the tree invariant,
    for a node [remove] that is not a DocumentNode and has a parent [P],
    and a different node [replacement], neither of the two being [P] and
    [replacement] being neither a child of [remove] nor its own parent:
    swapNode returns; afterwards the child list of [replacement] is its
    former child list followed by the former child list of [remove], the
    child list of [remove] is empty, [remove] has no parent, and
    [replacement] is a child of [P] at the place [remove] had; the heap
    satisfies the tree invariant. *)
Theorem swapNode_moves_children remove replacement P h :
  tree_invariant h →
  remove ≠ replacement →
  isDocumentNode h remove = false →
  parentNode h remove = Some P → P ≠ remove → P ≠ replacement →
  parentNode h replacement ≠ Some remove →
  parentNode h replacement ≠ Some replacement →
  throws (swapNode remove replacement h) = false ∧
  tree_invariant (heap_of (swapNode remove replacement h)) ∧
  childNodes (heap_of (swapNode remove replacement h)) replacement
    = childNodes h replacement ++ childNodes h remove ∧
  childNodes (heap_of (swapNode remove replacement h)) remove = [] ∧
  parentNode (heap_of (swapNode remove replacement h)) remove = None ∧
  parentNode (heap_of (swapNode remove replacement h)) replacement = Some P ∧
  (∀ l1 l2,
     childNodes h P = l1 ++ remove :: l2 →
     childNodes (heap_of (swapNode remove replacement h)) P
       = filter (λ c, c ≠ replacement) l1 ++ replacement :: filter (λ c, c ≠ replacement) l2).
Proof.
  intros Hinv Hne Hdoc HP HPm HPr Hrm Hrr.
  set (l := childNodes h remove).
  destruct (appendChildNodes_moves l h remove replacement) as [Hp1 Hc1].
  { apply (child_once h Hinv). }
  { intros c Hc. by apply (child_has_parent h Hinv). }
  { done. }
  set (h1 := appendChildNodes replacement l h) in *.
  assert (Hinv1 : tree_invariant h1) by (by apply appendChildNodes_invariant).
  assert (Hml : remove ∉ l).
  { intros Hin. apply (child_has_parent h Hinv) in Hin. congruence. }
  assert (Hrl : replacement ∉ l).
  { intros Hin. apply (child_has_parent h Hinv) in Hin. congruence. }
  assert (HP1 : parentNode h1 remove = Some P) by (by rewrite Hp1, decide_False).
  assert (Hr1 : parentNode h1 replacement = parentNode h replacement)
    by (by rewrite Hp1, decide_False).
  assert (Hdoc1 : isDocumentNode h1 remove = false).
  { unfold isDocumentNode, h1. by rewrite appendChildNodes_nodeKind. }
  set (h2 := heap_of (appendSibling replacement remove h1)).
  assert (Hswap : swapNode remove replacement h = Ok (detatchNode remove h2)).
  { unfold swapNode, Node_replaceSelf, Node_appendChildren, replaceNode.
    fold l. fold h1. cbn [replaceNode_loop]. unfold Node_appendSibling.
    by rewrite (appendSibling_returns replacement remove h1 Hdoc1). }
  rewrite Hswap. cbn [throws heap_of].
  assert (Hinv2 : tree_invariant h2).
  { apply appendSibling_invariant; [done|done|by rewrite HP1]. }
  assert (HPd : parentNode (detatchNode replacement h1) remove = Some P).
  { rewrite detatchNode_parentNode. by rewrite decide_False. }
  assert (HP2 : parentNode h2 remove = Some P).
  { unfold h2. rewrite appendSibling_parentNode by done. by rewrite decide_False. }
  assert (Hc2 : ∀ p, p ≠ P → childNodes h2 p = childNodes (detatchNode replacement h1) p).
  { intros p Hp. unfold h2. rewrite appendSibling_childNodes by done.
    rewrite HPd. rewrite decide_False; congruence. }
  assert (Hc3 : ∀ p, p ≠ P → childNodes (detatchNode remove h2) p = childNodes h2 p).
  { intros p Hp. rewrite detatchNode_childNodes, HP2. rewrite decide_False; congruence. }
  split; [done|]. split; [by apply detatchNode_invariant|].
  split; [|split; [|split; [|split]]].
  - rewrite Hc3, Hc2 by done. rewrite detatchNode_childNodes, Hr1.
    rewrite decide_False by done. rewrite Hc1. by rewrite decide_True.
  - rewrite Hc3, Hc2 by done. rewrite detatchNode_childNodes, Hr1.
    rewrite decide_False by done. rewrite Hc1.
    rewrite decide_False by done. rewrite decide_True by done.
    apply filter_none. intros x Hx. fold l in Hx. tauto.
  - rewrite detatchNode_parentNode. by rewrite decide_True.
  - rewrite detatchNode_parentNode. rewrite decide_False by done.
    unfold h2. rewrite appendSibling_parentNode by done. by rewrite decide_True.
  - intros l1 l2 Hsplit.
    pose proof (child_once h Hinv P) as Hnd. rewrite Hsplit in Hnd.
    assert (Hc1P : childNodes h1 P = l1 ++ remove :: l2).
    { rewrite Hc1. by rewrite !decide_False by done. }
    assert (HcdP : childNodes (detatchNode replacement h1) P
                   = filter (λ c, c ≠ replacement) l1
                     ++ remove :: filter (λ c, c ≠ replacement) l2).
    { rewrite detatchNode_childNodes, Hr1, Hc1P.
      case_decide as Hq.
      - rewrite filter_app, filter_cons_True by done. done.
      - assert (Hout : replacement ∉ l1 ++ remove :: l2).
        { rewrite <- Hsplit. intros Hin. by apply (child_has_parent h Hinv) in Hin. }
        rewrite <- (filter_ne_absent (l1 ++ remove :: l2) replacement Hout) at 1.
        rewrite filter_app, filter_cons_True by done. done. }
    set (m1 := filter (λ c, c ≠ replacement) l1) in *.
    set (m2 := filter (λ c, c ≠ replacement) l2) in *.
    assert (Hnd' : NoDup (m1 ++ remove :: m2)).
    { rewrite <- HcdP. apply (child_once _ (detatchNode_invariant replacement h1 Hinv1)). }
    apply NoDup_app in Hnd' as Hparts. destruct Hparts as (_ & Hm1 & Hm2).
    apply NoDup_cons in Hm2 as [Hm2 _].
    assert (Hm1' : remove ∉ m1).
    { intros Hin. apply (Hm1 remove Hin). apply elem_of_cons. by left. }
    rewrite detatchNode_childNodes, HP2, decide_True by done.
    unfold h2. rewrite appendSibling_childNodes by done.
    rewrite HPd, decide_True by done. rewrite HcdP.
    rewrite splice_after_middle by done.
    rewrite filter_app, filter_cons_False by naive_solver.
    rewrite filter_cons_True by done.
    by rewrite !filter_ne_absent by done.
Qed.

Lemma swapNode_moves_children_witness :
  childNodes (heap_of (swapNode 1 2 page)) 2 = [5; 3; 4] ∧
  childNodes (heap_of (swapNode 1 2 page)) 1 = [] ∧
  childNodes (heap_of (swapNode 1 2 page)) 0 = [2].
Proof.
  assert (Hpage : tree_invariant page) by (apply heap_ok_sound; vm_compute; reflexivity).
  destruct (swapNode_moves_children 1 2 0 page Hpage) as (_ & _ & Ha & Hb & _ & _ & Hc).
  - lia.
  - reflexivity.
  - reflexivity.
  - lia.
  - lia.
  - discriminate.
  - discriminate.
  - split; [exact Ha|]. split; [exact Hb|]. exact (Hc [] [2] eq_refl).
Defined.

(** In the example page, swapping the div (node 1) for the span (node 2)
    leaves the div without children and without parent and gives its two
    text nodes to the span: neither child list is what it was. *)
Lemma swapNode_does_not_keep_children :
  tree_invariant page ∧
  isNodeWithChildren page 1 = true ∧ isNodeWithChildren page 2 = true ∧
  childNodes page 1 = [3; 4] ∧ childNodes page 2 = [5] ∧
  throws (swapNode 1 2 page) = false ∧
  childNodes (heap_of (swapNode 1 2 page)) 1 = [] ∧
  childNodes (heap_of (swapNode 1 2 page)) 2 = [5; 3; 4] ∧
  parentNode (heap_of (swapNode 1 2 page)) 1 = None ∧
  ¬ (childNodes (heap_of (swapNode 1 2 page)) 1 = childNodes page 1 ∧
     childNodes (heap_of (swapNode 1 2 page)) 2 = childNodes page 2).
Proof.
  split; [apply heap_ok_sound; vm_compute; reflexivity|].
  repeat (split; [vm_compute; reflexivity|]).
  intros [Hdiv _]. vm_compute in Hdiv. discriminate Hdiv.
Qed.
End SwapNode2.

(** ** Appending loose nodes *)

Section AppendLoose.
Import Dom.
Implicit Types (h : Heap) (n m p c P : nid) (l : list nid) (R : nid → Prop).

Lemma detatchNode_loose_other node m h :
  loose h node → m ≠ node → detatchNode node h !! m = h !! m.
Proof.
  intros (Hp & Hv & Hx) Hm. unfold detatchNode. rewrite Hp. cbn zeta. rewrite Hv, Hx.
  unfold set_parentNode, set_prevSibling, set_nextSibling.
  by rewrite !update_other by done.
Qed.

Lemma lookup_total_eq h h' m : h' !! m = h !! m → h' !!! m = h !!! m.
Proof. intros Heq. unfold lookup_total, map_lookup_total. by rewrite Heq. Qed.

(** What appendChild does with a loose child. *)
Lemma appendChild_loose P c h :
  loose h c →
  (∀ m, parentNode (appendChild P c h) m = if decide (m = c) then Some P else parentNode h m) ∧
  (∀ p, childNodes (appendChild P c h) p =
        if decide (p = P) then childNodes h p ++ [c] else childNodes h p) ∧
  (∀ m, nextSibling (appendChild P c h) m =
        if decide (last (childNodes h P) = Some m) then Some c else nextSibling h m) ∧
  (∀ m, prevSibling (appendChild P c h) m =
        if decide (m = c) then last (childNodes h P) else prevSibling h m).
Proof.
  intros (Hp & Hv & Hx).
  assert (Hc : ∀ p, childNodes (detatchNode c h) p = childNodes h p).
  { intros p. rewrite detatchNode_childNodes, Hp. by rewrite decide_False. }
  assert (Hn : ∀ m, nextSibling (detatchNode c h) m = nextSibling h m).
  { intros m. rewrite detatchNode_nextSibling, Hv.
    case_decide; [by subst|]. by rewrite decide_False. }
  assert (Hpv : ∀ m, prevSibling (detatchNode c h) m = prevSibling h m).
  { intros m. rewrite detatchNode_prevSibling, Hx.
    case_decide; [by subst|]. by rewrite decide_False. }
  split; [|split; [|split]].
  - intros m. apply appendChild_parentNode.
  - intros p. by rewrite appendChild_childNodes, Hc.
  - intros m. by rewrite appendChild_nextSibling, Hc, Hn.
  - intros m. by rewrite appendChild_prevSibling, Hc, Hpv.
Qed.

Lemma appendChild_loose_other P c m h :
  loose h c → m ≠ c → m ≠ P → last (childNodes h P) ≠ Some m →
  appendChild P c h !! m = h !! m.
Proof.
  intros Hloose Hmc HmP Hlast.
  assert (Hc : childNodes (detatchNode c h) P = childNodes h P).
  { destruct Hloose as (Hp & _ & _).
    rewrite detatchNode_childNodes, Hp. by rewrite decide_False. }
  unfold appendChild, lastChild. cbn zeta. rewrite getLastNode_last, Hc.
  destruct (last (childNodes h P)) as [x|] eqn:Hx;
    unfold set_parentNode, set_prevSibling, set_nextSibling, set_childNodes.
  - rewrite !update_other by congruence. by apply detatchNode_loose_other.
  - rewrite !update_other by congruence. by apply detatchNode_loose_other.
Qed.

Lemma links_in_fields h h' m R :
  (∀ x, parentNode h' m = Some x → parentNode h m = Some x ∨ R x) →
  (∀ x, prevSibling h' m = Some x → prevSibling h m = Some x ∨ R x) →
  (∀ x, nextSibling h' m = Some x → nextSibling h m = Some x ∨ R x) →
  (∀ x, x ∈ childNodes h' m → x ∈ childNodes h m ∨ R x) →
  links_in h m R → links_in h' m R.
Proof.
  intros Hp Hv Hx Hc (H1 & H2 & H3 & H4). repeat split; intros x Hin.
  - destruct (Hp x Hin); eauto.
  - destruct (Hv x Hin); eauto.
  - destruct (Hx x Hin); eauto.
  - destruct (Hc x Hin); eauto.
Qed.

(** Appending a list of loose nodes that are not yet children of [P]. *)
Lemma appendChildNodes_loose l : ∀ P h,
  NoDup l → P ∉ l →
  (∀ c, c ∈ l → loose h c) →
  (∀ c, c ∈ l → c ∉ childNodes h P) →
  P ∉ childNodes h P →
  childNodes (appendChildNodes P l h) P = childNodes h P ++ l ∧
  (∀ m, m ≠ P → childNodes (appendChildNodes P l h) m = childNodes h m) ∧
  (∀ m, m ≠ P → m ∉ l → m ∉ childNodes h P →
        appendChildNodes P l h !! m = h !! m) ∧
  (∀ m R, R P → (∀ c, c ∈ l → R c) → (∀ c, c ∈ childNodes h P → R c) →
          links_in h m R → links_in (appendChildNodes P l h) m R) ∧
  (loose h P → loose (appendChildNodes P l h) P).
Proof.
  induction l as [|c l IH]; intros P h Hnd HP Hloose Hnew HPP.
  { simpl. rewrite app_nil_r.
    split; [done|]. split; [done|]. split; [done|]. split; [|done]. by intros. }
  apply NoDup_cons in Hnd as [Hcl Hnd].
  apply not_elem_of_cons in HP as [HPc HP].
  assert (Hc : loose h c) by (apply Hloose, elem_of_cons; by left).
  destruct (appendChild_loose P c h Hc) as (Fp & Fc & Fx & Fv).
  set (h0 := appendChild P c h) in *.
  assert (Hlast : ∀ m, last (childNodes h P) = Some m → m ∈ childNodes h P).
  { intros m Hm. rewrite last_lookup in Hm. by eapply list_elem_of_lookup_2. }
  destruct (IH P h0) as (I1 & I2 & I3 & I4 & I5); try done.
  { intros c' Hc'.
    assert (Hc'l : c' ∈ c :: l) by (apply elem_of_cons; by right).
    destruct (Hloose c' Hc'l) as (L1 & L2 & L3).
    assert (c' ≠ c) by (intros ->; done).
    repeat split.
    - rewrite Fp. by rewrite decide_False.
    - rewrite Fv. by rewrite decide_False.
    - rewrite Fx. rewrite decide_False; [done|].
      intros Hl. apply (Hnew c' Hc'l). by apply Hlast. }
  { intros c' Hc'. rewrite Fc, decide_True by done.
    rewrite elem_of_app, list_elem_of_singleton. intros [Hin| ->]; [|done].
    apply (Hnew c'); [|done]. apply elem_of_cons. by right. }
  { rewrite Fc, decide_True by done.
    rewrite elem_of_app, list_elem_of_singleton. intros [Hin|Heq]; [done|].
    by apply HPc. }
  cbn [appendChildNodes]. fold h0.
  split; [|split; [|split; [|split]]].
  - rewrite I1, Fc, decide_True by done. by rewrite <- app_assoc.
  - intros m Hm. rewrite I2 by done. rewrite Fc. by rewrite decide_False.
  - intros m HmP Hml Hmc. apply not_elem_of_cons in Hml as [Hmc' Hml].
    rewrite I3; [|done|done|].
    + apply appendChild_loose_other; try done.
      intros Hl. apply Hmc. by apply Hlast.
    + rewrite Fc, decide_True by done.
      rewrite elem_of_app, list_elem_of_singleton. tauto.
  - intros m R RP Rl Rc Hlinks. apply I4.
    + done.
    + intros c' Hc'. apply Rl. apply elem_of_cons. by right.
    + intros c'. rewrite Fc, decide_True by done.
      rewrite elem_of_app, list_elem_of_singleton. intros [Hin| ->]; [by apply Rc|].
      apply Rl. apply elem_of_cons. by left.
    + assert (Rc' : R c) by (apply Rl, elem_of_cons; by left).
      revert Hlinks. apply links_in_fields.
      * intros x. rewrite Fp. case_decide; [|tauto]. intros [= <-]. by right.
      * intros x. rewrite Fv. case_decide; [|tauto]. intros Hl. right.
        apply Rc. by apply Hlast.
      * intros x. rewrite Fx. case_decide; [|tauto]. intros [= <-]. by right.
      * intros x. rewrite Fc. case_decide; [|tauto]. subst m.
        rewrite elem_of_app, list_elem_of_singleton. intros [Hin| ->]; [by left|by right].
  - intros (L1 & L2 & L3). apply I5. repeat split.
    + rewrite Fp. by rewrite decide_False by done.
    + rewrite Fv. by rewrite decide_False by done.
    + rewrite Fx. rewrite decide_False; [done|]. intros Hl. apply HPP. by apply Hlast.
Qed.
End AppendLoose.

(** ** Trees in the heap *)

Section TreeFacts.
Import Dom.
Implicit Types (h : Heap) (n m p c P : nid) (l : list nid) (R : nid → Prop)
  (t : Tree) (ts : list Tree) (st : Store).

Lemma Tree_induction (Q : Tree → Prop) :
  (∀ id k ts, Forall Q ts → Q (TNode id k ts)) → ∀ t, Q t.
Proof.
  intros Hstep. fix IH 1. intros [id k ts]. apply Hstep.
  induction ts as [|t ts IHts]; constructor; [apply IH|apply IHts].
Qed.

Lemma shaped_unfold h id k ts :
  shaped h (TNode id k ts) ↔
    nodeKind h id = k ∧ childNodes h id = root <$> ts ∧
    (isNodeWithChildrenKind k = false → ts = []) ∧ Forall (shaped h) ts.
Proof.
  cbn [shaped].
  assert (Hall : (fix all (ts0 : list Tree) : Prop :=
                    match ts0 with
                    | [] => True
                    | t' :: ts' => shaped h t' ∧ all ts'
                    end) ts ↔ Forall (shaped h) ts).
  { induction ts as [|t ts IH]; [by split|].
    rewrite Forall_cons, <- IH. done. }
  rewrite Hall. done.
Qed.

Lemma root_in_ids t : root t ∈ ids t.
Proof. destruct t as [id k ts]. simpl. apply elem_of_cons. by left. Qed.

Lemma ids_child id k ts t x : t ∈ ts → x ∈ ids t → x ∈ ids (TNode id k ts).
Proof.
  intros Ht Hx. simpl. apply elem_of_cons. right.
  apply list_elem_of_bind. by exists t.
Qed.

Lemma height_child id k ts t : t ∈ ts → height t < height (TNode id k ts).
Proof.
  intros Ht. cbn [height].
  assert (Hle : height t ≤ foldr Nat.max 0 (height <$> ts)); [|lia].
  induction ts as [|t0 ts IH]; [by apply elem_of_nil in Ht|].
  rewrite fmap_cons. cbn [foldr].
  apply elem_of_cons in Ht as [->|Ht].
  - apply Nat.le_max_l.
  - etrans; [by apply IH|]. apply Nat.le_max_r.
Qed.

(** A tree is in a heap as long as the class data and the child lists of
    its nodes are. *)
Lemma shaped_frame h h' t :
  (∀ id, id ∈ ids t → nodeKind h' id = nodeKind h id ∧ childNodes h' id = childNodes h id) →
  shaped h t → shaped h' t.
Proof.
  induction t as [id k ts IH] using Tree_induction. intros Hsame.
  rewrite !shaped_unfold. intros (Hk & Hc & Hleaf & Hts).
  destruct (Hsame id (root_in_ids (TNode id k ts))) as [Hk' Hc'].
  split; [congruence|]. split; [congruence|]. split; [done|].
  rewrite Forall_forall in IH, Hts |- *. intros t Ht.
  apply IH; [done| |by apply Hts].
  intros x Hx. apply Hsame. by eapply ids_child.
Qed.

Lemma fields_of_lookup h h' m :
  h' !! m = h !! m →
  nodeKind h' m = nodeKind h m ∧ parentNode h' m = parentNode h m ∧
  prevSibling h' m = prevSibling h m ∧ nextSibling h' m = nextSibling h m ∧
  childNodes h' m = childNodes h m.
Proof.
  intros Heq%lookup_total_eq.
  unfold nodeKind, parentNode, prevSibling, nextSibling, childNodes. by rewrite Heq.
Qed.

Lemma shaped_lookup h h' t :
  (∀ id, id ∈ ids t → h' !! id = h !! id) → shaped h t → shaped h' t.
Proof.
  intros Hsame. apply shaped_frame. intros id Hid.
  destruct (fields_of_lookup h h' id (Hsame id Hid)) as (? & _ & _ & _ & ?). done.
Qed.

Lemma links_in_lookup h h' m R : h' !! m = h !! m → links_in h m R → links_in h' m R.
Proof.
  intros Heq. destruct (fields_of_lookup h h' m Heq) as (_ & Hp & Hv & Hx & Hc).
  unfold links_in. by rewrite Hp, Hv, Hx, Hc.
Qed.

Lemma links_in_mono h m (R R' : nid → Prop) :
  (∀ x, R x → R' x) → links_in h m R → links_in h m R'.
Proof. intros HR (H1 & H2 & H3 & H4). repeat split; eauto. Qed.

Lemma loose_lookup h h' m : h' !! m = h !! m → loose h m → loose h' m.
Proof.
  intros Heq. destruct (fields_of_lookup h h' m Heq) as (_ & Hp & Hv & Hx & _).
  unfold loose. by rewrite Hp, Hv, Hx.
Qed.

Lemma links_in_blank h m R : h !! m = None → links_in h m R.
Proof.
  intros Hm. unfold links_in, parentNode, prevSibling, nextSibling, childNodes.
  rewrite (node_ok_default h m Hm). simpl. repeat split; try done.
  intros x Hx. by apply elem_of_nil in Hx.
Qed.

(** *** Allocation *)

Lemma alloc_next k st : (alloc k st).1 = st_next st ∧ st_next (alloc k st).2 = S (st_next st).
Proof. done. Qed.

Lemma alloc_other k st m :
  m ≠ st_next st → st_heap (alloc k st).2 !! m = st_heap st !! m.
Proof. intros Hm. simpl. by rewrite lookup_insert_ne. Qed.

Lemma alloc_new k st : st_heap (alloc k st).2 !! st_next st = Some (newNode k).
Proof. simpl. apply lookup_insert_eq. Qed.

Lemma links_in_new h m k R : h !! m = Some (newNode k) → links_in h m R.
Proof.
  intros Hm. unfold links_in, parentNode, prevSibling, nextSibling, childNodes.
  rewrite (lookup_total_correct h m _ Hm). simpl. repeat split; try done.
  intros x Hx. by apply elem_of_nil in Hx.
Qed.

Lemma alloc_scoped k st : scoped st → scoped (alloc k st).2.
Proof.
  intros [Hblank Hlinks]. split.
  - intros m Hm. rewrite alloc_other by (simpl in Hm; lia). apply Hblank. simpl in Hm. lia.
  - intros n. destruct (decide (n = st_next st)) as [->|Hn].
    + eapply links_in_new, alloc_new.
    + eapply links_in_lookup; [by apply alloc_other|].
      eapply links_in_mono; [|apply Hlinks]. simpl. lia.
Qed.

(** *** The clone functions, all alike *)

Lemma Node_clone_body_eq rec node deep callback st :
  Node_clone_body rec node deep callback st =
    let k := nodeKind (st_heap st) node in
    let newNode := (alloc k st).1 in
    let st1 := (alloc k st).2 in
    if isNodeWithChildrenKind k
    then returning newNode (processClonedParentNode rec node newNode deep callback st1)
    else Some (newNode, processClonedNode node newNode callback st1).
Proof.
  unfold Node_clone_body, cloneDocumentNode, cloneTagNode, cloneTextNode,
    cloneCommentNode, cloneCDATANode, cloneProcessingInstructionNode,
    cloneMFragmentNode, cloneMComponentNode, cloneMSlotNode, cloneMContentNode,
    cloneMVarNode, cloneMImportNode, cloneAttributes.
  destruct (nodeKind (st_heap st) node); reflexivity.
Qed.
End TreeFacts.

(** ** The deep clone *)

Section CloneDeep.
Import Dom.
Implicit Types (h : Heap) (n m p c P : nid) (l : list nid) (R : nid → Prop)
  (t : Tree) (ts : list Tree) (st : Store).

(** The new node with the clones of the children appended is a clone. *)
Lemma clone_assemble k id ts ts' st st2 :
  scoped st →
  (isNodeWithChildrenKind k = false → ts = []) →
  cloned_each (alloc k st).2 ts st2 ts' →
  cloned st (TNode id k ts)
    (on_heap (appendChildNodes (st_next st) (root <$> ts')) st2)
    (TNode (st_next st) k ts').
Proof.
  intros Hscoped Hleaf [Econtent Eshaped Enew Edistinct Eframe Escoped Eclosed Eroots Enext].
  set (a := st_next st) in *. set (h2 := st_heap st2) in *.
  cbn [alloc snd st_next] in Eframe, Enew, Eclosed, Enext. fold a in Eframe, Enew, Eclosed, Enext.
  assert (Ha2 : h2 !! a = Some (newNode k)).
  { unfold h2. rewrite Eframe by lia. apply alloc_new. }
  assert (Hroots : ∀ c, c ∈ root <$> ts' → S a ≤ c < st_next st2).
  { intros c (t' & -> & Ht')%list_elem_of_fmap.
    rewrite Forall_forall in Enew. specialize (Enew t' Ht').
    rewrite Forall_forall in Enew. apply Enew, root_in_ids. }
  assert (Hkids : childNodes h2 a = []).
  { unfold childNodes. by rewrite (lookup_total_correct h2 a _ Ha2). }
  assert (Hloose_a : loose h2 a).
  { unfold loose, parentNode, prevSibling, nextSibling.
    by rewrite (lookup_total_correct h2 a _ Ha2). }
  destruct (appendChildNodes_loose (root <$> ts') a h2) as (A1 & A2 & A3 & A4 & A5).
  { done. }
  { intros Hin. apply Hroots in Hin. lia. }
  { intros c (t' & -> & Ht')%list_elem_of_fmap.
    rewrite Forall_forall in Eroots. by apply Eroots. }
  { intros c _. rewrite Hkids. apply not_elem_of_nil. }
  { rewrite Hkids. apply not_elem_of_nil. }
  set (h3 := appendChildNodes a (root <$> ts') h2) in *.
  assert (Hkind3 : ∀ m, nodeKind h3 m = nodeKind h2 m).
  { intros m. apply appendChildNodes_nodeKind. }
  assert (Hother : ∀ m, m ≠ a → (¬ (S a ≤ m < st_next st2)) → h3 !! m = h2 !! m).
  { intros m Hm Hout. apply A3; [done| |].
    - intros Hin. by apply Hroots in Hin.
    - rewrite Hkids. apply not_elem_of_nil. }
  split.
  - cbn [content]. by rewrite Econtent.
  - cbn [on_heap st_heap]. fold h2. fold h3. apply shaped_unfold.
    split; [|split; [|split]].
    + rewrite Hkind3. unfold nodeKind. by rewrite (lookup_total_correct h2 a _ Ha2).
    + by rewrite A1, Hkids.
    + intros Hk. rewrite (Hleaf Hk) in Econtent. by apply fmap_nil_inv in Econtent.
    + rewrite Forall_forall in Eshaped, Enew |- *. intros t' Ht'.
      apply (shaped_frame h2); [|by apply Eshaped].
      intros x Hx. split; [apply Hkind3|]. apply A2.
      specialize (Enew t' Ht'). rewrite Forall_forall in Enew.
      specialize (Enew x Hx). lia.
  - cbn [on_heap st_next ids]. apply Forall_cons. split; [lia|].
    apply Forall_forall. intros x (t' & Hx & Ht')%list_elem_of_bind.
    rewrite Forall_forall in Enew. specialize (Enew t' Ht').
    rewrite Forall_forall in Enew. specialize (Enew x Hx). lia.
  - intros m Hm. cbn [on_heap st_heap]. fold h2. fold h3.
    rewrite Hother by lia. unfold h2. rewrite Eframe by lia.
    apply alloc_other. lia.
  - destruct Escoped as [Eblank Elinks]. split.
    + intros m Hm. cbn [on_heap st_heap st_next] in *. fold h2. fold h3.
      rewrite Hother by lia. by apply Eblank.
    + intros n. cbn [on_heap st_heap st_next]. fold h2. fold h3. apply A4.
      * lia.
      * intros c Hc. apply Hroots in Hc. lia.
      * intros c. rewrite Hkids. by intros ?%elem_of_nil.
      * apply Elinks.
  - intros n Hn. cbn [on_heap st_heap]. fold h2. fold h3. apply A4.
    + lia.
    + intros c Hc. apply Hroots in Hc. lia.
    + intros c. rewrite Hkids. by intros ?%elem_of_nil.
    + destruct (decide (n = a)) as [->|Hna].
      * by eapply links_in_new.
      * eapply links_in_mono; [|apply Eclosed; lia]. simpl. lia.
  - cbn [on_heap st_heap root]. by apply A5.
Qed.

Lemma cloned_each_nil st : scoped st → cloned_each st [] st [].
Proof.
  intros [Hblank Hlinks]. split; try done.
  - constructor.
  - intros n Hn. apply links_in_blank. by apply Hblank.
Qed.

(** Cloning the children one after the other, given that each clone
    call returns a clone. *)
Lemma cloneEach_deep f :
  (∀ t st,
     height t ≤ f → scoped st → shaped (st_heap st) t →
     Forall (λ id, id < st_next st) (ids t) →
     ∃ t' st', Node_clone f (root t) true None st = Some (root t', st') ∧
               cloned st t st' t') →
  ∀ ts st,
    Forall (λ t, height t ≤ f) ts → scoped st →
    Forall (shaped (st_heap st)) ts →
    Forall (λ t, Forall (λ id, id < st_next st) (ids t)) ts →
    ∃ ts' st', cloneEach (Node_clone f) (root <$> ts) None st = Some (root <$> ts', st') ∧
               cloned_each st ts st' ts'.
Proof.
  intros Hrec. induction ts as [|t ts IH]; intros st Hheight Hscoped Hshaped Hold.
  { exists [], st. split; [done|]. by apply cloned_each_nil. }
  apply Forall_cons in Hheight as [Hht Hheight].
  apply Forall_cons in Hshaped as [Hst Hshaped].
  apply Forall_cons in Hold as [Hot Hold].
  destruct (Hrec t st Hht Hscoped Hst Hot) as (t1 & sA & Hclone & Hcl).
  destruct Hcl as [Ccontent Cshaped Cnew Cframe Cscoped Cclosed Croot].
  assert (Hgrow : st_next st < st_next sA).
  { rewrite Forall_forall in Cnew. specialize (Cnew _ (root_in_ids t1)). lia. }
  destruct (IH sA) as (ts' & st' & Heach & Hall); [done|done| | |].
  { rewrite Forall_forall in Hshaped, Hold |- *. intros t' Ht'.
    apply (shaped_lookup (st_heap st)); [|by apply Hshaped].
    intros x Hx. apply Cframe. specialize (Hold t' Ht').
    rewrite Forall_forall in Hold. by apply Hold. }
  { eapply Forall_impl; [exact Hold|]. intros t' Ht'.
    eapply Forall_impl; [exact Ht'|]. simpl. lia. }
  destruct Hall as [Econtent Eshaped Enew Edistinct Eframe Escoped Eclosed Eroots Enext].
  exists (t1 :: ts'), st'. split.
  { rewrite !fmap_cons. cbn [cloneEach]. by rewrite Hclone, Heach. }
  assert (Ht1 : ∀ x, x ∈ ids t1 → st_heap st' !! x = st_heap sA !! x).
  { intros x Hx. apply Eframe. rewrite Forall_forall in Cnew. specialize (Cnew x Hx). lia. }
  split.
  - rewrite !fmap_cons. by rewrite Ccontent, Econtent.
  - apply Forall_cons. split; [|done]. by apply (shaped_lookup (st_heap sA)).
  - apply Forall_cons. split.
    + eapply Forall_impl; [exact Cnew|]. simpl. lia.
    + eapply Forall_impl; [exact Enew|]. intros t' Ht'.
      eapply Forall_impl; [exact Ht'|]. simpl. lia.
  - rewrite fmap_cons. apply NoDup_cons. split; [|done].
    intros (t' & Heq & Ht')%list_elem_of_fmap.
    rewrite Forall_forall in Enew. specialize (Enew t' Ht').
    rewrite Forall_forall in Enew. specialize (Enew _ (root_in_ids t')).
    rewrite Forall_forall in Cnew. specialize (Cnew _ (root_in_ids t1)).
    rewrite Heq in Cnew. lia.
  - intros m Hm. rewrite Eframe by lia. by apply Cframe.
  - done.
  - intros n Hn. destruct (decide (n < st_next sA)) as [Hlt|Hge].
    + eapply links_in_lookup; [by apply Eframe|]. by apply Cclosed.
    + eapply links_in_mono; [|apply Eclosed; lia]. simpl. lia.
  - apply Forall_cons. split; [|done].
    eapply loose_lookup; [|exact Croot]. apply Ht1, root_in_ids.
  - lia.
Qed.

(** A deep clone without a callback returns, given enough nested calls,
    and what it returns is a clone. *)
Lemma Node_clone_deep fuel : ∀ t st,
  height t ≤ fuel → scoped st → shaped (st_heap st) t →
  Forall (λ id, id < st_next st) (ids t) →
  ∃ t' st', Node_clone fuel (root t) true None st = Some (root t', st') ∧
            cloned st t st' t'.
Proof.
  induction fuel as [|f IH]; intros [id k ts] st Hheight Hscoped Hshaped Hold.
  { cbn [height] in Hheight. lia. }
  apply shaped_unfold in Hshaped as (Hk & Hkids & Hleaf & Hts).
  cbn [Node_clone root]. rewrite Node_clone_body_eq. rewrite Hk. cbn zeta.
  cbn [alloc fst].
  assert (Hid : id < st_next st).
  { rewrite Forall_forall in Hold. apply Hold. apply (root_in_ids (TNode id k ts)). }
  assert (Hscoped1 : scoped (alloc k st).2) by (by apply alloc_scoped).
  assert (Hsub : Forall (λ t, height t ≤ f) ts).
  { apply Forall_forall. intros t Ht.
    pose proof (height_child id k ts t Ht). lia. }
  assert (Hshaped1 : Forall (shaped (st_heap (alloc k st).2)) ts).
  { rewrite Forall_forall in Hts. rewrite Forall_forall in Hold.
    apply Forall_forall. intros t Ht.
    apply (shaped_lookup (st_heap st)); [|by apply Hts].
    intros x Hx. apply alloc_other.
    assert (x < st_next st); [|lia]. apply Hold. by eapply ids_child. }
  assert (Hold1 : Forall (λ t, Forall (λ x, x < st_next (alloc k st).2) (ids t)) ts).
  { rewrite Forall_forall in Hold. apply Forall_forall. intros t Ht.
    apply Forall_forall. intros x Hx.
    cbn [alloc snd st_next]. assert (x < st_next st); [|lia].
    apply Hold. by eapply ids_child. }
  destruct (isNodeWithChildrenKind k) eqn:Hkind.
  - unfold processClonedParentNode, processClonedNode, cloneChildNodes.
    assert (Hkids1 : childNodes (st_heap (alloc k st).2) id = root <$> ts).
    { rewrite <- Hkids.
      destruct (fields_of_lookup (st_heap st) (st_heap (alloc k st).2) id)
        as (_ & _ & _ & _ & Hc); [|done].
      apply alloc_other. lia. }
    rewrite Hkids1.
    destruct (cloneEach_deep f IH ts (alloc k st).2 Hsub Hscoped1 Hshaped1 Hold1)
      as (ts' & st2 & Heach & Hall).
    case_decide as Hlen.
    + rewrite Heach. cbn [returning].
      exists (TNode (st_next st) k ts'), (on_heap (appendChildNodes (st_next st) (root <$> ts')) st2).
      split; [done|]. by apply clone_assemble; [exact Hscoped|by rewrite Hkind|exact Hall].
    + destruct ts as [|t0 ts0]; [|rewrite fmap_cons in Hlen; simpl in Hlen; lia].
      cbn [returning].
      exists (TNode (st_next st) k []), (alloc k st).2. split; [done|].
      apply (clone_assemble k id [] [] st (alloc k st).2); [exact Hscoped|by rewrite Hkind|].
      by apply cloned_each_nil.
  - rewrite (Hleaf eq_refl) in *. unfold processClonedNode.
    exists (TNode (st_next st) k []), (alloc k st).2. split; [done|].
    apply (clone_assemble k id [] [] st (alloc k st).2); [exact Hscoped|done|].
    by apply cloned_each_nil.
Qed.
End CloneDeep.

(** ** Mutations stay within a closed part of the heap *)

Section Regions.
Import Dom.
Implicit Types (h : Heap) (n m p c P node : nid) (l : list nid) (R : nid → Prop).

(** Splits on every optional field the goal still inspects. *)
Ltac split_options :=
  repeat match goal with
         | |- context [match ?x with Some _ => _ | None => _ end] => destruct x eqn:?
         end.

(** Rewrites the lookups at a node that no write of the goal touches. *)
Ltac untouched :=
  unfold set_parentNode, set_prevSibling, set_nextSibling, set_childNodes;
  rewrite ?update_other by congruence; try done.

Lemma detatchNode_other node m h :
  m ≠ node → parentNode h node ≠ Some m →
  prevSibling h node ≠ Some m → nextSibling h node ≠ Some m →
  detatchNode node h !! m = h !! m.
Proof.
  intros Hm Hp Hv Hx. unfold detatchNode. cbn zeta.
  split_options; autorewrite with fields in *; repeat case_decide; untouched.
Qed.

Lemma appendChild_other parent child m h :
  m ≠ child → m ≠ parent →
  last (childNodes (detatchNode child h) parent) ≠ Some m →
  appendChild parent child h !! m = detatchNode child h !! m.
Proof.
  intros Hc Hp Hl. unfold appendChild, lastChild. cbn zeta.
  rewrite getLastNode_last. split_options; untouched.
Qed.

Lemma prependChild_other parent child m h :
  m ≠ child → m ≠ parent →
  head (childNodes (detatchNode child h) parent) ≠ Some m →
  prependChild parent child h !! m = detatchNode child h !! m.
Proof.
  intros Hc Hp Hl. unfold prependChild, firstChild. cbn zeta.
  rewrite getFirstNode_head. split_options; untouched.
Qed.

Lemma appendSibling_other node after m h :
  isDocumentNode h after = false →
  m ≠ node → m ≠ after →
  parentNode (detatchNode node h) after ≠ Some m →
  nextSibling (detatchNode node h) after ≠ Some m →
  heap_of (appendSibling node after h) !! m = detatchNode node h !! m.
Proof.
  intros Hdoc Hn Ha Hp Hx. unfold appendSibling. rewrite Hdoc.
  cbn zeta. cbn [heap_of].
  split_options; autorewrite with fields in *; repeat case_decide; untouched.
Qed.

Lemma prependSibling_other node before m h :
  isDocumentNode h before = false →
  m ≠ node → m ≠ before →
  parentNode (detatchNode node h) before ≠ Some m →
  prevSibling (detatchNode node h) before ≠ Some m →
  heap_of (prependSibling node before h) !! m = detatchNode node h !! m.
Proof.
  intros Hdoc Hn Ha Hp Hx. unfold prependSibling. rewrite Hdoc.
  cbn zeta. cbn [heap_of].
  split_options; autorewrite with fields in *; repeat case_decide; untouched.
Qed.

(** *** detatchNode *)

Lemma detatchNode_region R node h :
  region R h → R node → region R (detatchNode node h).
Proof.
  intros Hreg Hn m Hm.
  destruct (Hreg m Hm) as (M1 & M2 & M3 & M4).
  destruct (Hreg node Hn) as (N1 & N2 & N3 & N4).
  repeat split; intros x.
  - rewrite detatchNode_parentNode. case_decide; [done|apply M1].
  - rewrite detatchNode_prevSibling. repeat case_decide; eauto. done.
  - rewrite detatchNode_nextSibling. repeat case_decide; eauto. done.
  - rewrite detatchNode_childNodes. case_decide; [|apply M4].
    rewrite list_elem_of_filter. intros [_ Hin]. by apply M4.
Qed.

Lemma detatchNode_outside R node m h :
  region R h → R node → ¬ R m → detatchNode node h !! m = h !! m.
Proof.
  intros Hreg Hn Hm. destruct (Hreg node Hn) as (N1 & N2 & N3 & N4).
  apply detatchNode_other.
  - intros ->. done.
  - intros Hp. by apply Hm, N1.
  - intros Hp. by apply Hm, N2.
  - intros Hp. by apply Hm, N3.
Qed.

Lemma region_last R h p x : region R h → R p → last (childNodes h p) = Some x → R x.
Proof.
  intros Hreg Hp Hl. destruct (Hreg p Hp) as (_ & _ & _ & N4). apply N4.
  rewrite last_lookup in Hl. by eapply list_elem_of_lookup_2.
Qed.

Lemma region_head R h p x : region R h → R p → head (childNodes h p) = Some x → R x.
Proof.
  intros Hreg Hp Hl. destruct (Hreg p Hp) as (_ & _ & _ & N4). apply N4.
  rewrite head_lookup in Hl. by eapply list_elem_of_lookup_2.
Qed.

(** *** appendChild and prependChild *)

Lemma appendChild_region R parent child h :
  region R h → R parent → R child → region R (appendChild parent child h).
Proof.
  intros Hreg HP Hc m Hm.
  pose proof (detatchNode_region R child h Hreg Hc) as Hreg1.
  destruct (Hreg m Hm) as (M1 & _ & _ & _).
  destruct (Hreg1 m Hm) as (_ & M2 & M3 & M4).
  repeat split; intros x.
  - rewrite appendChild_parentNode. case_decide; [by intros [= <-]|apply M1].
  - rewrite appendChild_prevSibling. case_decide; [|apply M2].
    by apply (region_last R (detatchNode child h) parent).
  - rewrite appendChild_nextSibling. case_decide; [by intros [= <-]|apply M3].
  - rewrite appendChild_childNodes. case_decide; [|apply M4]. subst m.
    rewrite elem_of_app, list_elem_of_singleton. intros [Hin| ->]; [by apply M4|done].
Qed.

Lemma appendChild_outside R parent child m h :
  region R h → R parent → R child → ¬ R m → appendChild parent child h !! m = h !! m.
Proof.
  intros Hreg HP Hc Hm.
  pose proof (detatchNode_region R child h Hreg Hc) as Hreg1.
  rewrite appendChild_other.
  - by apply (detatchNode_outside R).
  - intros ->. done.
  - intros ->. done.
  - intros Hl. apply Hm. by apply (region_last R (detatchNode child h) parent).
Qed.

Lemma prependChild_region R parent child h :
  region R h → R parent → R child → region R (prependChild parent child h).
Proof.
  intros Hreg HP Hc m Hm.
  pose proof (detatchNode_region R child h Hreg Hc) as Hreg1.
  destruct (Hreg m Hm) as (M1 & _ & _ & _).
  destruct (Hreg1 m Hm) as (_ & M2 & M3 & M4).
  repeat split; intros x.
  - rewrite prependChild_parentNode. case_decide; [by intros [= <-]|apply M1].
  - rewrite prependChild_prevSibling. case_decide; [by intros [= <-]|apply M2].
  - rewrite prependChild_nextSibling. case_decide; [|apply M3].
    by apply (region_head R (detatchNode child h) parent).
  - rewrite prependChild_childNodes. case_decide; [|apply M4]. subst m.
    rewrite elem_of_cons. intros [->|Hin]; [done|by apply M4].
Qed.

Lemma prependChild_outside R parent child m h :
  region R h → R parent → R child → ¬ R m → prependChild parent child h !! m = h !! m.
Proof.
  intros Hreg HP Hc Hm.
  pose proof (detatchNode_region R child h Hreg Hc) as Hreg1.
  rewrite prependChild_other.
  - by apply (detatchNode_outside R).
  - intros ->. done.
  - intros ->. done.
  - intros Hl. apply Hm. by apply (region_head R (detatchNode child h) parent).
Qed.

(** *** appendSibling and prependSibling *)

Lemma appendSibling_region R node after h :
  region R h → R node → R after → region R (heap_of (appendSibling node after h)).
Proof.
  intros Hreg Hn Ha.
  destruct (isDocumentNode h after) eqn:Hdoc.
  { unfold appendSibling. by rewrite Hdoc. }
  intros m Hm.
  pose proof (detatchNode_region R node h Hreg Hn) as Hreg1.
  destruct (Hreg1 m Hm) as (M1 & M2 & M3 & M4).
  destruct (Hreg1 after Ha) as (A1 & A2 & A3 & A4).
  repeat split; intros x.
  - rewrite appendSibling_parentNode by done. case_decide; [apply A1|apply M1].
  - rewrite appendSibling_prevSibling by done.
    repeat case_decide; [by intros [= <-]|by intros [= <-]|apply M2].
  - rewrite appendSibling_nextSibling by done.
    repeat case_decide; [by intros [= <-]|apply A3|apply M3].
  - rewrite appendSibling_childNodes by done. case_decide; [|apply M4].
    rewrite elem_of_splice_insert. intros [->|Hin]; [done|by apply M4].
Qed.

Lemma appendSibling_outside R node after m h :
  region R h → R node → R after → ¬ R m →
  heap_of (appendSibling node after h) !! m = h !! m.
Proof.
  intros Hreg Hn Ha Hm.
  destruct (isDocumentNode h after) eqn:Hdoc.
  { unfold appendSibling. by rewrite Hdoc. }
  pose proof (detatchNode_region R node h Hreg Hn) as Hreg1.
  destruct (Hreg1 after Ha) as (A1 & A2 & A3 & A4).
  rewrite appendSibling_other.
  - by apply (detatchNode_outside R).
  - done.
  - intros ->. done.
  - intros ->. done.
  - intros Hp. by apply Hm, A1.
  - intros Hp. by apply Hm, A3.
Qed.

Lemma prependSibling_region R node before h :
  region R h → R node → R before → region R (heap_of (prependSibling node before h)).
Proof.
  intros Hreg Hn Ha.
  destruct (isDocumentNode h before) eqn:Hdoc.
  { unfold prependSibling. by rewrite Hdoc. }
  intros m Hm.
  pose proof (detatchNode_region R node h Hreg Hn) as Hreg1.
  destruct (Hreg1 m Hm) as (M1 & M2 & M3 & M4).
  destruct (Hreg1 before Ha) as (A1 & A2 & A3 & A4).
  repeat split; intros x.
  - rewrite prependSibling_parentNode by done. case_decide; [apply A1|apply M1].
  - rewrite prependSibling_prevSibling by done.
    repeat case_decide; [by intros [= <-]|apply A2|apply M2].
  - rewrite prependSibling_nextSibling by done.
    repeat case_decide; [by intros [= <-]|by intros [= <-]|apply M3].
  - rewrite prependSibling_childNodes by done. case_decide; [|apply M4].
    rewrite elem_of_splice_insert. intros [->|Hin]; [done|by apply M4].
Qed.

Lemma prependSibling_outside R node before m h :
  region R h → R node → R before → ¬ R m →
  heap_of (prependSibling node before h) !! m = h !! m.
Proof.
  intros Hreg Hn Ha Hm.
  destruct (isDocumentNode h before) eqn:Hdoc.
  { unfold prependSibling. by rewrite Hdoc. }
  pose proof (detatchNode_region R node h Hreg Hn) as Hreg1.
  destruct (Hreg1 before Ha) as (A1 & A2 & A3 & A4).
  rewrite prependSibling_other.
  - by apply (detatchNode_outside R).
  - done.
  - intros ->. done.
  - intros ->. done.
  - intros Hp. by apply Hm, A1.
  - intros Hp. by apply Hm, A2.
Qed.

(** *** replaceNode, appendChildNodes and swapNode *)

Lemma replaceNode_loop_region R replacements : ∀ prevNode h,
  region R h → R prevNode → Forall R replacements →
  region R (heap_of (replaceNode_loop prevNode replacements h)) ∧
  (∀ m, ¬ R m → heap_of (replaceNode_loop prevNode replacements h) !! m = h !! m).
Proof.
  induction replacements as [|newNode rest IH]; intros prevNode h Hreg Hp Hall; [done|].
  apply Forall_cons in Hall as [Hnew Hall].
  cbn [replaceNode_loop]. unfold Node_appendSibling.
  pose proof (appendSibling_region R newNode prevNode h Hreg Hnew Hp) as Hreg1.
  pose proof (λ m, appendSibling_outside R newNode prevNode m h Hreg Hnew Hp) as Hout1.
  destruct (appendSibling newNode prevNode h) as [h'|e h']; [|done].
  cbn [heap_of] in Hreg1, Hout1.
  destruct (IH newNode h' Hreg1 Hnew Hall) as [IHreg IHout]. split; [done|].
  intros m Hm. rewrite IHout by done. by apply Hout1.
Qed.

Lemma replaceNode_region R remove replacements h :
  region R h → R remove → Forall R replacements →
  region R (heap_of (replaceNode remove replacements h)) ∧
  (∀ m, ¬ R m → heap_of (replaceNode remove replacements h) !! m = h !! m).
Proof.
  intros Hreg Hm Hall. unfold replaceNode.
  destruct (replaceNode_loop_region R replacements remove h Hreg Hm Hall) as [Lreg Lout].
  destruct (replaceNode_loop remove replacements h) as [h'|e h']; [|done].
  cbn [heap_of] in *. split.
  - by apply detatchNode_region.
  - intros m Hout. rewrite (detatchNode_outside R) by done. by apply Lout.
Qed.

Lemma appendChildNodes_region R parent l : ∀ h,
  region R h → R parent → Forall R l →
  region R (appendChildNodes parent l h) ∧
  (∀ m, ¬ R m → appendChildNodes parent l h !! m = h !! m).
Proof.
  induction l as [|c l IH]; intros h Hreg Hp Hall; [done|].
  apply Forall_cons in Hall as [Hc Hall]. cbn [appendChildNodes].
  destruct (IH (appendChild parent c h)) as [IHreg IHout]; [|done|done|].
  { by apply appendChild_region. }
  split; [done|]. intros m Hm. rewrite IHout by done. by apply (appendChild_outside R).
Qed.

Lemma swapNode_region R remove replacement h :
  region R h → R remove → R replacement →
  region R (heap_of (swapNode remove replacement h)) ∧
  (∀ m, ¬ R m → heap_of (swapNode remove replacement h) !! m = h !! m).
Proof.
  intros Hreg Hm Hr. unfold swapNode, Node_replaceSelf, Node_appendChildren.
  destruct (appendChildNodes_region R replacement (childNodes h remove) h)
    as [Creg Cout]; [done|done| |].
  { apply Forall_forall. intros c Hc. destruct (Hreg remove Hm) as (_ & _ & _ & N4).
    by apply N4. }
  destruct (replaceNode_region R remove [replacement]
              (appendChildNodes replacement (childNodes h remove) h))
    as [Rreg Rout]; [done|done|by apply Forall_singleton|].
  split; [done|]. intros m Hout. rewrite Rout by done. by apply Cout.
Qed.

(** *** Changes of the data of a node *)

Lemma with_kind_region R k node h :
  region R h → R node →
  region R (update (with_kind k) node h) ∧
  (∀ m, ¬ R m → update (with_kind k) node h !! m = h !! m).
Proof.
  intros Hreg Hnode. split.
  - intros n Hn. specialize (Hreg n Hn). revert Hreg.
    unfold links_in, parentNode, prevSibling, nextSibling, childNodes.
    rewrite update_lookup. by case_decide; simplify_eq.
  - intros m Hm. apply update_other. by intros ->.
Qed.

Lemma setText_region R node text h :
  region R h → R node →
  region R (setText node text h) ∧ (∀ m, ¬ R m → setText node text h !! m = h !! m).
Proof.
  intros Hreg Hnode. unfold setText.
  destruct (nodeKind h node); try done; by apply with_kind_region.
Qed.

Lemma changeAttributes_region R f node h :
  region R h → R node →
  region R (changeAttributes f node h) ∧
  (∀ m, ¬ R m → changeAttributes f node h !! m = h !! m).
Proof.
  intros Hreg Hnode. unfold changeAttributes.
  destruct (onAttributes f (nodeKind h node)); [by apply with_kind_region|done].
Qed.

(** *** Any sequence of mutations *)

Lemma mutate_region R mu h :
  region R h → mutates_in R mu →
  region R (mutate h mu) ∧ (∀ m, ¬ R m → mutate h mu !! m = h !! m).
Proof.
  intros Hreg Hin. destruct mu; cbn [mutate mutates_in] in *.
  - split; [by apply detatchNode_region|]. intros m Hm. by apply (detatchNode_outside R).
  - destruct Hin. split; [by apply appendChild_region|].
    intros m Hm. by apply (appendChild_outside R).
  - destruct Hin. split; [by apply prependChild_region|].
    intros m Hm. by apply (prependChild_outside R).
  - destruct Hin. split; [by apply appendSibling_region|].
    intros m Hm. by apply (appendSibling_outside R).
  - destruct Hin. split; [by apply prependSibling_region|].
    intros m Hm. by apply (prependSibling_outside R).
  - destruct Hin. by apply replaceNode_region.
  - destruct Hin. by apply swapNode_region.
  - by apply setText_region.
  - by apply changeAttributes_region.
  - by apply changeAttributes_region.
Qed.

Lemma mutations_region R mus : ∀ h,
  region R h → Forall (mutates_in R) mus →
  region R (foldl mutate h mus) ∧ (∀ m, ¬ R m → foldl mutate h mus !! m = h !! m).
Proof.
  induction mus as [|mu mus IH]; intros h Hreg Hall; [done|].
  apply Forall_cons in Hall as [Hmu Hall]. cbn [foldl].
  destruct (mutate_region R mu h Hreg Hmu) as [Mreg Mout].
  destruct (IH (mutate h mu) Mreg Hall) as [IHreg IHout].
  split; [done|]. intros m Hm. rewrite IHout by done. by apply Mout.
Qed.
End Regions.

(** ** getOrParseFragment *)

Section FragmentFetch.
Import Dom Pipeline.
Context {Backend EvalContent EvalContext EvalError InterfaceError : Type}.
Variable pipelineInterface : @PipelineInterface Backend InterfaceError.
Variable parseFragment : string → string → Store → Fragment * Store.

Implicit Types (s : @State Backend EvalContent EvalContext) (st : Store) (t : Tree).


Lemma scoped_ok_sound st : scoped_ok st = true → scoped st.
Proof.
  intros Hok. unfold scoped_ok in Hok. rewrite forallb_forall in Hok.
  assert (Hnode : ∀ n nd, st_heap st !! n = Some nd →
            n < st_next st ∧ below (st_next st) (nd_parent nd) = true ∧
            below (st_next st) (nd_prev nd) = true ∧
            below (st_next st) (nd_next nd) = true ∧
            ∀ c, c ∈ nd_children nd → c < st_next st).
  { intros n nd Hn. specialize (Hok (n, nd)). cbn beta iota in Hok.
    rewrite !andb_true_iff in Hok. destruct Hok as [[[[H1 H2] H3] H4] H5].
    { apply list_elem_of_In. by apply elem_of_map_to_list. }
    apply bool_decide_eq_true in H1. rewrite forallb_forall in H5.
    repeat split; try done. intros c Hc%list_elem_of_In.
    specialize (H5 c Hc). by apply bool_decide_eq_true in H5. }
  split.
  - intros m Hm. destruct (st_heap st !! m) as [nd|] eqn:Hnd; [|done].
    destruct (Hnode m nd Hnd). lia.
  - intros n. destruct (st_heap st !! n) as [nd|] eqn:Hnd.
    + destruct (Hnode n nd Hnd) as (_ & H2 & H3 & H4 & H5).
      unfold links_in, parentNode, prevSibling, nextSibling, childNodes.
      rewrite (lookup_total_correct _ _ _ Hnd).
      repeat split; try done; intros x Hx.
      * rewrite Hx in H2. by apply bool_decide_eq_true in H2.
      * rewrite Hx in H3. by apply bool_decide_eq_true in H3.
      * rewrite Hx in H4. by apply bool_decide_eq_true in H4.
    + by apply links_in_blank.
Qed.

(** A store stays scoped under mutations of nodes that were allocated. *)
Lemma mutate_store_scoped st mus :
  scoped st → Forall (mutates_in (λ x, x < st_next st)) mus →
  scoped (mutate_store st mus).
Proof.
  intros [Hblank Hlinks] Hmus.
  destruct (mutations_region (λ x, x < st_next st) mus (st_heap st)) as [Hreg Hout].
  { intros n _. apply Hlinks. }
  { done. }
  split; cbn [mutate_store st_heap st_next].
  - intros m Hm. rewrite Hout by lia. by apply Hblank.
  - intros n. destruct (decide (n < st_next st)) as [Hn|Hn]; [by apply Hreg|].
    apply links_in_blank. rewrite Hout by lia. apply Hblank. lia.
Qed.




End FragmentFetch.

Section FragmentFetchWitness.
Import Dom Pipeline Examples.

End FragmentFetchWitness.

(** * Properties of the other functions *)

(** ** Searching and walking the tree *)

Section SearchFacts.
Import Dom Search.
Implicit Types (h : Heap) (t : Tree) (ts : list Tree) (matcher : nid → bool).

Lemma height_children_le fuel id k ts :
  height (TNode id k ts) ≤ S fuel → Forall (λ t, height t ≤ fuel) ts.
Proof.
  intros Hh. apply Forall_forall. intros t Ht.
  pose proof (height_child id k ts t Ht). lia.
Qed.

Lemma shaped_leaf h t :
  shaped h t → isNodeWithChildren h (root t) = false → subtrees t = [].
Proof.
  destruct t as [id k ts]. rewrite shaped_unfold. intros (Hk & _ & Hleaf & _) Hno.
  apply Hleaf. unfold isNodeWithChildren in Hno. simpl in Hno. by rewrite Hk in Hno.
Qed.

Lemma findChildNodes_loop_deep h matcher rec ts :
  Forall (λ t, shaped h t ∧ ∀ matches,
            rec (root t) matcher true matches
            = Some (matches ++ filter (λ n, Is_true (matcher n)) (descendants t))) ts →
  ∀ matches,
    findChildNodes_loop h rec (root <$> ts) matcher true matches
    = Some (matches ++ filter (λ n, Is_true (matcher n)) (ts ≫= ids)).
Proof.
  induction 1 as [|t ts [Hshaped Hrec] _ IH]; intros matches.
  - simpl. by rewrite app_nil_r.
  - rewrite fmap_cons. cbn [findChildNodes_loop]. rewrite bind_cons.
    destruct t as [id k ts0]. cbn [root ids] in *.
    rewrite filter_app, filter_cons. cbn [andb].
    destruct (isNodeWithChildren h id) eqn:Hwith.
    + rewrite Hrec, IH. unfold descendants. cbn [subtrees].
      destruct (matcher id); simpl; by rewrite <- ?app_assoc.
    + pose proof (shaped_leaf h _ Hshaped Hwith) as Hnil. cbn [subtrees] in Hnil. subst ts0.
      rewrite IH. simpl.
      destruct (matcher id); simpl; by rewrite <- ?app_assoc.
Qed.

Lemma findChildNodes_deep h matcher fuel : ∀ t matches,
  shaped h t → height t ≤ fuel →
  findChildNodes h fuel (root t) matcher true matches
  = Some (matches ++ filter (λ n, Is_true (matcher n)) (descendants t)).
Proof.
  induction fuel as [|fuel IH]; intros [id k ts] matches Hshaped Hheight.
  { cbn [height] in Hheight. lia. }
  cbn [findChildNodes root].
  pose proof Hshaped as Hs. rewrite shaped_unfold in Hs. destruct Hs as (_ & Hch & _ & Hts).
  rewrite Hch. unfold descendants. cbn [subtrees].
  apply findChildNodes_loop_deep.
  pose proof (height_children_le _ _ _ _ Hheight) as Hhs.
  rewrite Forall_forall in Hts, Hhs. apply Forall_forall. intros t Ht.
  split; [by apply Hts|]. intros m. apply IH; [by apply Hts|by apply Hhs].
Qed.

Lemma findChildNodes_loop_flat h matcher rec l : ∀ matches,
  findChildNodes_loop h rec l matcher false matches
  = Some (matches ++ filter (λ n, Is_true (matcher n)) l).
Proof.
  induction l as [|c l IH]; intros matches.
  - simpl. by rewrite app_nil_r.
  - cbn [findChildNodes_loop andb]. rewrite IH, filter_cons.
    destruct (matcher c); simpl; by rewrite <- ?app_assoc.
Qed.

Lemma findChildNode_loop_deep h matcher rec ts :
  Forall (λ t, shaped h t ∧
            rec (root t) matcher true
            = Some (head (filter (λ n, Is_true (matcher n)) (descendants t)))) ts →
  findChildNode_loop h rec (root <$> ts) matcher true
  = Some (head (filter (λ n, Is_true (matcher n)) (ts ≫= ids))).
Proof.
  induction 1 as [|t ts [Hshaped Hrec] _ IH].
  - done.
  - rewrite fmap_cons. cbn [findChildNode_loop]. rewrite bind_cons.
    destruct t as [id k ts0]. cbn [root ids] in *.
    rewrite filter_app, filter_cons. cbn [andb].
    destruct (matcher id) eqn:Hm; simpl; [done|].
    destruct (isNodeWithChildren h id) eqn:Hwith.
    + rewrite Hrec. unfold descendants. cbn [subtrees].
      destruct (filter _ (ts0 ≫= ids)) as [|x l]; simpl; [exact IH|done].
    + pose proof (shaped_leaf h _ Hshaped Hwith) as Hnil. cbn [subtrees] in Hnil. subst ts0.
      simpl. exact IH.
Qed.

Lemma findChildNode_deep h matcher fuel : ∀ t,
  shaped h t → height t ≤ fuel →
  findChildNode h fuel (root t) matcher true
  = Some (head (filter (λ n, Is_true (matcher n)) (descendants t))).
Proof.
  induction fuel as [|fuel IH]; intros [id k ts] Hshaped Hheight.
  { cbn [height] in Hheight. lia. }
  cbn [findChildNode root].
  pose proof Hshaped as Hs. rewrite shaped_unfold in Hs. destruct Hs as (_ & Hch & _ & Hts).
  rewrite Hch. unfold descendants. cbn [subtrees].
  apply findChildNode_loop_deep.
  pose proof (height_children_le _ _ _ _ Hheight) as Hhs.
  rewrite Forall_forall in Hts, Hhs. apply Forall_forall. intros t Ht.
  split; [by apply Hts|]. apply IH; [by apply Hts|by apply Hhs].
Qed.

Lemma findChildNode_loop_flat h matcher rec l :
  findChildNode_loop h rec l matcher false
  = Some (head (filter (λ n, Is_true (matcher n)) l)).
Proof.
  induction l as [|c l IH]; [done|].
  cbn [findChildNode_loop andb]. rewrite filter_cons.
  destruct (matcher c); simpl; done.
Qed.

Lemma walkDom_loop_preorder {A} (rec : nid → (nid → A → A) → A → option A)
    (callback : nid → A → A) ts :
  Forall (λ t, ∀ a, rec (root t) callback a
                    = Some (foldl (λ a n, callback n a) a (ids t))) ts →
  ∀ a, walkDom_loop rec (root <$> ts) callback a
       = Some (foldl (λ a n, callback n a) a (ts ≫= ids)).
Proof.
  induction 1 as [|t ts Hrec _ IH]; intros a; [done|].
  rewrite fmap_cons. cbn [walkDom_loop]. rewrite Hrec, IH, bind_cons, foldl_app. done.
Qed.

(** The top level tags. *)
Lemma findTopLevelChildTags_loop_top h isTag matcher rec ts :
  Forall (λ t, shaped h t ∧ ∀ matches,
            rec (root t) matcher matches
            = Some (matches ++ (subtrees t ≫= topLevelTags h isTag matcher))) ts →
  ∀ matches,
    findTopLevelChildTags_loop h isTag rec (root <$> ts) matcher matches
    = Some (matches ++ (ts ≫= topLevelTags h isTag matcher)).
Proof.
  induction 1 as [|t ts [Hshaped Hrec] _ IH]; intros matches.
  - simpl. by rewrite app_nil_r.
  - rewrite fmap_cons. cbn [findTopLevelChildTags_loop]. rewrite bind_cons.
    destruct t as [id k ts0]. cbn [root topLevelTags subtrees] in *.
    destruct (isTagNode h isTag id && matcher id) eqn:Hm.
    + rewrite IH. by rewrite <- app_assoc.
    + destruct (isNodeWithChildren h id) eqn:Hwith.
      * rewrite Hrec, IH. by rewrite <- app_assoc.
      * pose proof (shaped_leaf h _ Hshaped Hwith) as Hnil. cbn [subtrees] in Hnil.
        subst ts0. rewrite IH. done.
Qed.

(** The path search: its recursion follows the list of matchers. *)
Lemma matchingChildTags_app h isTag matcher l1 l2 :
  matchingChildTags h isTag matcher (l1 ++ l2)
  = matchingChildTags h isTag matcher l1 ++ matchingChildTags h isTag matcher l2.
Proof. unfold matchingChildTags. apply bind_app. Qed.

Lemma matchingChildTags_one h isTag matcher node :
  matchingChildTags h isTag matcher [node]
  = filter (λ child, Is_true (isTagNode h isTag child && matcher child)) (childNodes h node).
Proof. unfold matchingChildTags. simpl. by rewrite app_nil_r. Qed.

Lemma foldl_matchingChildTags_app h isTag (ms : list (nid → bool)) : ∀ l1 l2,
  foldl (λ nodes m, matchingChildTags h isTag m nodes) (l1 ++ l2) ms
  = foldl (λ nodes m, matchingChildTags h isTag m nodes) l1 ms
    ++ foldl (λ nodes m, matchingChildTags h isTag m nodes) l2 ms.
Proof.
  induction ms as [|m ms IH]; intros l1 l2; [done|].
  cbn [foldl]. by rewrite matchingChildTags_app, IH.
Qed.

Lemma findChildTagsByPathAt_steps h isTag matchers fuel : ∀ root offset matches,
  offset < length matchers → length matchers - offset ≤ fuel →
  findChildTagsByPathAt h isTag fuel root matchers offset matches
  = Some (matches ++ foldl (λ nodes m, matchingChildTags h isTag m nodes) [root]
                       (drop offset matchers)).
Proof.
  induction fuel as [|fuel IH]; intros root offset matches Hlt Hfuel; [lia|].
  cbn [findChildTagsByPathAt]. unfold findChildTagsByPathAt_body.
  rewrite decide_True by done.
  destruct (lookup_lt_is_Some_2 matchers offset Hlt) as [matcher Hm]. rewrite Hm.
  rewrite (drop_S _ _ _ Hm). cbn [foldl].
  rewrite matchingChildTags_one.
  generalize (childNodes h root). intros l. revert matches.
  induction l as [|c l IHl]; intros matches.
  - simpl. clear. induction (drop (S offset) matchers) as [|m ms IHm]; simpl.
    + by rewrite app_nil_r.
    + exact IHm.
  - cbn [findChildTagsByPathAt_loop]. rewrite filter_cons.
    destruct (isTagNode h isTag c && matcher c) eqn:Hc; simpl.
    + change (c :: ?l) with ([c] ++ l). rewrite foldl_matchingChildTags_app.
      case_decide as Hlast.
      * rewrite IHl.
        assert (Hnil : drop (S offset) matchers = []).
        { apply drop_ge. lia. }
        rewrite Hnil. simpl. by rewrite <- app_assoc.
      * rewrite IH by lia. rewrite IHl.
        replace (offset + 1) with (S offset) by lia.
        destruct (lookup_lt_is_Some_2 matchers (S offset)) as [m' Hm']; [lia|].
        rewrite (drop_S _ _ _ Hm'). cbn [foldl].
        by rewrite <- app_assoc.
    + apply IHl.
Qed.
End SearchFacts.

Section SearchTheorems.
Import Dom Search Examples.
Implicit Types (h : Heap) (t : Tree) (ts : list Tree) (matcher : nid → bool).

Lemma page_shaped : shaped page page_tree.
Proof. cbn [shaped page_tree]. repeat split; try reflexivity; intros [=]. Qed.

(** X1.  On a node whose subtree is the finite tree [t], findChildNodes
    returns (given as many nested calls as the tree is high) the array
    it was given followed, when [deep] is set, by the nodes below the
    node that the matcher accepts, in document order (a node before the
    nodes below it, siblings in the order of the child list), and, when
    it is not set, by the children of the node that the matcher accepts,
    in their order. *)
Theorem findChildNodes_document_order h t fuel matcher (deep : bool) matches :
  shaped h t → height t ≤ fuel →
  findChildNodes h fuel (root t) matcher deep matches
  = Some (matches ++ filter (λ n, Is_true (matcher n))
                       (if deep then descendants t else childNodes h (root t))).
Proof.
  intros Hshaped Hheight. destruct deep.
  - by apply findChildNodes_deep.
  - destruct fuel as [|fuel]; [destruct t; cbn [height] in Hheight; lia|].
    cbn [findChildNodes]. apply findChildNodes_loop_flat.
Qed.

Lemma findChildNodes_document_order_witness :
  shaped page page_tree ∧
  findChildNodes page 3 0 Nat.even true [9] = Some [9; 4; 2] ∧
  findChildNodes page 3 0 Nat.even false [9] = Some [9; 2].
Proof.
  split; [exact page_shaped|]. split.
  - refine (findChildNodes_document_order page page_tree 3 Nat.even true [9] page_shaped _).
    vm_compute; lia.
  - refine (findChildNodes_document_order page page_tree 3 Nat.even false [9] page_shaped _).
    vm_compute; lia.
Defined.

(** X2.  findChildNode returns the first of the nodes that findChildNodes
    finds with the same arguments, and null when findChildNodes finds
    none: the first match in document order. *)
Theorem findChildNode_first_match h t fuel matcher (deep : bool) :
  shaped h t → height t ≤ fuel →
  ∃ found,
    findChildNodes h fuel (root t) matcher deep [] = Some found ∧
    findChildNode h fuel (root t) matcher deep = Some (head found).
Proof.
  intros Hshaped Hheight. eexists. split.
  - by apply findChildNodes_document_order.
  - rewrite app_nil_l. destruct deep.
    + by apply findChildNode_deep.
    + destruct fuel as [|fuel]; [destruct t; cbn [height] in Hheight; lia|].
      cbn [findChildNode]. apply findChildNode_loop_flat.
Qed.

Lemma findChildNode_first_match_witness :
  shaped page page_tree ∧
  ∃ found,
    findChildNodes page 3 0 Nat.even true [] = Some found ∧
    findChildNode page 3 0 Nat.even true = Some (head found).
Proof.
  split; [exact page_shaped|].
  refine (findChildNode_first_match page page_tree 3 Nat.even true page_shaped _).
  vm_compute; lia.
Defined.

Lemma menu_shaped : shaped menu menu_tree.
Proof. cbn [shaped menu_tree]. repeat split; try reflexivity; intros [=]. Qed.

Lemma findChildNode_loop_matches h matcher rec :
  (∀ p d x, rec p matcher d = Some (Some x) → matcher x = true) →
  ∀ l deep x, findChildNode_loop h rec l matcher deep = Some (Some x) → matcher x = true.
Proof.
  intros Hrec l deep x. induction l as [|c l IH]; [done|].
  cbn [findChildNode_loop].
  destruct (matcher c) eqn:Hc; [by intros [= <-]|].
  destruct (deep && isNodeWithChildren h c); [|exact IH].
  destruct (rec c matcher true) as [[y|]|] eqn:Hy; [|exact IH|done].
  intros [= <-]. by eapply Hrec.
Qed.

Lemma findChildNode_matches h matcher fuel : ∀ parent deep x,
  findChildNode h fuel parent matcher deep = Some (Some x) → matcher x = true.
Proof.
  induction fuel as [|fuel IH]; intros parent deep x; [done|].
  cbn [findChildNode]. by apply findChildNode_loop_matches.
Qed.

Lemma findChildNodes_loop_matches h matcher rec :
  (∀ p d matches found, rec p matcher d matches = Some found →
     ∀ x, x ∈ found → x ∈ matches ∨ matcher x = true) →
  ∀ l deep matches found,
    findChildNodes_loop h rec l matcher deep matches = Some found →
    ∀ x, x ∈ found → x ∈ matches ∨ matcher x = true.
Proof.
  intros Hrec l deep. induction l as [|c l IH]; intros matches found.
  - intros [= <-] x Hx. by left.
  - cbn [findChildNodes_loop].
    assert (Hone : ∀ x, x ∈ (if matcher c then matches ++ [c] else matches) →
                        x ∈ matches ∨ matcher x = true).
    { intros x. destruct (matcher c) eqn:Hc; [|by left].
      rewrite elem_of_app, list_elem_of_singleton. intros [?| ->]; [by left|by right]. }
    destruct (deep && isNodeWithChildren h c).
    + destruct (rec c matcher true _) as [matches2|] eqn:Hrec2; [|done].
      intros Hloop x Hx.
      destruct (IH _ _ Hloop x Hx) as [Hin|?]; [|by right].
      destruct (Hrec _ _ _ _ Hrec2 x Hin) as [Hin'|?]; [|by right].
      by apply Hone.
    + intros Hloop x Hx.
      destruct (IH _ _ Hloop x Hx) as [Hin|?]; [|by right]. by apply Hone.
Qed.

Lemma findChildNodes_matches h matcher fuel : ∀ parent deep matches found,
  findChildNodes h fuel parent matcher deep matches = Some found →
  ∀ x, x ∈ found → x ∈ matches ∨ matcher x = true.
Proof.
  induction fuel as [|fuel IH]; intros parent deep matches found; [done|].
  cbn [findChildNodes]. by apply findChildNodes_loop_matches.
Qed.

(** X3.  A node that findChildTag returns, and every node that
    findChildTags returns, is a tag node that the matcher accepts: the
    casts to TagNode of the two functions are safe.  (In every heap and
    for every bound on the recursion.) *)
Theorem findChildTags_only_tags h isTag fuel parent matcher (deep : bool) :
  (∀ x, findChildTag h isTag fuel parent matcher deep = Some (Some x) →
        isTagNode h isTag x = true ∧ matcher x = true) ∧
  (∀ found, findChildTags h isTag fuel parent matcher deep = Some found →
            Forall (λ x, isTagNode h isTag x = true ∧ matcher x = true) found).
Proof.
  split.
  - intros x Hx. apply findChildNode_matches in Hx. by apply andb_true_iff.
  - intros found Hfound. apply Forall_forall. intros x Hx.
    destruct (findChildNodes_matches _ _ _ _ _ _ _ Hfound x Hx) as [Hin|Hm].
    + by apply elem_of_nil in Hin.
    + by apply andb_true_iff.
Qed.

Lemma findChildTags_only_tags_witness :
  findChildTag menu plain_tag 4 0 (λ n, bool_decide (3 < n)) true = Some (Some 5) ∧
  isTagNode menu plain_tag 5 = true.
Proof.
  split; [reflexivity|].
  apply (proj1 (findChildTags_only_tags menu plain_tag 4 0 (λ n, bool_decide (3 < n)) true) 5).
  reflexivity.
Defined.

(** X4.  getChildTags(parent) is what findChildTags(parent, matcher,
    false) returns for the matcher that accepts every tag. *)
Theorem getChildTags_is_findChildTags h isTag fuel parent :
  findChildTags h isTag (S fuel) parent (λ _, true) false
  = Some (getChildTags h isTag parent).
Proof.
  unfold findChildTags, getChildTags. cbn [findChildNodes].
  rewrite findChildNodes_loop_flat, app_nil_l. f_equal.
  apply list_filter_iff. intros x. by rewrite andb_true_r.
Qed.

(** X5.  walkDom calls the callback once with each node of a finite
    tree, in document order: with a node before the nodes below it, and
    with the children in the order of the child list. *)
Theorem walkDom_preorder {A} h t fuel (callback : nid → A → A) (a : A) :
  shaped h t → height t ≤ fuel →
  walkDom h fuel (root t) callback a = Some (foldl (λ a n, callback n a) a (ids t)).
Proof.
  revert t a. induction fuel as [|fuel IH]; intros [id k ts] a Hshaped Hheight.
  { cbn [height] in Hheight. lia. }
  cbn [walkDom root ids foldl].
  pose proof Hshaped as Hs. rewrite shaped_unfold in Hs. destruct Hs as (_ & Hch & _ & Hts).
  destruct (isNodeWithChildren h id) eqn:Hwith.
  - rewrite Hch. apply walkDom_loop_preorder.
    pose proof (height_children_le _ _ _ _ Hheight) as Hhs.
    rewrite Forall_forall in Hts, Hhs. apply Forall_forall. intros t Ht a'.
    apply IH; [by apply Hts|by apply Hhs].
  - pose proof (shaped_leaf h _ Hshaped Hwith) as Hnil. cbn [subtrees] in Hnil. subst ts.
    done.
Qed.

Lemma walkDom_preorder_witness :
  shaped page page_tree ∧
  walkDom page 3 0 (λ n visited, visited ++ [n]) [] = Some [0; 1; 3; 4; 2; 5].
Proof.
  split; [exact page_shaped|].
  refine (walkDom_preorder page page_tree 3 (λ n visited, visited ++ [n]) [] page_shaped _).
  vm_compute; lia.
Defined.

(** X6.  findChildTagsByPath returns no node for an empty list of
    matchers.  For the matchers m1, ..., mn it returns the tag children
    that mn accepts of the tag children that m(n-1) accepts of ... of the
    tag children of the root that m1 accepts, in order.  Its recursion is
    as deep as the list of matchers is long, in every heap. *)
Theorem findChildTagsByPath_levels h isTag fuel root (matchers : list (nid → bool)) :
  length matchers ≤ fuel →
  findChildTagsByPath h isTag (S fuel) root matchers
  = Some (match matchers with
          | [] => []
          | _ => foldl (λ nodes m, matchingChildTags h isTag m nodes) [root] matchers
          end).
Proof.
  intros Hfuel. unfold findChildTagsByPath. destruct matchers as [|m ms].
  - done.
  - rewrite findChildTagsByPathAt_steps; [done|simpl; lia|simpl in *; lia].
Qed.

Lemma findChildTagsByPath_levels_witness :
  findChildTagsByPath menu plain_tag 3 0 [named menu "ul"; named menu "li"] = Some [2; 3].
Proof.
  refine (findChildTagsByPath_levels menu plain_tag 2 0 [named menu "ul"; named menu "li"] _).
  simpl; lia.
Defined.

(** X7.  On a node whose subtree is a finite tree, findTopLevelChildTags
    returns the array it was given followed by the matching tags below
    the node that are below no other matching tag, in document order:
    the search does not look below a match. *)
Theorem findTopLevelChildTags_stops_at_match h isTag t fuel matcher matches :
  shaped h t → height t ≤ fuel →
  findTopLevelChildTags h isTag fuel (root t) matcher matches
  = Some (matches ++ (subtrees t ≫= topLevelTags h isTag matcher)).
Proof.
  revert t matches. induction fuel as [|fuel IH]; intros [id k ts] matches Hshaped Hheight.
  { cbn [height] in Hheight. lia. }
  cbn [findTopLevelChildTags root subtrees].
  pose proof Hshaped as Hs. rewrite shaped_unfold in Hs. destruct Hs as (_ & Hch & _ & Hts).
  rewrite Hch. apply findTopLevelChildTags_loop_top.
  pose proof (height_children_le _ _ _ _ Hheight) as Hhs.
  rewrite Forall_forall in Hts, Hhs. apply Forall_forall. intros t Ht.
  split; [by apply Hts|]. intros m. apply IH; [by apply Hts|by apply Hhs].
Qed.

Lemma findTopLevelChildTags_stops_at_match_witness :
  shaped menu menu_tree ∧
  findTopLevelChildTags menu plain_tag 5 0 (named menu "li") [] = Some [2; 3] ∧
  findChildTags menu plain_tag 5 0 (named menu "li") true = Some [2; 3; 6].
Proof.
  split; [exact menu_shaped|]. split; [|reflexivity].
  refine (findTopLevelChildTags_stops_at_match menu plain_tag menu_tree 5 (named menu "li") []
            menu_shaped _).
  vm_compute; lia.
Defined.
End SearchTheorems.

(** ** Child lists: insertion, removal, order *)

Section MoreChildFacts.
Import Dom Examples.
Implicit Types (h : Heap) (n m p c P : nid) (l : list nid).

Lemma detatched_childNodes h c p :
  tree_invariant h →
  childNodes (detatchNode c h) p = filter (λ x, x ≠ c) (childNodes h p).
Proof.
  intros Hinv. rewrite detatchNode_childNodes. case_decide as Hp; [done|].
  symmetry. apply filter_ne_absent. intros Hin. apply Hp.
  by apply (child_has_parent h Hinv).
Qed.

Lemma appendChildNodes_parentNode l : ∀ P h m,
  parentNode (appendChildNodes P l h) m = if decide (m ∈ l) then Some P else parentNode h m.
Proof.
  induction l as [|c l IH]; intros P h m.
  - cbn [appendChildNodes]. case_decide as Hin; [by apply elem_of_nil in Hin|done].
  - cbn [appendChildNodes]. rewrite IH, appendChild_parentNode.
    destruct (decide (m ∈ l)) as [Hin|Hnin].
    + rewrite decide_True; [done|by apply elem_of_cons; right].
    + destruct (decide (m = c)) as [->|Hne].
      * rewrite decide_True; [done|by apply elem_of_cons; left].
      * rewrite decide_False; [done|]. rewrite elem_of_cons. tauto.
Qed.

Lemma appendChildNodes_childNodes l : ∀ P h p,
  tree_invariant h → NoDup l →
  childNodes (appendChildNodes P l h) p =
    filter (λ c, c ∉ l) (childNodes h p) ++ (if decide (p = P) then l else []).
Proof.
  induction l as [|c l IH]; intros P h p Hinv Hnd.
  - cbn [appendChildNodes]. rewrite filter_all; [|intros ? _; apply not_elem_of_nil].
    case_decide; by rewrite app_nil_r.
  - apply NoDup_cons in Hnd as [Hc Hnd].
    cbn [appendChildNodes]. rewrite IH; [|by apply appendChild_invariant|done].
    rewrite appendChild_childNodes, detatched_childNodes by done.
    assert (Hff : filter (λ x, x ∉ l) (filter (λ x, x ≠ c) (childNodes h p))
                  = filter (λ x, x ∉ c :: l) (childNodes h p)).
    { rewrite list_filter_filter. apply list_filter_iff. intros x.
      rewrite elem_of_cons. tauto. }
    case_decide.
    + rewrite filter_app, Hff, <- app_assoc. f_equal.
      rewrite filter_cons, decide_True by done. done.
    + by rewrite Hff.
Qed.

Lemma foldl_detatchNode_parentNode l : ∀ h m,
  parentNode (foldl (λ h' child, detatchNode child h') h l) m
  = if decide (m ∈ l) then None else parentNode h m.
Proof.
  induction l as [|c l IH]; intros h m.
  - cbn [foldl]. case_decide as Hin; [by apply elem_of_nil in Hin|done].
  - cbn [foldl]. rewrite IH, detatchNode_parentNode.
    destruct (decide (m ∈ l)) as [Hin|Hnin].
    + rewrite decide_True; [done|by apply elem_of_cons; right].
    + destruct (decide (m = c)) as [->|Hne].
      * rewrite decide_True; [done|by apply elem_of_cons; left].
      * rewrite decide_False; [done|]. rewrite elem_of_cons. tauto.
Qed.

Lemma foldl_detatchNode_childNodes l : ∀ h p,
  tree_invariant h →
  childNodes (foldl (λ h' child, detatchNode child h') h l) p
  = filter (λ c, c ∉ l) (childNodes h p).
Proof.
  induction l as [|c l IH]; intros h p Hinv.
  - cbn [foldl]. rewrite filter_all; [done|intros ? _; apply not_elem_of_nil].
  - cbn [foldl]. rewrite IH by (by apply detatchNode_invariant).
    rewrite detatched_childNodes by done.
    rewrite list_filter_filter. apply list_filter_iff. intros x.
    rewrite elem_of_cons. tauto.
Qed.

Lemma foldl_detatchNode_invariant l : ∀ h,
  tree_invariant h → tree_invariant (foldl (λ h' child, detatchNode child h') h l).
Proof.
  induction l as [|c l IH]; intros h Hinv; [done|].
  cbn [foldl]. by apply IH, detatchNode_invariant.
Qed.

(** X8.  hasChild(parent, child) holds after appendChild(parent, child)
    and after prependChild(parent, child), and does not hold after
    detatchNode(child) when parent was the parentNode of child. *)
Theorem hasChild_follows_insert_and_detatch parent child h :
  hasChild (appendChild parent child h) parent child = true ∧
  hasChild (prependChild parent child h) parent child = true ∧
  (parentNode h child = Some parent →
   hasChild (detatchNode child h) parent child = false).
Proof.
  unfold hasChild. split; [|split].
  - apply bool_decide_eq_true. rewrite appendChild_childNodes, decide_True by done.
    apply elem_of_app. right. by apply list_elem_of_singleton.
  - apply bool_decide_eq_true. rewrite prependChild_childNodes, decide_True by done.
    by apply elem_of_cons; left.
  - intros Hp. apply bool_decide_eq_false.
    rewrite detatchNode_childNodes, decide_True by done.
    rewrite list_elem_of_filter. tauto.
Qed.

Lemma hasChild_follows_insert_and_detatch_witness :
  parentNode page 3 = Some 1 ∧ hasChild (detatchNode 3 page) 1 3 = false.
Proof.
  split; [reflexivity|].
  apply (proj2 (proj2 (hasChild_follows_insert_and_detatch 1 3 page))). reflexivity.
Defined.

(** X9.  After prependChild(A, B) the parent of B is A, B is the first
    entry of the child list of A, and a former parent of B other than A
    no longer has B in its child list.  In a heap that satisfies the
    tree invariant the child list of A is B followed by the former
    children of A other than B, in their order; B has no previous
    sibling and its next sibling is the first of them. *)
Theorem prependChild_reparents (A B : nid) (h : Heap) :
  parentNode (prependChild A B h) B = Some A ∧
  head (childNodes (prependChild A B h) A) = Some B ∧
  (∀ P, parentNode h B = Some P → P ≠ A → B ∉ childNodes (prependChild A B h) P) ∧
  (tree_invariant h →
   childNodes (prependChild A B h) A = B :: filter (λ c, c ≠ B) (childNodes h A) ∧
   prevSibling (prependChild A B h) B = None ∧
   nextSibling (prependChild A B h) B = head (filter (λ c, c ≠ B) (childNodes h A))).
Proof.
  split; [|split; [|split]].
  - rewrite prependChild_parentNode. by case_decide.
  - rewrite prependChild_childNodes. by case_decide.
  - intros P HP Hne. rewrite prependChild_childNodes. case_decide; [done|].
    rewrite detatchNode_childNodes. case_decide; [|done].
    rewrite list_elem_of_filter. tauto.
  - intros Hinv. split; [|split].
    + rewrite prependChild_childNodes, decide_True by done.
      by rewrite detatched_childNodes.
    + rewrite prependChild_prevSibling.
      rewrite detatched_childNodes by done. case_decide as Hhead.
      * exfalso. apply head_Some_elem_of in Hhead.
        apply list_elem_of_filter in Hhead. tauto.
      * rewrite detatchNode_prevSibling. by rewrite decide_True.
    + rewrite prependChild_nextSibling, decide_True by done.
      by rewrite detatched_childNodes.
Qed.

Lemma prependChild_reparents_witness :
  tree_invariant page ∧ childNodes (prependChild 1 5 page) 1 = [5; 3; 4].
Proof.
  assert (Hinv : tree_invariant page) by (apply heap_ok_sound; vm_compute; reflexivity).
  split; [exact Hinv|].
  exact (proj1 (proj2 (proj2 (proj2 (prependChild_reparents 1 5 page))) Hinv)).
Defined.

(** X10.  In a heap that satisfies the tree invariant,
    appendChildNodes(parent, nodes), the nodes being pairwise different,
    leaves parent with its former children that are not among the nodes,
    in their order, followed by the nodes in the order given.  Every
    other child list loses the nodes and keeps the rest, each of the
    nodes has parent as its parent, and the tree invariant holds. *)
Theorem appendChildNodes_in_order parent nodes h :
  tree_invariant h → NoDup nodes →
  childNodes (appendChildNodes parent nodes h) parent
    = filter (λ c, c ∉ nodes) (childNodes h parent) ++ nodes ∧
  (∀ p, p ≠ parent →
        childNodes (appendChildNodes parent nodes h) p
        = filter (λ c, c ∉ nodes) (childNodes h p)) ∧
  (∀ c, c ∈ nodes → parentNode (appendChildNodes parent nodes h) c = Some parent) ∧
  tree_invariant (appendChildNodes parent nodes h).
Proof.
  intros Hinv Hnd. split; [|split; [|split]].
  - rewrite appendChildNodes_childNodes by done. by rewrite decide_True.
  - intros p Hp. rewrite appendChildNodes_childNodes by done.
    rewrite decide_False by done. by rewrite app_nil_r.
  - intros c Hc. rewrite appendChildNodes_parentNode. by rewrite decide_True.
  - by apply appendChildNodes_invariant.
Qed.

Lemma appendChildNodes_in_order_witness :
  tree_invariant page ∧ childNodes (appendChildNodes 1 [5; 3] page) 1 = [4; 5; 3].
Proof.
  assert (Hinv : tree_invariant page) by (apply heap_ok_sound; vm_compute; reflexivity).
  split; [exact Hinv|].
  refine (proj1 (appendChildNodes_in_order 1 [5; 3] page Hinv _)).
  apply (bool_decide_unpack (NoDup [5; 3])). vm_compute. exact I.
Defined.

(** X11.  In a heap that satisfies the tree invariant, clear(parent)
    leaves parent without children and each former child of parent
    without parent and siblings; the other child lists are as they were
    and the tree invariant holds. *)
Theorem clear_removes_every_child parent h :
  tree_invariant h →
  childNodes (clear parent h) parent = [] ∧
  (∀ c, c ∈ childNodes h parent → loose (clear parent h) c) ∧
  (∀ p, p ≠ parent → childNodes (clear parent h) p = childNodes h p) ∧
  tree_invariant (clear parent h).
Proof.
  intros Hinv. unfold clear.
  assert (Hinv' := foldl_detatchNode_invariant (childNodes h parent) h Hinv).
  split; [|split; [|split]]; [| | |done].
  - rewrite foldl_detatchNode_childNodes by done. by apply filter_none; intros x Hx [].
  - intros c Hc. apply loose_of_parentless; [done|].
    rewrite foldl_detatchNode_parentNode. by rewrite decide_True.
  - intros p Hp. rewrite foldl_detatchNode_childNodes by done.
    apply filter_all. intros x Hx Hin. apply Hp.
    apply (child_has_parent h Hinv) in Hx, Hin. congruence.
Qed.

Lemma clear_removes_every_child_witness :
  tree_invariant page ∧ childNodes (clear 0 page) 0 = [] ∧ childNodes (clear 0 page) 1 = [3; 4].
Proof.
  assert (Hinv : tree_invariant page) by (apply heap_ok_sound; vm_compute; reflexivity).
  split; [exact Hinv|]. split.
  - exact (proj1 (clear_removes_every_child 0 page Hinv)).
  - reflexivity.
Defined.
End MoreChildFacts.

Section CreateDom.
Import Dom Examples.
Implicit Types (h : Heap) (n m p c P : nid) (l : list nid) (st : Store).

Lemma alloc_document_reads st m :
  st_heap st !! st_next st = None →
  st_heap (alloc KDocument st).2 !!! m = st_heap st !!! m.
Proof.
  intros Hnew. destruct (decide (m = st_next st)) as [->|Hne].
  - unfold lookup_total, map_lookup_total. rewrite alloc_new, Hnew. done.
  - apply lookup_total_eq. by apply alloc_other.
Qed.

(** X12.  In a heap that satisfies the tree invariant,
    createDomFromChildren(parent) returns a new DocumentNode that has no
    parent and has the former children of parent as its children, in
    their order; each of them has the new node as its parent, parent is
    left without children, and the tree invariant holds. *)
Theorem createDomFromChildren_moves_children parent st :
  st_heap st !! st_next st = None → tree_invariant (st_heap st) →
  let dom := (createDomFromChildren parent st).1 in
  let h' := st_heap (createDomFromChildren parent st).2 in
  dom = st_next st ∧
  nodeKind h' dom = KDocument ∧
  parentNode h' dom = None ∧
  childNodes h' dom = childNodes (st_heap st) parent ∧
  childNodes h' parent = [] ∧
  (∀ c, c ∈ childNodes (st_heap st) parent → parentNode h' c = Some dom) ∧
  tree_invariant h'.
Proof.
  intros Hnew Hinv. unfold createDomFromChildren.
  destruct (alloc KDocument st) as [dom st1] eqn:Halloc.
  assert (Hdom : dom = st_next st) by (by injection Halloc as <- _).
  assert (Hst1 : st1 = (alloc KDocument st).2) by (by rewrite Halloc).
  assert (Hreads : ∀ m, st_heap st1 !!! m = st_heap st !!! m).
  { intros m. rewrite Hst1. by apply alloc_document_reads. }
  assert (Hinv1 : tree_invariant (st_heap st1)).
  { apply (tree_invariant_ext (st_heap st)); [..|done]; intros m;
      unfold parentNode, childNodes, prevSibling, nextSibling; by rewrite Hreads. }
  assert (Hch : ∀ m, childNodes (st_heap st1) m = childNodes (st_heap st) m).
  { intros m. unfold childNodes. by rewrite Hreads. }
  assert (Hnone : childNodes (st_heap st1) dom = []).
  { unfold childNodes. rewrite Hst1, Hdom.
    unfold lookup_total, map_lookup_total. by rewrite alloc_new. }
  assert (Hnd : NoDup (childNodes (st_heap st1) parent)) by apply (child_once _ Hinv1).
  cbn [fst snd on_heap st_heap]. unfold Node_appendChildren.
  assert (Hown : childNodes (appendChildNodes dom (childNodes (st_heap st1) parent)
                               (st_heap st1)) dom
                 = filter (λ c, c ∉ childNodes (st_heap st1) parent)
                     (childNodes (st_heap st1) dom)
                   ++ childNodes (st_heap st1) parent).
  { rewrite appendChildNodes_childNodes by done. by rewrite decide_True. }
  assert (Hother : ∀ p, p ≠ dom →
            childNodes (appendChildNodes dom (childNodes (st_heap st1) parent)
                          (st_heap st1)) p
            = filter (λ c, c ∉ childNodes (st_heap st1) parent) (childNodes (st_heap st1) p)).
  { intros p Hp. rewrite appendChildNodes_childNodes by done.
    rewrite decide_False by done. by rewrite app_nil_r. }
  split; [done|]. split; [|split; [|split; [|split; [|split]]]].
  - rewrite appendChildNodes_nodeKind. unfold nodeKind. rewrite Hreads, Hdom.
    unfold lookup_total, map_lookup_total. by rewrite Hnew.
  - rewrite appendChildNodes_parentNode. case_decide as Hin.
    + apply (child_has_parent _ Hinv1) in Hin.
      rewrite Hch in Hnone.
      assert (Hp : parentNode (st_heap st1) dom = None).
      { unfold parentNode. rewrite Hreads, Hdom.
        unfold lookup_total, map_lookup_total. by rewrite Hnew. }
      congruence.
    + unfold parentNode. rewrite Hreads, Hdom.
      unfold lookup_total, map_lookup_total. by rewrite Hnew.
  - rewrite Hown, Hnone. by rewrite Hch.
  - destruct (decide (parent = dom)) as [->|Hne].
    + rewrite Hown, Hnone. done.
    + rewrite Hother by done. by apply filter_none; intros x Hx [].
  - intros c Hc. rewrite appendChildNodes_parentNode, decide_True; [done|].
    by rewrite Hch.
  - by apply appendChildNodes_invariant.
Qed.

Lemma createDomFromChildren_moves_children_witness :
  tree_invariant page ∧
  childNodes (st_heap (createDomFromChildren 1 page_store).2) 6 = [3; 4] ∧
  childNodes (st_heap (createDomFromChildren 1 page_store).2) 1 = [].
Proof.
  assert (Hinv : tree_invariant page) by (apply heap_ok_sound; vm_compute; reflexivity).
  split; [exact Hinv|].
  destruct (createDomFromChildren_moves_children 1 page_store eq_refl Hinv)
    as (_ & _ & _ & Hdom & Hparent & _).
  split; [exact Hdom|exact Hparent].
Defined.
End CreateDom.

Section SiblingPlaces.
Import Dom Examples.
Implicit Types (h : Heap) (n m p c P : nid) (l : list nid) (st : Store).

Lemma indexOf_middle l1 l2 a : a ∉ l1 → indexOf (l1 ++ a :: l2) a = Z.of_nat (length l1).
Proof.
  induction l1 as [|x l1 IH]; intros Hnot.
  - simpl. by rewrite decide_True.
  - apply not_elem_of_cons in Hnot as [Hne Hnot].
    cbn [app indexOf]. rewrite decide_False by done. rewrite IH by done.
    rewrite decide_False by lia. cbn [length]. lia.
Qed.

Lemma splice_before_middle l1 l2 a x :
  a ∉ l1 → splice_insert (indexOf (l1 ++ a :: l2) a) x (l1 ++ a :: l2) = l1 ++ x :: a :: l2.
Proof.
  intros Hnot. rewrite indexOf_middle by done.
  rewrite splice_insert_nat by (rewrite length_app; simpl; lia).
  rewrite take_app_length, drop_app_length. done.
Qed.

Lemma NoDup_middle l1 l2 (a : nid) : NoDup (l1 ++ a :: l2) → a ∉ l1.
Proof.
  intros Hnd Hin. apply NoDup_app in Hnd as (_ & Hdis & _).
  apply (Hdis a Hin). by apply elem_of_cons; left.
Qed.

Lemma appendSibling_position node after P h l1 l2 :
  tree_invariant h → node ≠ after → isDocumentNode h after = false →
  parentNode h after = Some P →
  filter (λ c, c ≠ node) (childNodes h P) = l1 ++ after :: l2 →
  childNodes (heap_of (appendSibling node after h)) P = l1 ++ after :: node :: l2 ∧
  parentNode (heap_of (appendSibling node after h)) node = Some P ∧
  tree_invariant (heap_of (appendSibling node after h)).
Proof.
  intros Hinv Hne Hdoc HP Hsplit.
  assert (Hinv1 := detatchNode_invariant node h Hinv).
  assert (HP1 : parentNode (detatchNode node h) after = Some P).
  { rewrite detatchNode_parentNode. by rewrite decide_False. }
  assert (Hch1 : childNodes (detatchNode node h) P = l1 ++ after :: l2).
  { by rewrite detatched_childNodes. }
  assert (Hnd : NoDup (l1 ++ after :: l2)).
  { rewrite <- Hch1. apply (child_once _ Hinv1). }
  split; [|split].
  - rewrite appendSibling_childNodes by done.
    rewrite decide_True by done. rewrite Hch1. by apply splice_after_middle.
  - rewrite appendSibling_parentNode by done. by rewrite decide_True.
  - by apply appendSibling_invariant.
Qed.


(** X13.  In a heap that satisfies the tree invariant,
    appendSibling(node, after), with [after] a child of P that is no
    DocumentNode and is not [node], does not throw and places [node]
    right after [after]: if the children of P other than [node] are l1,
    after, l2, the children of P become l1, after, node, l2.  The parent
    of [node] is P, [after] and [node] are each other's previous and
    next sibling, the next sibling of [node] is the first of l2, and the
    tree invariant holds. *)
Theorem appendSibling_places node after P h l1 l2 :
  tree_invariant h → node ≠ after → isDocumentNode h after = false →
  parentNode h after = Some P →
  filter (λ c, c ≠ node) (childNodes h P) = l1 ++ after :: l2 →
  let h' := heap_of (appendSibling node after h) in
  throws (appendSibling node after h) = false ∧
  childNodes h' P = l1 ++ after :: node :: l2 ∧
  parentNode h' node = Some P ∧
  prevSibling h' node = Some after ∧
  nextSibling h' after = Some node ∧
  nextSibling h' node = head l2 ∧
  tree_invariant h'.
Proof.
  intros Hinv Hne Hdoc HP Hsplit h'.
  assert (Hinv1 := detatchNode_invariant node h Hinv).
  assert (HP1 : parentNode (detatchNode node h) after = Some P).
  { rewrite detatchNode_parentNode. by rewrite decide_False. }
  assert (Hch1 : childNodes (detatchNode node h) P = l1 ++ after :: l2).
  { by rewrite detatched_childNodes. }
  assert (Hnd : NoDup (l1 ++ after :: l2)).
  { rewrite <- Hch1. apply (child_once _ Hinv1). }
  split; [|split; [|split; [|split; [|split; [|split]]]]].
  - by rewrite appendSibling_returns.
  - unfold h'. rewrite appendSibling_childNodes by done.
    rewrite decide_True by done. rewrite Hch1. by apply splice_after_middle.
  - unfold h'. rewrite appendSibling_parentNode by done. by rewrite decide_True.
  - unfold h'. rewrite appendSibling_prevSibling by done. by rewrite decide_True.
  - unfold h'. rewrite appendSibling_nextSibling by done. by rewrite decide_True.
  - unfold h'. rewrite appendSibling_nextSibling by done.
    rewrite decide_False by done. rewrite decide_True by done.
    assert (Hat : childNodes (detatchNode node h) P !! length l1 = Some after).
    { rewrite Hch1. by apply list_lookup_middle. }
    destruct (siblings_in_order _ Hinv1 _ _ _ Hat) as [_ Hnext].
    rewrite Hnext. unfold nextOf. rewrite Hch1.
    rewrite lookup_app_r by lia.
    replace (S (length l1) - length l1) with 1 by lia. by destruct l2.
  - by apply appendSibling_invariant.
Qed.

Lemma appendSibling_places_witness :
  tree_invariant page ∧
  childNodes (heap_of (appendSibling 5 3 page)) 1 = [3; 5; 4].
Proof.
  assert (Hinv : tree_invariant page) by (apply heap_ok_sound; vm_compute; reflexivity).
  split; [exact Hinv|].
  refine (proj1 (proj2 (appendSibling_places 5 3 1 page [] [4] Hinv _ _ _ _))).
  - lia.
  - reflexivity.
  - reflexivity.
  - reflexivity.
Defined.

(** X14.  In a heap that satisfies the tree invariant,
    prependSibling(node, before), with [before] a child of P that is no
    DocumentNode and is not [node], does not throw and places [node]
    right before [before]: if the children of P other than [node] are
    l1, before, l2, the children of P become l1, node, before, l2.  The
    parent of [node] is P, [node] and [before] are each other's previous
    and next sibling, the previous sibling of [node] is the last of l1,
    and the tree invariant holds. *)
Theorem prependSibling_places node before P h l1 l2 :
  tree_invariant h → node ≠ before → isDocumentNode h before = false →
  parentNode h before = Some P →
  filter (λ c, c ≠ node) (childNodes h P) = l1 ++ before :: l2 →
  let h' := heap_of (prependSibling node before h) in
  throws (prependSibling node before h) = false ∧
  childNodes h' P = l1 ++ node :: before :: l2 ∧
  parentNode h' node = Some P ∧
  nextSibling h' node = Some before ∧
  prevSibling h' before = Some node ∧
  prevSibling h' node = last l1 ∧
  tree_invariant h'.
Proof.
  intros Hinv Hne Hdoc HP Hsplit h'.
  assert (Hinv1 := detatchNode_invariant node h Hinv).
  assert (HP1 : parentNode (detatchNode node h) before = Some P).
  { rewrite detatchNode_parentNode. by rewrite decide_False. }
  assert (Hch1 : childNodes (detatchNode node h) P = l1 ++ before :: l2).
  { by rewrite detatched_childNodes. }
  assert (Hnd : NoDup (l1 ++ before :: l2)).
  { rewrite <- Hch1. apply (child_once _ Hinv1). }
  split; [|split; [|split; [|split; [|split; [|split]]]]].
  - unfold prependSibling. by rewrite Hdoc.
  - unfold h'. rewrite prependSibling_childNodes by done.
    rewrite decide_True by done. rewrite Hch1.
    apply splice_before_middle. by eapply NoDup_middle.
  - unfold h'. rewrite prependSibling_parentNode by done. by rewrite decide_True.
  - unfold h'. rewrite prependSibling_nextSibling by done. by rewrite decide_True.
  - unfold h'. rewrite prependSibling_prevSibling by done. by rewrite decide_True.
  - unfold h'. rewrite prependSibling_prevSibling by done.
    rewrite decide_False by done. rewrite decide_True by done.
    assert (Hat : childNodes (detatchNode node h) P !! length l1 = Some before).
    { rewrite Hch1. by apply list_lookup_middle. }
    destruct (siblings_in_order _ Hinv1 _ _ _ Hat) as [Hprev _].
    rewrite Hprev. unfold prevOf. rewrite Hch1.
    destruct l1 as [|x l1 _] using rev_ind; [done|].
    rewrite length_app. cbn [length]. replace (length l1 + 1) with (S (length l1)) by lia.
    rewrite last_snoc, <- app_assoc. by apply list_lookup_middle.
  - by apply prependSibling_invariant.
Qed.

Lemma prependSibling_places_witness :
  tree_invariant page ∧
  childNodes (heap_of (prependSibling 5 4 page)) 1 = [3; 5; 4].
Proof.
  assert (Hinv : tree_invariant page) by (apply heap_ok_sound; vm_compute; reflexivity).
  split; [exact Hinv|].
  refine (proj1 (proj2 (prependSibling_places 5 4 1 page [3] [] Hinv _ _ _ _))).
  - lia.
  - reflexivity.
  - reflexivity.
  - reflexivity.
Defined.
End SiblingPlaces.

Section ReplacePlaces.
Import Dom Examples.
Implicit Types (h : Heap) (n m p c P : nid) (l : list nid) (st : Store).

Lemma appendSibling_nodeKind node after m h :
  nodeKind (heap_of (appendSibling node after h)) m = nodeKind h m.
Proof.
  unfold appendSibling. destruct (isDocumentNode h after); [done|].
  cbn zeta. cbn [heap_of].
  repeat match goal with
         | |- context [match ?x with Some _ => _ | None => _ end] => destruct x eqn:?
         end;
    unfold set_parentNode, set_prevSibling, set_nextSibling, set_childNodes;
    rewrite ?nodeKind_update, ?detatchNode_nodeKind; done.
Qed.

Lemma filter_notin_cons (r : nid) rs l :
  filter (λ x, x ∉ rs) (filter (λ x, x ≠ r) l) = filter (λ x, x ∉ r :: rs) l.
Proof.
  rewrite list_filter_filter. apply list_filter_iff. intros x.
  rewrite elem_of_cons. tauto.
Qed.

Lemma replaceNode_loop_places P rs : ∀ prevNode h A B,
  tree_invariant h → parentNode h prevNode = Some P →
  childNodes h P = A ++ prevNode :: B →
  NoDup (prevNode :: rs) →
  isDocumentNode h prevNode = false →
  Forall (λ r, isDocumentNode h r = false) rs →
  ∃ h', replaceNode_loop prevNode rs h = Ok h' ∧
        tree_invariant h' ∧
        childNodes h' P
          = filter (λ x, x ∉ rs) A ++ prevNode :: rs ++ filter (λ x, x ∉ rs) B ∧
        (∀ m, parentNode h' m = if decide (m ∈ rs) then Some P else parentNode h m).
Proof.
  induction rs as [|r rs IH]; intros prevNode h A B Hinv HP Hch Hnd Hdoc Hdocs.
  - exists h. split; [done|]. split; [done|]. split.
    + rewrite !filter_all by (intros ? _; apply not_elem_of_nil). done.
    + intros m. case_decide as Hin; [by apply elem_of_nil in Hin|done].
  - apply NoDup_cons in Hnd as [Hprev Hnd].
    apply not_elem_of_cons in Hprev as [Hne Hprev].
    apply Forall_cons in Hdocs as [Hdocr Hdocs].
    pose proof Hnd as Hnd'. apply NoDup_cons in Hnd' as [Hr Hnd'].
    assert (Hsplit : filter (λ c, c ≠ r) (childNodes h P)
                     = filter (λ c, c ≠ r) A ++ prevNode :: filter (λ c, c ≠ r) B).
    { rewrite Hch, filter_app, filter_cons. by rewrite decide_True. }
    destruct (appendSibling_position r prevNode P h _ _ Hinv (not_eq_sym Hne) Hdoc HP Hsplit)
      as (Hch1 & HP1 & Hinv1).
    cbn [replaceNode_loop]. unfold Node_appendSibling.
    rewrite appendSibling_returns by done.
    set (h1 := heap_of (appendSibling r prevNode h)) in *.
    destruct (IH r h1 (filter (λ c, c ≠ r) A ++ [prevNode]) (filter (λ c, c ≠ r) B))
      as (h' & Hloop & Hinv' & Hch' & Hparents); try done.
    { rewrite Hch1. by rewrite <- app_assoc. }
    { unfold isDocumentNode, h1. by rewrite appendSibling_nodeKind. }
    { eapply Forall_impl; [exact Hdocs|]. intros x Hx.
      unfold isDocumentNode, h1. by rewrite appendSibling_nodeKind. }
    exists h'. split; [done|]. split; [done|]. split.
    + rewrite Hch'. rewrite filter_app, !filter_notin_cons.
      rewrite filter_cons, decide_True by done. cbn [filter list_filter].
      rewrite <- !app_assoc. done.
    + intros m. rewrite Hparents. unfold h1.
      rewrite appendSibling_parentNode by done.
      rewrite !detatchNode_parentNode.
      destruct (decide (m ∈ rs)) as [Hin|Hnin].
      * rewrite decide_True; [done|by apply elem_of_cons; right].
      * destruct (decide (m = r)) as [->|Hmr].
        -- rewrite (decide_True (P := r ∈ r :: rs)) by (by apply elem_of_cons; left).
           rewrite (decide_False (P := prevNode = r)) by done. done.
        -- rewrite (decide_False (P := m ∈ r :: rs)); [done|].
           rewrite elem_of_cons. tauto.
Qed.

(** X15.  In a heap that satisfies the tree invariant,
    replaceNode(remove, replacements), with [remove] a child of P, the
    nodes [remove] and [replacements] pairwise different and none of
    them a DocumentNode, does not throw and puts the replacements, in
    the order given, in the place of [remove]: if the children of P are
    l1, remove, l2, they become l1, replacements, l2 (l1 and l2 without
    the nodes that are among the replacements).  [remove] is left
    without parent and siblings, each replacement has P as its parent,
    and the tree invariant holds. *)
Theorem replaceNode_places remove replacements P h l1 l2 :
  tree_invariant h →
  parentNode h remove = Some P →
  childNodes h P = l1 ++ remove :: l2 →
  NoDup (remove :: replacements) →
  isDocumentNode h remove = false →
  Forall (λ r, isDocumentNode h r = false) replacements →
  let h' := heap_of (replaceNode remove replacements h) in
  throws (replaceNode remove replacements h) = false ∧
  childNodes h' P
    = filter (λ x, x ∉ replacements) l1 ++ replacements
      ++ filter (λ x, x ∉ replacements) l2 ∧
  loose h' remove ∧
  (∀ r, r ∈ replacements → parentNode h' r = Some P) ∧
  tree_invariant h'.
Proof.
  intros Hinv HP Hch Hnd Hdoc Hdocs h'.
  destruct (replaceNode_loop_places P replacements remove h l1 l2)
    as (h1 & Hloop & Hinv1 & Hch1 & Hparents); try done.
  unfold h', replaceNode. rewrite Hloop. cbn [heap_of throws].
  assert (Hinv' := detatchNode_invariant remove h1 Hinv1).
  apply NoDup_cons in Hnd as [Hrem Hnd].
  assert (Hrem12 : (¬ remove ∈ l1) ∧ (¬ remove ∈ l2)).
  { pose proof (child_once _ Hinv P) as Hnd'. rewrite Hch in Hnd'.
    split; [by eapply NoDup_middle|].
    apply NoDup_app in Hnd' as (_ & _ & Hnd'). by apply NoDup_cons in Hnd' as []. }
  destruct Hrem12 as [Hrem1 Hrem2].
  split; [done|]. split; [|split; [|split]].
  - rewrite detatched_childNodes by done. rewrite Hch1.
    rewrite filter_app, filter_cons, decide_False by (by intros []).
    rewrite filter_app.
    rewrite !filter_ne_absent; [done|..].
    + rewrite list_elem_of_filter. tauto.
    + done.
    + rewrite list_elem_of_filter. tauto.
  - apply loose_of_parentless; [done|]. rewrite detatchNode_parentNode.
    by rewrite decide_True.
  - intros r Hr. rewrite detatchNode_parentNode.
    rewrite decide_False by (by intros ->). rewrite Hparents. by rewrite decide_True.
  - done.
Qed.

Lemma replaceNode_places_witness :
  tree_invariant page ∧
  childNodes (heap_of (replaceNode 1 [5; 4] page)) 0 = [5; 4; 2].
Proof.
  assert (Hinv : tree_invariant page) by (apply heap_ok_sound; vm_compute; reflexivity).
  split; [exact Hinv|].
  refine (proj1 (proj2 (replaceNode_places 1 [5; 4] 0 page [] [2] Hinv _ _ _ _ _))).
  - reflexivity.
  - reflexivity.
  - apply (bool_decide_unpack (NoDup [1; 5; 4])). vm_compute. exact I.
  - reflexivity.
  - repeat constructor.
Defined.
End ReplacePlaces.

Section DetatchGap.
Import Dom Examples.
Implicit Types (h : Heap) (n m p c P : nid) (l : list nid) (st : Store).

(** X16.  In a heap that satisfies the tree invariant, detatchNode(node)
    of a child of P closes the gap the node leaves: if the children of P
    are l1, node, l2, they become l1, l2; the next sibling of the last
    of l1 is the first of l2 and the previous sibling of the first of l2
    is the last of l1 (none, where there is no such node); [node] has no
    parent and no siblings; the other child lists are as they were. *)
Theorem detatchNode_closes_gap node P h l1 l2 :
  tree_invariant h → parentNode h node = Some P →
  childNodes h P = l1 ++ node :: l2 →
  let h' := detatchNode node h in
  childNodes h' P = l1 ++ l2 ∧
  loose h' node ∧
  (∀ x, last l1 = Some x → nextSibling h' x = head l2) ∧
  (∀ y, head l2 = Some y → prevSibling h' y = last l1) ∧
  (∀ p, p ≠ P → childNodes h' p = childNodes h p).
Proof.
  intros Hinv HP Hch h'. subst h'.
  assert (Hinv' := detatchNode_invariant node h Hinv).
  pose proof (child_once _ Hinv P) as Hnd. rewrite Hch in Hnd.
  assert (Hn1 : node ∉ l1) by (by eapply NoDup_middle).
  assert (Hn2 : node ∉ l2).
  { apply NoDup_app in Hnd as (_ & _ & Hnd). by apply NoDup_cons in Hnd as []. }
  assert (Hch' : childNodes (detatchNode node h) P = l1 ++ l2).
  { rewrite detatched_childNodes by done. rewrite Hch.
    rewrite filter_app, filter_cons, decide_False by (by intros []).
    by rewrite !filter_ne_absent. }
  split; [done|]. split; [apply detatchNode_loose|]. split; [|split].
  - intros x Hx. destruct l1 as [|x0 l1 _] using rev_ind; [done|].
    rewrite last_snoc in Hx. injection Hx as ->.
    assert (Hat : childNodes (detatchNode node h) P !! length l1 = Some x).
    { rewrite Hch', <- app_assoc. by apply list_lookup_middle. }
    destruct (siblings_in_order _ Hinv' _ _ _ Hat) as [_ Hnext].
    rewrite Hnext. unfold nextOf. rewrite Hch', <- app_assoc.
    rewrite lookup_app_r by lia.
    replace (S (length l1) - length l1) with 1 by lia. by destruct l2.
  - intros y Hy. destruct l2 as [|y0 l2]; [done|]. injection Hy as ->.
    assert (Hat : childNodes (detatchNode node h) P !! length l1 = Some y).
    { rewrite Hch'. by apply list_lookup_middle. }
    destruct (siblings_in_order _ Hinv' _ _ _ Hat) as [Hprev _].
    rewrite Hprev. unfold prevOf. rewrite Hch'.
    destruct l1 as [|x l1 _] using rev_ind; [done|].
    rewrite length_app. cbn [length]. replace (length l1 + 1) with (S (length l1)) by lia.
    rewrite last_snoc, <- app_assoc. by apply list_lookup_middle.
  - intros p Hp. rewrite detatchNode_childNodes.
    rewrite decide_False; [done|]. congruence.
Qed.

Lemma detatchNode_closes_gap_witness :
  tree_invariant page ∧
  childNodes (detatchNode 1 page) 0 = [2] ∧ prevSibling (detatchNode 1 page) 2 = None.
Proof.
  assert (Hinv : tree_invariant page) by (apply heap_ok_sound; vm_compute; reflexivity).
  split; [exact Hinv|].
  destruct (detatchNode_closes_gap 1 0 page [] [2] Hinv eq_refl eq_refl)
    as (Hch & _ & _ & Hprev & _).
  split; [exact Hch|]. exact (Hprev 2 eq_refl).
Defined.
End DetatchGap.

Section Cycles.
Import Dom Search Examples.

Lemma walkDom_loop_stuck {A} (rec : nid → (nid → A → A) → A → option A)
    (callback : nid → A → A) n l :
  (∀ a, rec n callback a = None) → n ∈ l →
  ∀ a, walkDom_loop rec l callback a = None.
Proof.
  intros Hrec. induction l as [|c l IH]; intros Hin a.
  - by apply elem_of_nil in Hin.
  - cbn [walkDom_loop]. destruct (decide (c = n)) as [->|Hne].
    + by rewrite Hrec.
    + destruct (rec c callback a); [|done]. apply IH.
      apply elem_of_cons in Hin as [->|Hin]; done.
Qed.

(** X17.  appendChild does not refuse to append a node to itself: after
    appendChild(node, node) the node is its own parent and its own
    child.  The tree invariant, which does not exclude a cycle, holds as
    before; walkDom from the node does not return, however many nested
    calls it is given. *)
Theorem appendChild_to_itself_makes_cycle {A} node h (callback : nid → A → A) :
  isNodeWithChildren h node = true →
  let h' := appendChild node node h in
  parentNode h' node = Some node ∧
  hasChild h' node node = true ∧
  (tree_invariant h → tree_invariant h') ∧
  (∀ fuel a, walkDom h' fuel node callback a = None).
Proof.
  intros Hkind h'.
  assert (Hin : node ∈ childNodes h' node).
  { unfold h'. rewrite appendChild_childNodes, decide_True by done.
    apply elem_of_app. right. by apply list_elem_of_singleton. }
  split; [|split; [|split]].
  - unfold h'. rewrite appendChild_parentNode. by rewrite decide_True.
  - by apply bool_decide_eq_true.
  - apply appendChild_invariant.
  - intros fuel. induction fuel as [|fuel IH]; intros a; [done|].
    cbn [walkDom].
    assert (Hk : isNodeWithChildren h' node = true).
    { unfold isNodeWithChildren, h'. by rewrite appendChild_nodeKind. }
    rewrite Hk. by apply (walkDom_loop_stuck _ _ node).
Qed.

Lemma appendChild_to_itself_makes_cycle_witness :
  isNodeWithChildren page 1 = true ∧
  walkDom (appendChild 1 1 page) 100 1 (λ n visited, visited ++ [n]) [] = None.
Proof.
  split; [reflexivity|].
  exact (proj2 (proj2 (proj2 (appendChild_to_itself_makes_cycle 1 page
                                (λ n visited, visited ++ [n]) eq_refl))) 100 []).
Defined.
End Cycles.

Section CloneWellFormed.
Import Dom Examples.
Implicit Types (h : Heap) (n m p c P : nid) (l : list nid) (st : Store) (t : Tree).

Lemma alloc_invariant k st :
  st_heap st !! st_next st = None →
  tree_invariant (st_heap st) → tree_invariant (st_heap (alloc k st).2).
Proof.
  intros Hnew. apply tree_invariant_ext; intros m;
    unfold parentNode, childNodes, prevSibling, nextSibling;
    (destruct (decide (m = st_next st)) as [->|Hne];
     [unfold lookup_total, map_lookup_total; by rewrite alloc_new, Hnew
     |by rewrite (lookup_total_eq _ _ _ (alloc_other k st m Hne))]).
Qed.

Lemma appendChildNodes_as_mutations P l : ∀ h,
  appendChildNodes P l h = foldl mutate h (AppendChild P <$> l).
Proof. induction l as [|c l IH]; intros h; [done|]. cbn. apply IH. Qed.

Lemma appendChildNodes_scoped P l st :
  scoped st → P < st_next st → Forall (λ c, c < st_next st) l →
  scoped (on_heap (appendChildNodes P l) st).
Proof.
  intros Hscoped HP Hl.
  replace (on_heap (appendChildNodes P l) st)
    with (Pipeline.mutate_store st (AppendChild P <$> l)).
  - apply mutate_store_scoped; [done|].
    apply Forall_fmap. eapply Forall_impl; [exact Hl|]. by intros c Hc.
  - unfold Pipeline.mutate_store, on_heap. by rewrite appendChildNodes_as_mutations.
Qed.

Lemma cloneEach_wellformed (rec : nid → bool → Callback → Store → option (nid * Store)) :
  (∀ node deep st n' st',
     scoped st → tree_invariant (st_heap st) →
     rec node deep None st = Some (n', st') →
     (scoped st' ∧ tree_invariant (st_heap st') ∧ st_next st ≤ st_next st') ∧
     n' < st_next st') →
  ∀ l st ns st',
    scoped st → tree_invariant (st_heap st) →
    cloneEach rec l None st = Some (ns, st') →
    (scoped st' ∧ tree_invariant (st_heap st') ∧ st_next st ≤ st_next st') ∧
    Forall (λ c, c < st_next st') ns.
Proof.
  intros Hrec. induction l as [|c l IH]; intros st ns st' Hscoped Hinv.
  - intros [= <- <-]. split; [|done]. by split; [|split].
  - cbn [cloneEach].
    destruct (rec c true None st) as [[newChild st1]|] eqn:Hc; [|done].
    destruct (cloneEach rec l None st1) as [[newChildren st2]|] eqn:Hl; [|done].
    intros [= <- <-].
    destruct (Hrec _ _ _ _ _ Hscoped Hinv Hc) as [(Hs1 & Hi1 & Hn1) Hlt].
    destruct (IH _ _ _ Hs1 Hi1 Hl) as [(Hs2 & Hi2 & Hn2) Hall].
    split; [split; [done|split; [done|lia]]|].
    apply Forall_cons. split; [lia|done].
Qed.

Lemma Node_clone_wellformed fuel : ∀ node deep st n' st',
  scoped st → tree_invariant (st_heap st) →
  Node_clone fuel node deep None st = Some (n', st') →
  (scoped st' ∧ tree_invariant (st_heap st') ∧ st_next st ≤ st_next st') ∧
  n' < st_next st'.
Proof.
  induction fuel as [|fuel IH]; intros node deep st n' st' Hscoped Hinv; [done|].
  cbn [Node_clone]. rewrite Node_clone_body_eq. cbn zeta.
  set (k := nodeKind (st_heap st) node).
  assert (Hs1 : scoped (alloc k st).2) by (by apply alloc_scoped).
  assert (Hi1 : tree_invariant (st_heap (alloc k st).2)).
  { apply alloc_invariant; [|done]. by apply (proj1 Hscoped). }
  assert (Hleaf : (scoped (alloc k st).2 ∧ tree_invariant (st_heap (alloc k st).2) ∧
                   st_next st ≤ st_next (alloc k st).2) ∧
                  (alloc k st).1 < st_next (alloc k st).2).
  { split; [split; [done|split; [done|]]|]; cbn; lia. }
  destruct (isNodeWithChildrenKind k).
  - unfold processClonedParentNode, processClonedNode. destruct deep.
    + unfold cloneChildNodes. case_decide as Hlen.
      * destruct (cloneEach _ _ None _) as [[ns st2]|] eqn:Heach; [|done].
        cbn [returning]. intros [= <- <-].
        destruct (cloneEach_wellformed _ IH _ _ _ _ Hs1 Hi1 Heach)
          as [(Hs2 & Hi2 & Hn2) Hall].
        cbn [alloc fst snd st_next] in *.
        split; [split; [|split]|].
        -- apply appendChildNodes_scoped; [done|lia|done].
        -- cbn [on_heap st_heap]. by apply appendChildNodes_invariant.
        -- cbn [on_heap st_next]. lia.
        -- cbn [on_heap st_next]. lia.
      * cbn [returning]. by intros [= <- <-].
    + cbn [returning]. by intros [= <- <-].
  - unfold processClonedNode. by intros [= <- <-].
Qed.

(** X19.  The deep clone, without a callback, of a node whose subtree is
    the finite tree [t], in a heap that satisfies the tree invariant:
    the call returns (given as many nested calls as the tree is high)
    the root of a tree of new nodes with the content of [t]; the root
    has no parent and no siblings; the nodes that existed are as they
    were; and the tree invariant holds with the clone in the heap. *)
Theorem Node_clone_deep_is_a_tree_of_its_own fuel t st :
  height t ≤ fuel → scoped st → tree_invariant (st_heap st) →
  shaped (st_heap st) t → Forall (λ id, id < st_next st) (ids t) →
  ∃ t' st',
    Node_clone fuel (root t) true None st = Some (root t', st') ∧
    content t' = content t ∧
    shaped (st_heap st') t' ∧
    Forall (λ id, st_next st ≤ id < st_next st') (ids t') ∧
    loose (st_heap st') (root t') ∧
    (∀ m, m < st_next st → st_heap st' !! m = st_heap st !! m) ∧
    tree_invariant (st_heap st').
Proof.
  intros Hheight Hscoped Hinv Hshaped Hold.
  destruct (Node_clone_deep fuel t st Hheight Hscoped Hshaped Hold)
    as (t' & st' & Hclone & Hcloned).
  exists t', st'. split; [done|].
  destruct (Node_clone_wellformed _ _ _ _ _ _ Hscoped Hinv Hclone) as [(_ & Hinv' & _) _].
  destruct Hcloned. done.
Qed.

Lemma Node_clone_deep_is_a_tree_of_its_own_witness :
  tree_invariant page ∧
  ∃ t' st',
    Node_clone 3 0 true None page_store = Some (root t', st') ∧
    content t' = content page_tree ∧
    tree_invariant (st_heap st').
Proof.
  assert (Hinv : tree_invariant page) by (apply heap_ok_sound; vm_compute; reflexivity).
  split; [exact Hinv|].
  destruct (Node_clone_deep_is_a_tree_of_its_own 3 page_tree page_store)
    as (t' & st' & Hclone & Hcontent & _ & _ & _ & _ & Hinv').
  - vm_compute; lia.
  - apply scoped_ok_sound. vm_compute. reflexivity.
  - exact Hinv.
  - exact page_shaped.
  - repeat constructor; simpl; lia.
  - exists t', st'. split; [exact Hclone|]. split; [exact Hcontent|exact Hinv'].
Defined.
End CloneWellFormed.

(** ** Cloning one node *)

Section CloneShallow.
Import Dom.

(** X18.  A clone that is not deep, of a node of any class, returns at
    the first level of the recursion.  Without a callback the store it
    leaves is the store it was given with one more node, the node it
    returns: a node of the class and with the data of the original, as
    the constructor leaves it (no parent, no siblings, no children); all
    other nodes are as they were.  With a callback the store it leaves
    is what one call of the callback, with the original and the new
    node, makes of that store: the callback is called once, after the
    new node was made, and nothing is done after it.  A deep clone of a
    node of a class without children (text, comment, processing
    instruction) is the same call, and so is the deep clone of a node
    that has no children when the callback has returned. *)
Theorem Node_clone_not_deep fuel node st :
  let kind := nodeKind (st_heap st) node in
  let newId := st_next st in
  let allocated := mkStore (<[newId := newNode kind]> (st_heap st)) (S newId) in
  Node_clone (S fuel) node false None st = Some (newId, allocated) ∧
  (∀ cb, Node_clone (S fuel) node false (Some cb) st
         = Some (newId, cb node newId allocated)) ∧
  (isNodeWithChildrenKind kind = false →
   Node_clone (S fuel) node true None st = Some (newId, allocated) ∧
   ∀ cb, Node_clone (S fuel) node true (Some cb) st
         = Some (newId, cb node newId allocated)) ∧
  (childNodes (st_heap allocated) node = [] →
   Node_clone (S fuel) node true None st = Some (newId, allocated)) ∧
  (∀ cb, childNodes (st_heap (cb node newId allocated)) node = [] →
         Node_clone (S fuel) node true (Some cb) st
         = Some (newId, cb node newId allocated)).
Proof.
  intros kind newId allocated.
  assert (Hnot : ∀ callback,
            Node_clone (S fuel) node false callback st
            = Some (newId, processClonedNode node newId callback allocated)).
  { intros callback. cbn [Node_clone]. unfold Node_clone_body.
    subst allocated newId kind.
    destruct (nodeKind (st_heap st) node) eqn:Hkind;
      unfold cloneDocumentNode, cloneTagNode, cloneTextNode, cloneCommentNode,
        cloneCDATANode, cloneProcessingInstructionNode, cloneMFragmentNode,
        cloneMComponentNode, cloneMSlotNode, cloneMContentNode, cloneMVarNode,
        cloneMImportNode, processClonedParentNode, cloneAttributes;
      rewrite Hkind; reflexivity. }
  assert (Hleaf : isNodeWithChildrenKind kind = false → ∀ callback,
            Node_clone (S fuel) node true callback st
            = Some (newId, processClonedNode node newId callback allocated)).
  { intros Hk callback. cbn [Node_clone]. unfold Node_clone_body.
    subst allocated newId kind.
    destruct (nodeKind (st_heap st) node) eqn:Hkind; try discriminate Hk;
      unfold cloneTextNode, cloneCommentNode, cloneProcessingInstructionNode;
      rewrite Hkind; reflexivity. }
  assert (Hbare : ∀ callback,
            childNodes (st_heap (processClonedNode node newId callback allocated)) node = [] →
            Node_clone (S fuel) node true callback st
            = Some (newId, processClonedNode node newId callback allocated)).
  { intros callback Hnone.
    destruct (isNodeWithChildrenKind kind) eqn:Hk; [|by apply Hleaf].
    cbn [Node_clone]. unfold Node_clone_body.
    subst allocated newId kind.
    destruct (nodeKind (st_heap st) node) eqn:Hkind; try discriminate Hk;
      unfold cloneDocumentNode, cloneTagNode, cloneCDATANode, cloneMFragmentNode,
        cloneMComponentNode, cloneMSlotNode, cloneMContentNode, cloneMVarNode,
        cloneMImportNode, processClonedParentNode, cloneAttributes, cloneChildNodes;
      rewrite Hkind; cbn [alloc]; rewrite Hnone; reflexivity. }
  split; [exact (Hnot None)|]. split; [exact (λ cb, Hnot (Some cb))|].
  split; [|split].
  - intros Hk. split; [exact (Hleaf Hk None)|exact (λ cb, Hleaf Hk (Some cb))].
  - exact (Hbare None).
  - exact (λ cb, Hbare (Some cb)).
Qed.
End CloneShallow.

Section CloneShallowWitness.
Import Dom Examples.

Lemma Node_clone_not_deep_witness :
  let under_original : nid → nid → Store → Store :=
    λ oldNode newNode, on_heap (appendChild oldNode newNode) in
  let marked : nid → nid → Store → Store :=
    λ oldNode newNode, on_heap (setText newNode "copy") in
  (∃ st, Node_clone 1 1 false (Some under_original) page_store = Some (6, st) ∧
         nodeKind (st_heap st) 6 = KTag "div" [("class", Some "x")] ∧
         childNodes (st_heap st) 6 = [] ∧
         childNodes (st_heap st) 1 = [3; 4; 6] ∧
         parentNode (st_heap st) 6 = Some 1) ∧
  (∃ st, Node_clone 1 3 true (Some marked) page_store = Some (6, st) ∧
         nodeKind (st_heap st) 6 = KText "copy" ∧
         nodeKind (st_heap st) 3 = KText "a" ∧
         parentNode (st_heap st) 6 = None) ∧
  (∃ st, Node_clone 1 1 false None page_store = Some (6, st) ∧
         nodeKind (st_heap st) 6 = KTag "div" [("class", Some "x")] ∧
         childNodes (st_heap st) 1 = [3; 4] ∧
         parentNode (st_heap st) 6 = None).
Proof.
  intros under_original marked.
  pose proof (Node_clone_not_deep 0 1 page_store) as (Hplain & Hcallback & _).
  pose proof (Node_clone_not_deep 0 3 page_store) as (_ & _ & Hleaf & _).
  split; [|split].
  - eexists. split; [apply (Hcallback under_original)|].
    repeat split; vm_compute; reflexivity.
  - eexists. split; [apply (proj2 (Hleaf eq_refl) marked)|].
    repeat split; vm_compute; reflexivity.
  - eexists. split; [exact Hplain|]. repeat split; vm_compute; reflexivity.
Defined.
End CloneShallowWitness.

(** ** Scripts and relinking *)

Section ScriptFacts.
Import Pipeline Scripts.
Context {Backend EvalContent EvalContext JsValue EvalError InterfaceError : Type}.
Variable pipelineInterface : @PipelineInterface Backend InterfaceError.
Variable md5_base64 : string → string.
Variable trim : string → string.
Variable parseScript : string → EvalContent.
Variable invoke : EvalContent → EvalContext → result EvalError JsValue.

Abbreviation FullS := (@Full Backend EvalContent EvalContext).
Abbreviation compileS :=
  (@compileScript Backend EvalContent EvalContext JsValue EvalError InterfaceError
     trim parseScript invoke).
Abbreviation compileX :=
  (@compileExternalScript Backend EvalContent EvalContext JsValue EvalError InterfaceError
     pipelineInterface trim parseScript invoke).
Abbreviation invocationS :=
  (@invocation EvalContent EvalContext JsValue EvalError InterfaceError invoke).

Implicit Types (s : FullS) (script resPath : string) (evalContext : EvalContext).

Lemma compile_script script evalContext s :
  (compileS script evalContext s).1
    = invocationS (scriptFor parseScript (trim script) s) evalContext ∧
  invoked (core (compileS script evalContext s).2)
    = invoked (core s) ++ [(scriptFor parseScript (trim script) s, evalContext)] ∧
  scriptCache (scripts (compileS script evalContext s).2)
    = <[trim script := scriptFor parseScript (trim script) s]> (scriptCache (scripts s)) ∧
  externalScriptCache (scripts (compileS script evalContext s).2)
    = externalScriptCache (scripts s) ∧
  cache (core (compileS script evalContext s).2) = cache (core s) ∧
  store (core (compileS script evalContext s).2) = store (core s) ∧
  backend (core (compileS script evalContext s).2) = backend (core s) ∧
  created (core (compileS script evalContext s).2) = created (core s) ∧
  fetched (compileS script evalContext s).2 = fetched s.
Proof.
  unfold compileScript, getOrParseScript, scriptFor, invocation, hasScript, getScript.
  destruct (scriptCache (scripts s) !! trim script) as [f|] eqn:Hc.
  - rewrite bool_decide_eq_true_2 by eauto.
    cbn [default from_option id].
    destruct (invoke f evalContext) eqn:Hi; cbn;
      (split; [done|split; [done|split; [|done]]]); symmetry; by apply insert_id.
  - rewrite bool_decide_eq_false_2 by (by intros [? ?]).
    cbn [default from_option]. destruct (invoke _ evalContext); done.
Qed.

(** X20.  compileScript trims the script and invokes, once and with the
    given context, the compiled unit of the trimmed text: the unit the
    table of scripts holds for it, or else the unit parseScript makes of
    it, which the table holds from then on.  The table of expressions
    is not touched.  A later call with a script that has the same
    trimmed text invokes the same unit and leaves the table of scripts
    as it is. *)
Theorem compileScript_compiles_once script script' evalContext evalContext' s :
  let first :=
    compileScript (InterfaceError := InterfaceError) trim parseScript invoke
      script evalContext s in
  let again :=
    compileScript (InterfaceError := InterfaceError) trim parseScript invoke
      script' evalContext' first.2 in
  first.1
    = invocation (InterfaceError := InterfaceError) invoke
        (scriptFor parseScript (trim script) s) evalContext ∧
  invoked (core first.2)
    = invoked (core s) ++ [(scriptFor parseScript (trim script) s, evalContext)] ∧
  scriptCache (scripts first.2) !! trim script
    = Some (scriptFor parseScript (trim script) s) ∧
  expressionCache (cache (core first.2)) = expressionCache (cache (core s)) ∧
  (trim script' = trim script →
   again.1
     = invocation (InterfaceError := InterfaceError) invoke
         (scriptFor parseScript (trim script) s) evalContext' ∧
   scripts again.2 = scripts first.2).
Proof.
  intros first again.
  destruct (compile_script script evalContext s)
    as (Hr & Hi & Hc & Hx & Hcache & _).
  fold first in Hr, Hi, Hc, Hx, Hcache.
  assert (Hentry : scriptCache (scripts first.2) !! trim script
                   = Some (scriptFor parseScript (trim script) s)).
  { rewrite Hc. apply lookup_insert_eq. }
  split; [done|]. split; [done|]. split; [done|]. split; [by rewrite Hcache|].
  intros Htrim.
  destruct (compile_script script' evalContext' first.2)
    as (Hr' & _ & Hc' & Hx' & _).
  fold again in Hr', Hc', Hx'.
  assert (Hunit : scriptFor parseScript (trim script') first.2
                  = scriptFor parseScript (trim script) s).
  { unfold scriptFor at 1. rewrite Htrim, Hentry. done. }
  split.
  - by rewrite Hr', Hunit.
  - rewrite Hunit, Htrim in Hc'.
    rewrite insert_id in Hc' by done.
    destruct (scripts again.2), (scripts first.2). cbn in *. congruence.
Qed.

(** X21.  compileExternalScript, for a path that the table of external
    scripts has no entry for, asks the backend for the JAVASCRIPT
    resource of the path, once.  If the backend fails, the call fails
    with its error, nothing is stored and nothing is invoked.  If it
    answers, the trimmed text is stored under the path and is compiled
    as a script (which trims it again); a second call for the path
    invokes the same unit and asks the backend for nothing: the record
    of fetches, the backend and the tables are as the first call left
    them. *)
Theorem compileExternalScript_loads_once resPath evalContext evalContext' s :
  externalScriptCache (scripts s) !! resPath = None →
  let fetch := getResource pipelineInterface JAVASCRIPT resPath (backend (core s)) in
  let first :=
    compileExternalScript pipelineInterface trim parseScript invoke resPath evalContext s in
  let again :=
    compileExternalScript pipelineInterface trim parseScript invoke
      resPath evalContext' first.2 in
  fetched first.2 = fetched s ++ [(JAVASCRIPT, resPath)] ∧
  backend (core first.2) = fetch.2 ∧
  (∀ e, fetch.1 = Raise e →
        first.1 = Raise (ResourceError e) ∧
        scripts first.2 = scripts s ∧
        invoked (core first.2) = invoked (core s)) ∧
  (∀ text, fetch.1 = Return text →
        externalScriptCache (scripts first.2) !! resPath = Some (trim text) ∧
        first.1
          = invocation (InterfaceError := InterfaceError) invoke
              (scriptFor parseScript (trim (trim text)) s) evalContext ∧
        again.1
          = invocation (InterfaceError := InterfaceError) invoke
              (scriptFor parseScript (trim (trim text)) s) evalContext' ∧
        fetched again.2 = fetched first.2 ∧
        backend (core again.2) = backend (core first.2) ∧
        scripts again.2 = scripts first.2).
Proof.
  intros Hmiss fetch first again.
  unfold again, first, compileExternalScript, getOrParseExternalScript, hasExternalScript.
  rewrite Hmiss. rewrite bool_decide_eq_false_2 by (by intros [? ?]).
  cbn [core scripts fetched]. fold fetch.
  destruct fetch as [[text|e] b] eqn:Hfetch; cbn [fst snd].
  - set (s1 := mkFull _ _ _).
    destruct (compile_script (trim text) evalContext s1)
      as (Hr & Hi & Hc & Hx & Hcache & Hstore & Hb & Hcreated & Hf).
    split; [by rewrite Hf|]. split; [by rewrite Hb|].
    split; [by intros e [=]|].
    intros ? [= <-].
    assert (Hext : externalScriptCache (scripts (compileS (trim text) evalContext s1).2)
                     !! resPath = Some (trim text)).
    { rewrite Hx. subst s1. cbn. apply lookup_insert_eq. }
    split; [done|]. split; [by rewrite Hr|].
    rewrite Hext. rewrite bool_decide_eq_true_2 by eauto.
    unfold getExternalScript. rewrite Hext.
    set (s2 := (compileS (trim text) evalContext s1).2) in *.
    destruct (compile_script (trim text) evalContext' s2)
      as (Hr' & _ & Hc' & Hx' & _ & _ & Hb' & _ & Hf').
    assert (Hentry : scriptCache (scripts s2) !! trim (trim text)
                     = Some (scriptFor parseScript (trim (trim text)) s1)).
    { rewrite Hc. apply lookup_insert_eq. }
    assert (Hunit : scriptFor parseScript (trim (trim text)) s2
                    = scriptFor parseScript (trim (trim text)) s1).
    { unfold scriptFor at 1. by rewrite Hentry. }
    split; [by rewrite Hr', Hunit|]. split; [done|]. split; [done|].
    rewrite Hunit in Hc'. rewrite insert_id in Hc' by done.
    destruct (scripts (compileS (trim text) evalContext' s2).2), (scripts s2).
    cbn in *. congruence.
  - split; [done|]. split; [done|]. split; [|by intros ? [=]].
    by intros ? [= <-].
Qed.

(** X23.  With a backend that has a reLinkCreatedResource: the first
    linkResource of some contents calls createResource and returns the
    path it assigned.  A later linkResource of the same contents,
    whatever its type and source, does not call createResource; it
    returns the answer of reLinkCreatedResource for the original path,
    leaves the backend as that call left it, and the table keeps the
    original path. *)
Theorem linkResource_relinks type contents sourceResPath type' sourceResPath'
    reLink (c : @State Backend EvalContent EvalContext) :
  reLinkCreatedResource pipelineInterface = Some reLink →
  createdResourceCache (cache c) !! md5_base64 contents = None →
  let original := assigned pipelineInterface type contents sourceResPath c in
  let first :=
    linkResource (EvalError := EvalError) pipelineInterface md5_base64
      type contents sourceResPath c in
  let again :=
    linkResource (EvalError := EvalError) pipelineInterface md5_base64
      type' contents sourceResPath' first.2 in
  first.1 = Return original ∧
  again.1 = Return (reLink type' contents sourceResPath' original (backend first.2)).1 ∧
  backend again.2 = (reLink type' contents sourceResPath' original (backend first.2)).2 ∧
  created again.2 = created c ++ [(type, contents, sourceResPath)] ∧
  createdResourceCache (cache again.2) !! md5_base64 contents = Some original.
Proof.
  intros Hre Hmiss original first again.
  destruct (link_miss (EvalError := EvalError) pipelineInterface md5_base64
              type contents sourceResPath c Hmiss) as (Hr & Hc & Ht).
  fold first in Hr, Hc, Ht. fold original in Hr, Ht.
  assert (Hentry : createdResourceCache (cache first.2) !! md5_base64 contents
                   = Some original).
  { rewrite Ht. apply lookup_insert_eq. }
  split; [done|].
  unfold again, linkResource at 1 2 3 4, fastHashContent, hasCreatedResource,
    getCreatedResource.
  rewrite Hentry, Hre. rewrite bool_decide_eq_true_2 by eauto.
  destruct (reLink type' contents sourceResPath' original (backend first.2))
    as [resPath b] eqn:Hrelink.
  cbn. done.
Qed.
End ScriptFacts.

Section ScriptWitnesses.
Import Pipeline Scripts Examples.

Lemma compileScript_compiles_once_witness :
  let scope : gmap string string := {[ "$x" := "5" ]} in
  let first :=
    compileScript (InterfaceError := string) trim_start id lookup_name
      " $x" scope script_pipeline in
  let again :=
    compileScript (InterfaceError := string) trim_start id lookup_name
      "$x" scope first.2 in
  trim_start "$x" = trim_start " $x" ∧ again.1 = Return "5" ∧ scripts again.2 = scripts first.2.
Proof.
  intros scope first again.
  split; [reflexivity|].
  destruct (compileScript_compiles_once (InterfaceError := string) trim_start id lookup_name
              " $x" "$x" scope scope script_pipeline) as (_ & _ & _ & _ & Hagain).
  destruct (Hagain eq_refl) as [Hr Hs].
  split; [exact Hr|exact Hs].
Defined.

Lemma compileExternalScript_loads_once_witness :
  let scope : gmap string string := {[ "$x" := "5" ]} in
  let first :=
    compileExternalScript memory trim_start id lookup_name "x.js" scope script_pipeline in
  let again :=
    compileExternalScript memory trim_start id lookup_name "x.js" scope first.2 in
  first.1 = Return "5" ∧ again.1 = Return "5" ∧
  fetched again.2 = [(JAVASCRIPT, "x.js")].
Proof.
  intros scope first again.
  destruct (compileExternalScript_loads_once memory trim_start id lookup_name
              "x.js" scope scope script_pipeline eq_refl) as (Hf & _ & _ & Hloaded).
  destruct (Hloaded "  $x" eq_refl) as (_ & Hr & Hr' & Hf' & _).
  split; [exact Hr|]. split; [exact Hr'|].
  unfold again, first. rewrite Hf'. exact Hf.
Defined.

Lemma linkResource_relinks_witness :
  let first := linkResource (EvalError := unit) relinking id CSS "a{}" "x.html" fresh_pipeline in
  let again := linkResource (EvalError := unit) relinking id CSS "a{}" "y.html" first.2 in
  first.1 = Return "created/x.html" ∧
  again.1 = Return "created/x.html#y.html" ∧
  created again.2 = [(CSS, "a{}", "x.html")].
Proof.
  intros first again.
  destruct (linkResource_relinks (EvalError := unit) relinking id
              CSS "a{}" "x.html" CSS "y.html" _ fresh_pipeline eq_refl eq_refl)
    as (Hr & Hr' & _ & Hc & _).
  split; [exact Hr|]. split; [exact Hr'|exact Hc].
Defined.
End ScriptWitnesses.

(** ** reset *)

Section ResetFacts.
Import Dom Pipeline Scripts.
Context {Backend EvalContent EvalContext EvalError InterfaceError : Type}.
Variable pipelineInterface : @PipelineInterface Backend InterfaceError.
Variable parseFragment : string → string → Store → Fragment * Store.

Implicit Types (s : @Full Backend EvalContent EvalContext) (st : Store) (t : Tree).

(** X22.  reset() makes the pipeline forget the fragments it has: the
    next fetch of a path, whether or not the cache had a fragment for
    it, asks the backend for the HTML resource of the path.  If the
    backend fails, the fetch fails with the error of the backend, the
    backend being left as that call left it and nothing being stored.
    If it answers, the text is parsed, and the fetch returns a clone of
    the tree that was parsed now; the fragment table then has one entry,
    the parsed fragment under its [resId], and the backend is as the
    call left it. *)
Theorem reset_forgets fuel resPath s :
  (∀ e b,
     getResource pipelineInterface HTML resPath (backend (core s)) = (Raise e, b) →
     getOrParseFragment (EvalError := EvalError) pipelineInterface parseFragment
       fuel resPath (core (reset s))
     = Some (Raise (ResourceError e),
             mkState newCache (store (core s)) b (created (core s)) (invoked (core s)))) ∧
  (∀ html b parsed st t,
     getResource pipelineInterface HTML resPath (backend (core s)) = (Return html, b) →
     parseFragment resPath html (store (core s)) = (parsed, st) →
     scoped st → holds st t → root t = dom parsed → height t ≤ fuel →
     ∃ t1 st1,
       getOrParseFragment (EvalError := EvalError) pipelineInterface parseFragment
         fuel resPath (core (reset s))
       = Some (Return (mkFragment None (path parsed) (root t1)),
               mkState (mkCache {[ resId parsed := parsed ]} ∅ ∅) st1 b
                       (created (core s)) (invoked (core s))) ∧
       cloned st t st1 t1).
Proof.
  split.
  - intros e b Hres.
    unfold getOrParseFragment, hasFragment, reset.
    cbn [core with_cache cache newCache fragmentCache backend store].
    rewrite lookup_empty. rewrite bool_decide_eq_false_2 by (by intros [? ?]).
    by rewrite Hres.
  - intros html b parsed st t Hres Hparse Hscoped [Hshaped Hold] Hroot Hheight.
    destruct (Node_clone_deep fuel t st Hheight Hscoped Hshaped Hold)
      as (t1 & st1 & Hclone & Hcloned).
    exists t1, st1. split; [|done].
    unfold getOrParseFragment, hasFragment, DocumentNode_clone, reset.
    cbn [core with_cache cache newCache fragmentCache backend store].
    rewrite lookup_empty. rewrite bool_decide_eq_false_2 by (by intros [? ?]).
    rewrite Hres, Hparse. cbn [with_cache with_store with_backend store cache].
    rewrite <- Hroot, Hclone. reflexivity.
Qed.
End ResetFacts.

Section ResetWitness.
Import Dom Pipeline Scripts Examples.

Lemma reset_forgets_witness :
  let s := mkFull page_pipeline (mkScriptTables ∅ ∅) [] in
  let parsed_once := (parse_with_resId "hello.html" "hello" (mkStore ∅ 0)).2 in
  let hello : Full (Backend := gmap string string) (EvalContent := string)
                   (EvalContext := gmap string string) :=
    mkFull (mkState (storeFragment (mkFragment (Some "hello.html") "hello.html" 0) newCache)
                    parsed_once {[ "hello.html" := "hello" ]} [] [])
           (mkScriptTables ∅ ∅) [] in
  (getOrParseFragment (EvalError := unit) memory parse_as_text 3 "page.html" (core s)
   = Some (Return (mkFragment None "page.html" 6), with_store page_cloned page_pipeline) ∧
   getOrParseFragment (EvalError := unit) memory parse_as_text 3 "page.html" (core (reset s))
   = Some (Raise (ResourceError "page.html"), mkState newCache page_store ∅ [] [])) ∧
  (∃ st0, getOrParseFragment (EvalError := unit) memory parse_with_resId 2 "hello.html"
            (core hello)
          = Some (Return (mkFragment None "hello.html" 2), with_store st0 (core hello))) ∧
  (∃ t1 st1,
     getOrParseFragment (EvalError := unit) memory parse_with_resId 2 "hello.html"
       (core (reset hello))
     = Some (Return (mkFragment None "hello.html" (root t1)),
             mkState (mkCache {[ Some "hello.html" :=
                                   mkFragment (Some "hello.html") "hello.html" 2 ]} ∅ ∅)
                     st1 {[ "hello.html" := "hello" ]} [] []) ∧
     root t1 = 4 ∧
     content t1 = CNode KDocument [CNode (KText "hello") []]).
Proof.
  intros s parsed_once hello. split; [split|split].
  - vm_compute. reflexivity.
  - apply (proj1 (reset_forgets (EvalError := unit) memory parse_as_text 3 "page.html" s)).
    reflexivity.
  - eexists. vm_compute. reflexivity.
  - destruct (proj2 (reset_forgets (EvalError := unit) memory parse_with_resId
                       2 "hello.html" hello)
                "hello" (backend (core hello))
                (parse_with_resId "hello.html" "hello" parsed_once).1
                (parse_with_resId "hello.html" "hello" parsed_once).2
                (TNode 2 KDocument [TNode 3 (KText "hello") []]))
      as (t1 & st1 & Hfetch & Hcloned).
    + reflexivity.
    + reflexivity.
    + apply scoped_ok_sound. vm_compute. reflexivity.
    + split.
      * cbn [shaped]. repeat split; try (vm_compute; reflexivity); intros [=].
      * repeat constructor; vm_compute; lia.
    + reflexivity.
    + vm_compute. lia.
    + exists t1, st1. split; [exact Hfetch|]. split; [|apply Hcloned].
      transitivity (match getOrParseFragment (EvalError := unit) memory parse_with_resId
                            2 "hello.html" (core (reset hello)) with
                    | Some (Return f, _) => dom f
                    | _ => 0
                    end); [rewrite Hfetch; reflexivity|vm_compute; reflexivity].
Defined.
End ResetWitness.

(** ** The guarded getters of the cache *)

Section NoCacheMiss.
Import Dom Pipeline Scripts.
Context {Backend EvalContent EvalContext JsValue EvalError InterfaceError : Type}.
Variable pipelineInterface : @PipelineInterface Backend InterfaceError.
Variable md5_base64 : string → string.
Variable trim : string → string.
Variable isExpressionString : string → bool.
Variable parseExpression : string → EvalContent.
Variable parseScript : string → EvalContent.
Variable invoke : EvalContent → EvalContext → result EvalError JsValue.
Variable ofString : string → JsValue.
Variable parseFragment : string → string → Store → Fragment * Store.

Implicit Types (c : @State Backend EvalContent EvalContext)
  (s : @Full Backend EvalContent EvalContext).

(** X24.  None of linkResource, compileExpression, getOrParseFragment,
    compileScript and compileExternalScript fails with a cache miss, in
    any state of the pipeline: each getter of the cache is called only
    after the test that the entry exists.  (A call that fails fails
    with the error of the backend or of the unit that was invoked.) *)
Theorem cache_miss_is_never_raised type contents sourceResPath value script resPath
    evalContext fuel c s :
  ¬ isCacheMiss
      (linkResource (EvalError := EvalError) pipelineInterface md5_base64
         type contents sourceResPath c).1 ∧
  ¬ isCacheMiss
      (compileExpression (InterfaceError := InterfaceError) trim isExpressionString
         parseExpression invoke ofString value evalContext c).1 ∧
  (∀ r, getOrParseFragment (EvalError := EvalError) pipelineInterface parseFragment
          fuel resPath c = Some r →
        ¬ isCacheMiss r.1) ∧
  ¬ isCacheMiss
      (compileScript (InterfaceError := InterfaceError) trim parseScript invoke
         script evalContext s).1 ∧
  ¬ isCacheMiss
      (compileExternalScript pipelineInterface trim parseScript invoke
         resPath evalContext s).1.
Proof.
  assert (Hscript : ∀ script s,
            ¬ isCacheMiss
                (compileScript (InterfaceError := InterfaceError) trim parseScript invoke
                   script evalContext s).1).
  { intros script' s'. unfold compileScript, getOrParseScript, hasScript, getScript.
    destruct (scriptCache (scripts s') !! trim script') as [f|] eqn:Hf.
    - rewrite bool_decide_eq_true_2 by eauto.
      destruct (invoke f evalContext); intros (? & ? & [=]).
    - rewrite bool_decide_eq_false_2 by (by intros [? ?]).
      destruct (invoke _ evalContext); intros (? & ? & [=]). }
  split; [|split; [|split; [|split]]].
  - unfold linkResource, hasCreatedResource, getCreatedResource.
    destruct (createdResourceCache (cache c) !! fastHashContent md5_base64 contents)
      as [p|] eqn:Hp.
    + rewrite bool_decide_eq_true_2 by eauto.
      destruct (reLinkCreatedResource pipelineInterface) as [reLink|].
      * destruct (reLink _ _ _ _ _). intros (? & ? & [=]).
      * intros (? & ? & [=]).
    + rewrite bool_decide_eq_false_2 by (by intros [? ?]).
      destruct (createResource _ _ _ _ _). intros (? & ? & [=]).
  - unfold compileExpression, getOrParseExpression, hasExpression, getExpression.
    destruct (isExpressionString value); [|intros (? & ? & [=])].
    destruct (expressionCache (cache c) !! trim value) as [f|] eqn:Hf.
    + rewrite bool_decide_eq_true_2 by eauto.
      destruct (invoke f evalContext); intros (? & ? & [=]).
    + rewrite bool_decide_eq_false_2 by (by intros [? ?]).
      destruct (invoke _ evalContext); intros (? & ? & [=]).
  - intros r. unfold getOrParseFragment, hasFragment, getFragment.
    destruct (fragmentCache (cache c) !! Some resPath) as [f|] eqn:Hf.
    + rewrite bool_decide_eq_true_2 by eauto.
      destruct (DocumentNode_clone _ _ _) as [[? ?]|]; [|done].
      intros [= <-] (? & ? & [=]).
    + rewrite bool_decide_eq_false_2 by (by intros [? ?]).
      destruct (getResource _ _ _ _) as [[html|e] b].
      * destruct (parseFragment _ _ _) as [parsed st].
        destruct (DocumentNode_clone _ _ _) as [[? ?]|]; [|done].
        intros [= <-] (? & ? & [=]).
      * intros [= <-] (? & ? & [=]).
  - apply Hscript.
  - unfold compileExternalScript, getOrParseExternalScript, hasExternalScript,
      getExternalScript.
    destruct (externalScriptCache (scripts s) !! resPath) as [text|] eqn:Ht.
    + rewrite bool_decide_eq_true_2 by eauto. apply Hscript.
    + rewrite bool_decide_eq_false_2 by (by intros [? ?]).
      destruct (getResource _ _ _ _) as [[text|e] b].
      * apply Hscript.
      * intros (? & ? & [=]).
Qed.
End NoCacheMiss.
